(** * PageRank: a shallow embedding of [pagerank.py]

    The ranking core of the program is embedded here: [transition_model],
    [sample_pagerank] and [iterate_pagerank].

    Conventions of the embedding.
    - Python floats are idealised as exact rationals ([Qc], the canonical
      rationals, so that equal numbers are Leibniz-equal).  Every statement
      below is about exact arithmetic; rounding is out of scope.
    - A Python [dict] is an insertion-ordered association list with pairwise
      distinct keys; a Python [set] of pages is a [gset].
    - Exceptions are the [Raise] branch of [result]; the unbounded
      [while True] loop takes fuel and answers [None] when it runs out.
    - The module-level random generator is an explicit stream of variates,
      threaded through the sampler.

    The rest of the program, [crawl] and [main], is embedded after the
    core.  What they take from outside the program is a parameter: the
    directory as [os.listdir] and [open] show it, the regular expression
    search of [re.findall], and the format [:.4f] of a float. *)

From Stdlib Require Import QArith Qcanon Qcabs Qround.
From stdpp Require Import base numbers list strings gmap sorting.

(** ** Python run-time values *)

Inductive exn : Type :=
  | KeyError
  | IndexError
  | ZeroDivisionError
  | ValueError.

Inductive result (A : Type) : Type :=
  | Ok (a : A)
  | Raise (e : exn).
Arguments Ok {A} a.
Arguments Raise {A} e.

Definition result_bind {A B} (m : result A) (f : A → result B) : result B :=
  match m with
  | Ok a => f a
  | Raise e => Raise e
  end.

Notation "'let*' x := m 'in' k" := (result_bind m (λ x, k))
  (at level 10, x pattern, m at level 100, k at level 200).

(** [for x in xs: acc = body(acc, x)], where the body may raise. *)
Fixpoint for_each {A S} (body : S → A → result S) (xs : list A) (acc : S)
  : result S :=
  match xs with
  | [] => Ok acc
  | x :: xs' => let* acc' := body acc x in for_each body xs' acc'
  end.

Abbreviation page := string.

Definition Qc_of_nat (n : nat) : Qc := Qc_of_Z (Z.of_nat n).

(** [x / y] on numbers: true division, raising on a zero divisor. *)
Definition truediv (x y : Qc) : result Qc :=
  if decide (y = 0%Qc) then Raise ZeroDivisionError else Ok (x / y)%Qc.

(** ** Dictionaries *)

Module Dict.

Definition t (V : Type) : Type := list (page * V).

Definition keys {V} (d : t V) : list page := d.*1.
Definition values {V} (d : t V) : list V := d.*2.
Definition len {V} (d : t V) : nat := length d.

Fixpoint get {V} (d : t V) (k : page) : option V :=
  match d with
  | [] => None
  | (k', v) :: d' => if decide (k' = k) then Some v else get d' k
  end.

(** [d[k]] *)
Definition getitem {V} (d : t V) (k : page) : result V :=
  match get d k with
  | Some v => Ok v
  | None => Raise KeyError
  end.

(** [d[k] = v]: overwrite in place, or append a new key at the end. *)
Fixpoint setitem {V} (d : t V) (k : page) (v : V) : t V :=
  match d with
  | [] => [(k, v)]
  | (k', v') :: d' =>
      if decide (k' = k) then (k, v) :: d' else (k', v') :: setitem d' k v
  end.

(** What the type [dict] guarantees and an association list does not. *)
Definition wf {V} (d : t V) : Prop := NoDup (keys d).

End Dict.

Abbreviation corpus_t := (Dict.t (gset page)).

(** ** [transition_model]

    [corpus[page]] is read once into [links]; the test
    [key not in corpus[page]] of the loop reads the same set again and is
    written with [links]. *)

Definition transition_model (corpus : corpus_t) (p : page) (damping_factor : Qc)
  : result (Dict.t Qc) :=
  let prob_distribution : Dict.t Qc := [] in
  let* links := Dict.getitem corpus p in
  let* split_prob :=
    truediv (1 - damping_factor) (Qc_of_nat (length (Dict.keys corpus))) in
  let* equal_prob := truediv 1 (Qc_of_nat (length (Dict.keys corpus))) in
  if decide (links ≠ ∅) then
    let* damping_prob := truediv damping_factor (Qc_of_nat (size links)) in
    Ok (foldl (λ pd key,
                 if decide (key ∉ links)
                 then Dict.setitem pd key split_prob
                 else Dict.setitem pd key (damping_prob + split_prob)%Qc)
              prob_distribution (Dict.keys corpus))
  else
    Ok (foldl (λ pd key, Dict.setitem pd key equal_prob)
              prob_distribution (Dict.keys corpus)).

(** ** The [random] module

    The generator is the stream of the variates that successive calls of
    [random()] return, each meant to lie in [0, 1).  The two library
    functions the sampler calls are modelled after CPython: [choice] indexes
    the sequence with a number below its length, and [choices] bisects the
    running totals of the weights at [random() * total]. *)

Module Random.

Definition rng : Type := nat → Qc.

Definition random (g : rng) : Qc * rng := (g 0%nat, λ i, g (S i)).

(** [_randbelow(n)], idealised: the variate scaled to [0, n). *)
Definition randbelow (n : nat) (g : rng) : nat * rng :=
  let '(u, g') := random g in
  ((Z.to_nat (Qfloor (u * Qc_of_nat n)%Qc) `mod` n)%nat, g').

(** [random.choice(seq)] *)
Definition choice {A} (seq : list A) (g : rng) : result (A * rng) :=
  if decide (length seq = 0%nat) then Raise IndexError
  else
    let '(i, g') := randbelow (length seq) g in
    match seq !! i with
    | Some x => Ok (x, g')
    | None => Raise IndexError
    end.

(** [itertools.accumulate(weights)]: running totals, left to right, the
    first of them the first weight itself. *)
Fixpoint accumulate_from (total : Qc) (weights : list Qc) : list Qc :=
  match weights with
  | [] => []
  | w :: ws => (total + w)%Qc :: accumulate_from (total + w)%Qc ws
  end.

Definition accumulate (weights : list Qc) : list Qc :=
  match weights with
  | [] => []
  | w :: ws => w :: accumulate_from w ws
  end.

(** [bisect.bisect_right(a, x, lo, hi)]: the loop
    [while lo < hi: mid = (lo + hi) // 2; ...], which runs at most
    [hi - lo] times; [fuel] counts those rounds. *)
Fixpoint bisect_loop (fuel : nat) (a : list Qc) (x : Qc) (lo hi : nat)
  : result nat :=
  match fuel with
  | O => Ok lo
  | S fuel' =>
      if decide (lo < hi)%nat then
        let mid := ((lo + hi) `div` 2)%nat in
        match a !! mid with
        | None => Raise IndexError
        | Some a_mid =>
            if decide (x < a_mid)%Qc
            then bisect_loop fuel' a x lo mid
            else bisect_loop fuel' a x (mid + 1)%nat hi
        end
      else Ok lo
  end.

Definition bisect (a : list Qc) (x : Qc) (lo hi : nat) : result nat :=
  bisect_loop (hi - lo) a x lo hi.

(** [random.choices(population, weights, k=1)[0]] *)
Definition choices {A} (population : list A) (weights : list Qc) (g : rng)
  : result (A * rng) :=
  let n := length population in
  let cum_weights := accumulate weights in
  if decide (length cum_weights ≠ n) then Raise ValueError
  else
    match last cum_weights with
    | None => Raise IndexError
    | Some total =>
        if decide (total ≤ 0)%Qc then Raise ValueError
        else
          let hi := (n - 1)%nat in
          let '(u, g') := random g in
          let* i := bisect cum_weights (u * total)%Qc 0 hi in
          match population !! i with
          | Some x => Ok (x, g')
          | None => Raise IndexError
          end
    end.

End Random.

(** ** [sample_pagerank] *)

(** [range(lo, hi)] *)
Definition py_range (lo hi : Z) : list Z :=
  (λ i : nat, (lo + Z.of_nat i)%Z) <$> seq 0 (Z.to_nat (hi - lo)).

(** The two lines of the loop body that move the walk:
    [prob_distribution = transition_model(corpus, sample, damping_factor)]
    and the draw of the next [sample] from it. *)
Definition next_sample (corpus : corpus_t) (damping_factor : Qc)
    (sample : page) (g : Random.rng) : result (page * Random.rng) :=
  let* prob_distribution := transition_model corpus sample damping_factor in
  Random.choices (Dict.keys prob_distribution)
                 (Dict.values prob_distribution) g.

(** One round of [for i in range(1, n)]. *)
Definition sample_step (corpus : corpus_t) (damping_factor : Qc)
    (st : Dict.t Z * page * Random.rng) (i : Z)
  : result (Dict.t Z * page * Random.rng) :=
  let '(page_distribution, sample, g) := st in
  let* count := Dict.getitem page_distribution sample in
  let page_distribution := Dict.setitem page_distribution sample (count + 1)%Z in
  let* (sample, g) := next_sample corpus damping_factor sample g in
  Ok (page_distribution, sample, g).

(** The counts are integers until the last loop divides them in place:
    that loop runs over the pages with their counts and rewrites the same
    dictionary, entry by entry, into shares. *)
Definition sample_pagerank (corpus : corpus_t) (damping_factor : Qc) (n : Z)
    (g : Random.rng) : result (Dict.t Qc) :=
  let page_distribution : Dict.t Z :=
    foldl (λ pd p, Dict.setitem pd p 0%Z) [] (Dict.keys corpus) in
  let* (sample, g) := Random.choice (Dict.keys corpus) g in
  let* (page_distribution, _, _) :=
    for_each (sample_step corpus damping_factor) (py_range 1 n)
             (page_distribution, sample, g) in
  for_each (λ (pd : Dict.t Qc) '(p, count),
              let* share := truediv (Qc_of_Z count) (Qc_of_Z n) in
              Ok (Dict.setitem pd p share))
           page_distribution (prod_map id Qc_of_Z <$> page_distribution).

(** ** [iterate_pagerank] *)

Definition threshold : Qc := Q2Qc (1 # 1000).

(** The inner loop [for link in corpus: if page in corpus[link]: ...]. *)
Definition rank_sum (corpus : corpus_t) (page_distribution : Dict.t Qc)
    (p : page) : result Qc :=
  for_each (λ (sum : Qc) link,
              let* out := Dict.getitem corpus link in
              if decide (p ∈ out) then
                let num_links := size out in
                let* rank := Dict.getitem page_distribution link in
                let* share := truediv rank (Qc_of_nat num_links) in
                Ok (sum + share)%Qc
              else Ok sum)
           (Dict.keys corpus) 0%Qc.

(** The body of [for page in corpus]. *)
Definition update_page (corpus : corpus_t) (damping_factor : Qc)
    (num_pages : nat) (st : Dict.t Qc * nat) (p : page)
  : result (Dict.t Qc * nat) :=
  let '(page_distribution, convergence_count) := st in
  let* new_rank := truediv (1 - damping_factor) (Qc_of_nat num_pages) in
  let* sum := rank_sum corpus page_distribution p in
  let sum := (sum * damping_factor)%Qc in
  let new_rank := (new_rank + sum)%Qc in
  let* old_rank := Dict.getitem page_distribution p in
  let convergence_count :=
    if decide (Qcabs (new_rank - old_rank) < threshold)%Qc
    then S convergence_count else convergence_count in
  Ok (Dict.setitem page_distribution p new_rank, convergence_count).

(** One pass of the [while True] body up to the convergence test. *)
Definition sweep (corpus : corpus_t) (damping_factor : Qc) (num_pages : nat)
    (page_distribution : Dict.t Qc) : result (Dict.t Qc * nat) :=
  for_each (update_page corpus damping_factor num_pages)
           (Dict.keys corpus) (page_distribution, 0%nat).

Fixpoint iterate_loop (fuel : nat) (corpus : corpus_t) (damping_factor : Qc)
    (num_pages : nat) (page_distribution : Dict.t Qc)
  : option (result (Dict.t Qc)) :=
  match fuel with
  | O => None
  | S fuel' =>
      match sweep corpus damping_factor num_pages page_distribution with
      | Raise e => Some (Raise e)
      | Ok (page_distribution', convergence_count) =>
          if decide (convergence_count = num_pages)
          then Some (Ok page_distribution')
          else iterate_loop fuel' corpus damping_factor num_pages
                            page_distribution'
      end
  end.

(** The ranks before the first sweep: [1 / num_pages] for every page. *)
Definition initial_ranks (corpus : corpus_t) (num_pages : nat)
  : result (Dict.t Qc) :=
  for_each (λ (pd : Dict.t Qc) p,
              let* r := truediv 1 (Qc_of_nat num_pages) in
              Ok (Dict.setitem pd p r))
           (Dict.keys corpus) [].

Definition iterate_pagerank (fuel : nat) (corpus : corpus_t)
    (damping_factor : Qc) : option (result (Dict.t Qc)) :=
  let num_pages := Dict.len corpus in
  match initial_ranks corpus num_pages with
  | Raise e => Some (Raise e)
  | Ok page_distribution =>
      iterate_loop fuel corpus damping_factor num_pages page_distribution
  end.

(** ** Reference notions for the statements *)

Definition Qc_sum (xs : list Qc) : Qc := foldr Qcplus 0%Qc xs.

(** The graph invariant of the data model: no link leaves the node set. *)
Definition links_closed (corpus : corpus_t) : Prop :=
  ∀ p out q, (p, out) ∈ corpus → q ∈ out → q ∈ Dict.keys corpus.

(** A rank mapping read as a function; absent pages count for nothing. *)
Definition rank_of (ranks : Dict.t Qc) (q : page) : Qc :=
  default 0%Qc (Dict.get ranks q).

(** The pages [q] with [p ∈ out(q)], in corpus order, each with its out-set. *)
Definition linking_pages (corpus : corpus_t) (p : page)
  : list (page * gset page) :=
  filter (λ qo, p ∈ qo.2) corpus.

(** The recurrence in the words of the specification:
    [(1-d)/N + d * Σ_{q : p ∈ out(q)} rank(q) / |out(q)|]. *)
Definition recurrence (corpus : corpus_t) (d : Qc) (ranks : Dict.t Qc)
    (p : page) : Qc :=
  ((1 - d) / Qc_of_nat (Dict.len corpus)
   + d * Qc_sum ((λ qo, rank_of ranks qo.1 / Qc_of_nat (size qo.2))
                   <$> linking_pages corpus p))%Qc.

(** One sweep of the synchronous (Jacobi) recurrence: every page is
    recomputed from the ranks of the previous sweep. *)
Definition jacobi_sweep (corpus : corpus_t) (d : Qc) (ranks : Dict.t Qc)
  : Dict.t Qc :=
  (λ p, (p, recurrence corpus d ranks p)) <$> Dict.keys corpus.

(** Rewriting the rank of one page from the mapping as it stands. *)
Definition relax (corpus : corpus_t) (d : Qc) (ranks : Dict.t Qc) (p : page)
  : Dict.t Qc :=
  Dict.setitem ranks p (recurrence corpus d ranks p).

(** One sweep of the in-place (Gauss-Seidel) recurrence: pages are
    recomputed in corpus order, each from the mapping as it stands. *)
Definition inplace_sweep (corpus : corpus_t) (d : Qc) (ranks : Dict.t Qc)
  : Dict.t Qc :=
  foldl (relax corpus d) ranks (Dict.keys corpus).

(** The convergence test on one page, between two rank mappings. *)
Definition within_tolerance (old new : Dict.t Qc) (p : page) : Prop :=
  (Qcabs (rank_of new p - rank_of old p) < threshold)%Qc.

Global Instance within_tolerance_dec old new p :
  Decision (within_tolerance old new p) :=
  Qc_lt_dec (Qcabs (rank_of new p - rank_of old p)) threshold.

Definition nonneg_ranks (ranks : Dict.t Qc) : Prop :=
  ∀ q, (0 ≤ rank_of ranks q)%Qc.

(** The probability the specification gives to the step from a page with
    out-set [links] to the page [q]. *)
Definition model_prob (corpus : corpus_t) (d : Qc) (links : gset page)
    (q : page) : Qc :=
  if decide (links ≠ ∅) then
    if decide (q ∉ links)
    then ((1 - d) / Qc_of_nat (Dict.len corpus))%Qc
    else (d / Qc_of_nat (size links)
          + (1 - d) / Qc_of_nat (Dict.len corpus))%Qc
  else (1 / Qc_of_nat (Dict.len corpus))%Qc.

(** The positions a walk visits after [sample]: [k] further draws. *)
Fixpoint walk_from (k : nat) (corpus : corpus_t) (d : Qc) (sample : page)
    (g : Random.rng) : result (list page) :=
  match k with
  | O => Ok []
  | S k' =>
      let* (sample', g') := next_sample corpus d sample g in
      let* rest := walk_from k' corpus d sample' g' in
      Ok (sample' :: rest)
  end.

(** The first [k] positions of the walk the sampler takes: the start drawn
    by [random.choice], then one draw per position. *)
Definition walk (k : nat) (corpus : corpus_t) (d : Qc) (g : Random.rng)
  : result (list page) :=
  match k with
  | O => Ok []
  | S k' =>
      let* (sample, g') := Random.choice (Dict.keys corpus) g in
      let* rest := walk_from k' corpus d sample g' in
      Ok (sample :: rest)
  end.

Definition visits (p : page) (path : list page) : nat :=
  length (filter (λ x, x = p) path).

(** A tally read as a function; absent pages were never visited. *)
Definition tally (counts : Dict.t Z) (p : page) : Z :=
  default 0%Z (Dict.get counts p).

(** The weights [random.choices] receives on a step from a page with
    out-set [links]. *)
Definition step_weights (corpus : corpus_t) (d : Qc) (links : gset page)
  : list Qc :=
  model_prob corpus d links <$> Dict.keys corpus.

(** The estimate the sampler returns for [p], as a function of the walk. *)
Definition estimate (n : Z) (p : page) (path : list page) : Qc :=
  (Qc_of_nat (visits p (take (Z.to_nat n - 1) path)) / Qc_of_Z n)%Qc.

(** *** The law of the walk

    The sampler is a function of its random source.  When the variates are
    independent and uniform, [random.choice] picks each key with the same
    probability and [random.choices] picks each key with probability
    proportional to its weight.  [expect k corpus d f] is the mean of [f]
    over the first [k] positions of the walk under that law: the recursion
    is that of [walk], with each draw replaced by the average over its
    outcomes. *)
Fixpoint expect_from (k : nat) (corpus : corpus_t) (d : Qc) (sample : page)
    (f : list page → Qc) : Qc :=
  match k with
  | O => f []
  | S k' =>
      match transition_model corpus sample d with
      | Ok dist =>
          Qc_sum ((λ qw, qw.2 / Qc_sum (Dict.values dist)
                         * expect_from k' corpus d qw.1
                             (λ rest, f (qw.1 :: rest)))%Qc <$> dist)
      | Raise _ => 0%Qc
      end
  end.

Definition expect (k : nat) (corpus : corpus_t) (d : Qc)
    (f : list page → Qc) : Qc :=
  match k with
  | O => f []
  | S k' =>
      Qc_sum ((λ q, 1 / Qc_of_nat (length (Dict.keys corpus))
                    * expect_from k' corpus d q (λ rest, f (q :: rest)))%Qc
                <$> Dict.keys corpus)
  end.

(** Counting [p] as +1 and any other page as -1. *)
Definition sign (p x : page) : Qc := if decide (x = p) then 1%Qc else (-1)%Qc.

Definition signed (p : page) (j : nat) (path : list page) : Qc :=
  Qc_sum (sign p <$> take j path).

(** Mean and mean square of the signed count on the two-node cycle. *)
Fixpoint drift (d : Qc) (j : nat) : Qc :=
  match j with
  | O => 0%Qc
  | S j' => (d * (1 - drift d j'))%Qc
  end.

Fixpoint spread (d : Qc) (j : nat) : Qc :=
  match j with
  | O => 0%Qc
  | S j' => (1 - (1 + 1) * drift d j' + spread d j')%Qc
  end.

(** *** The distance in which a sweep contracts *)

(** The part of the rank of the page of [qo] that the recurrence passes on
    to [p]: one over the number of its links when [p] is one of them. *)
Definition share (p : page) (qo : page * gset page) : Qc :=
  if decide (p ∈ qo.2) then (1 / Qc_of_nat (size qo.2))%Qc else 0%Qc.

(** What the pages [ps] together receive from the page of [qo]. *)
Definition col (ps : list page) (qo : page * gset page) : Qc :=
  Qc_sum ((λ p, share p qo) <$> ps).

(** The pages a sweep over [ks] rewrites after it has rewritten [q]. *)
Fixpoint later (ks : list page) (q : page) : list page :=
  match ks with
  | [] => []
  | k :: rest => if decide (k = q) then rest else later rest q
  end.

(** The distance between two rank mappings at a page. *)
Definition gap (x y : Dict.t Qc) (q : page) : Qc :=
  Qcabs (rank_of x q - rank_of y q).

(** The distance between two rank mappings in which a sweep contracts:
    the gaps added up, each page weighted by what is left of 1 when the
    damped shares it passes to the pages after it are taken away. *)
Definition weighted_gap (corpus : corpus_t) (d : Qc) (x y : Dict.t Qc) : Qc :=
  Qc_sum ((λ qo, (1 - d * col (later (Dict.keys corpus) qo.1) qo)
                 * gap x y qo.1)%Qc <$> corpus).

(** ** Example graphs *)

Definition single_node : corpus_t := [("A"%string, ∅)].

Definition two_cycle : corpus_t :=
  [("A"%string, {["B"%string]}); ("B"%string, {["A"%string]})].

Definition chain : corpus_t :=
  [("A"%string, {["B"%string]}); ("B"%string, ∅)].

(** Rank 1/2 for each node of the two-node cycle. *)
Definition halves : Dict.t Qc :=
  [("A"%string, Q2Qc (1 # 2)); ("B"%string, Q2Qc (1 # 2))].

Definition const_rng (u : Qc) : Random.rng := λ _, u.

(** ** [crawl]

    A directory is the list of its entries in the order [os.listdir] gives
    them, each with the contents [open(...).read()] returns, or [None] when
    opening or reading the entry fails.  [find_links contents] stands for
    [re.findall(pattern, contents)] with the pattern of the source, which
    captures the value of the href attribute of every anchor tag. *)

Abbreviation listing := (list (string * option string)).

Inductive outcome (A : Type) : Type :=
  | Returns (a : A)
  | Raises (e : exn)
  | RaisesOSError.
Arguments Returns {A} a.
Arguments Raises {A} e.
Arguments RaisesOSError {A}.

(** [s.endswith(suffix)] *)
Fixpoint endswith (s suffix : string) : bool :=
  if decide (s = suffix) then true
  else match s with
       | EmptyString => false
       | String _ s' => endswith s' suffix
       end.

(** The first loop, [for filename in os.listdir(directory)]. *)
Fixpoint read_pages (find_links : string → list string) (dir : listing)
    (pages : corpus_t) : outcome corpus_t :=
  match dir with
  | [] => Returns pages
  | (filename, file) :: dir' =>
      if negb (endswith filename ".html") then read_pages find_links dir' pages
      else
        match file with
        | None => RaisesOSError
        | Some contents =>
            let links := find_links contents in
            read_pages find_links dir'
              (Dict.setitem pages filename
                 (list_to_set links ∖ {[filename]}))
        end
  end.

(** The second loop, [for filename in pages]: every out-set is replaced by
    its links that are keys of [pages]. *)
Definition keep_known_links (pages : corpus_t) : result corpus_t :=
  for_each (λ (pages : corpus_t) filename,
              let* out := Dict.getitem pages filename in
              Ok (Dict.setitem pages filename
                    (filter (λ link, link ∈ Dict.keys pages) out)))
           (Dict.keys pages) pages.

Definition crawl (find_links : string → list string) (dir : listing)
  : outcome corpus_t :=
  match read_pages find_links dir [] with
  | Returns pages =>
      match keep_known_links pages with
      | Ok pages => Returns pages
      | Raise e => Raises e
      end
  | Raises e => Raises e
  | RaisesOSError => RaisesOSError
  end.

(** What the statements about [crawl] speak of: the entries [crawl] reads,
    and the links the first loop finds in one of them. *)
Definition html_entries (dir : listing) : listing :=
  filter (λ entry, endswith entry.1 ".html" = true) dir.

Definition found_links (find_links : string → list string)
    (entry : string * option string) : gset page :=
  match entry.2 with
  | Some contents => list_to_set (find_links contents) ∖ {[entry.1]}
  | None => ∅
  end.

(** A directory of three pages and a file that is not a page and cannot
    be read; a page's contents are taken to be its links, separated by
    spaces. *)
Definition example_dir : listing :=
  [("1.html", Some "2.html 3.html 1.html far.html");
   ("notes.txt", None);
   ("2.html", Some "3.html");
   ("3.html", Some "")]%string.

(** ** [main] *)

Definition DAMPING : Qc := Q2Qc (85 # 100).
Definition SAMPLES : Z := 10000.

(** How a run of [main] ends. *)
Inductive ending : Type :=
  | Finished
  | SysExit (message : string)
  | Uncaught (e : exn)
  | UncaughtOSError.

(** [sorted(ranks)]: the keys in ascending order of [str]. *)
Definition sorted (pages : list page) : list page :=
  merge_sort String.le pages.

(** [for page in sorted(ranks): print(f"  {page}: {ranks[page]:.4f}")],
    with [format4 x] for [f"{x:.4f}"]. *)
Definition rank_lines (format4 : Qc → string) (ranks : Dict.t Qc)
  : result (list string) :=
  for_each (λ (printed : list string) p,
              let* rank := Dict.getitem ranks p in
              Ok (printed ++ [("  " +:+ p +:+ ": " +:+ format4 rank)%string]))
           (sorted (Dict.keys ranks)) [].

(** A run of [main]: the lines printed and how the run ends, or [None]
    when the iterative solver is still sweeping after [fuel] sweeps.
    [fs] gives the listing of a directory, or [None] where [os.listdir]
    fails. *)
Definition main (find_links : string → list string) (format4 : Qc → string)
    (fs : string → option listing) (argv : list string) (g : Random.rng)
    (fuel : nat) : option (list string * ending) :=
  if decide (length argv ≠ 2%nat)
  then Some ([], SysExit "Usage: python pagerank.py corpus")
  else
    match argv !! 1%nat with
    | None => Some ([], Uncaught IndexError)
    | Some directory =>
        match fs directory with
        | None => Some ([], UncaughtOSError)
        | Some dir =>
            match crawl find_links dir with
            | RaisesOSError => Some ([], UncaughtOSError)
            | Raises e => Some ([], Uncaught e)
            | Returns corpus =>
                match sample_pagerank corpus DAMPING SAMPLES g with
                | Raise e => Some ([], Uncaught e)
                | Ok ranks =>
                    let printed :=
                      ["PageRank Results from Sampling (n = 10000)"%string] in
                    match rank_lines format4 ranks with
                    | Raise e => Some (printed, Uncaught e)
                    | Ok lines =>
                        let printed := printed ++ lines in
                        match iterate_pagerank fuel corpus DAMPING with
                        | None => None
                        | Some (Raise e) => Some (printed, Uncaught e)
                        | Some (Ok ranks) =>
                            let printed :=
                              printed
                              ++ ["PageRank Results from Iteration"%string] in
                            match rank_lines format4 ranks with
                            | Raise e => Some (printed, Uncaught e)
                            | Ok lines => Some (printed ++ lines, Finished)
                            end
                        end
                    end
                end
            end
        end
    end.

(** The line [main] prints for a page: [f"  {page}: {ranks[page]:.4f}"]. *)
Definition rank_line (format4 : Qc → string) (ranks : Dict.t Qc) (p : page)
  : string :=
  ("  " +:+ p +:+ ": " +:+ format4 (rank_of ranks p))%string.

(** * Properties *)

(** ** The error monad and loops *)

(** A loop whose body never raises is a left fold. *)
Lemma for_each_pure {A S} (body : S → A → result S) (f : S → A → S) xs acc :
  (∀ s x, body s x = Ok (f s x)) →
  for_each body xs acc = Ok (foldl f acc xs).
Proof.
  intros Hb. revert acc. induction xs as [|x xs IH]; intros acc; simpl; [done|].
  rewrite Hb. simpl. apply IH.
Qed.

(** ** Dictionaries *)

Section dict_facts.
Context {V : Type}.
Implicit Types (d : Dict.t V) (k : page) (v : V).

Lemma get_cons d k k' v :
  Dict.get ((k', v) :: d) k
  = if decide (k' = k) then Some v else Dict.get d k.
Proof. done. Qed.

Lemma get_setitem_eq d k v : Dict.get (Dict.setitem d k v) k = Some v.
Proof.
  induction d as [|[k' v'] d IH]; simpl.
  - by rewrite decide_True.
  - destruct (decide (k' = k)) as [->|Hne]; simpl.
    + by rewrite decide_True.
    + by rewrite decide_False.
Qed.

Lemma get_setitem_ne d k k' v :
  k ≠ k' → Dict.get (Dict.setitem d k v) k' = Dict.get d k'.
Proof.
  intros Hne. induction d as [|[k0 v0] d IH]; simpl.
  - by rewrite decide_False.
  - destruct (decide (k0 = k)) as [->|Hne0]; simpl.
    + by rewrite !decide_False.
    + destruct (decide (k0 = k')); auto.
Qed.

Lemma get_setitem d k k' v :
  Dict.get (Dict.setitem d k v) k'
  = if decide (k = k') then Some v else Dict.get d k'.
Proof.
  destruct (decide (k = k')) as [->|Hne];
    [apply get_setitem_eq | by apply get_setitem_ne].
Qed.

Lemma keys_setitem_in d k v :
  k ∈ Dict.keys d → Dict.keys (Dict.setitem d k v) = Dict.keys d.
Proof.
  unfold Dict.keys. induction d as [|[k' v'] d IH]; simpl.
  - by intros ?%elem_of_nil.
  - intros Hin. destruct (decide (k' = k)) as [->|Hne]; simpl; [done|].
    f_equal. apply IH. apply elem_of_cons in Hin as [?|?]; [congruence|done].
Qed.

Lemma setitem_notin d k v :
  k ∉ Dict.keys d → Dict.setitem d k v = d ++ [(k, v)].
Proof.
  unfold Dict.keys. induction d as [|[k' v'] d IH]; simpl; [done|].
  intros Hin. apply not_elem_of_cons in Hin as [Hne Hin].
  rewrite decide_False by congruence. f_equal. by apply IH.
Qed.

Lemma get_is_Some d k : is_Some (Dict.get d k) ↔ k ∈ Dict.keys d.
Proof.
  unfold Dict.keys. induction d as [|[k' v'] d IH]; simpl.
  - split; [by intros [? ?]|by intros ?%elem_of_nil].
  - destruct (decide (k' = k)) as [->|Hne].
    + split; [intros _; apply elem_of_cons; auto|eauto].
    + rewrite IH, elem_of_cons. naive_solver.
Qed.

Lemma get_elem_of d k v : Dict.get d k = Some v → (k, v) ∈ d.
Proof.
  induction d as [|[k' v'] d IH]; simpl; [done|].
  destruct (decide (k' = k)) as [->|Hne].
  - intros [= ->]. apply elem_of_cons; auto.
  - intros H. apply elem_of_cons; auto.
Qed.

Lemma elem_of_get d k v : Dict.wf d → (k, v) ∈ d → Dict.get d k = Some v.
Proof.
  unfold Dict.wf, Dict.keys. induction d as [|[k' v'] d IH]; simpl.
  - by intros _ ?%elem_of_nil.
  - intros [Hnin Hnd]%NoDup_cons [Heq|Hin]%elem_of_cons.
    + injection Heq as -> ->. by rewrite decide_True.
    + destruct (decide (k' = k)) as [->|Hne]; [|by apply IH].
      exfalso. apply Hnin. apply list_elem_of_fmap. by exists (k, v).
Qed.

(** Filling an empty dictionary key by key, over distinct keys, lists the
    keys in order with their values. *)
Lemma fill_distinct_keys (f : page → V) (ks : list page) d :
  NoDup ks → (∀ k, k ∈ ks → k ∉ Dict.keys d) →
  foldl (λ pd key, Dict.setitem pd key (f key)) d ks
  = d ++ ((λ k, (k, f k)) <$> ks).
Proof.
  revert d. induction ks as [|k ks IH]; intros d Hnd Hfresh; simpl.
  - by rewrite app_nil_r.
  - apply NoDup_cons in Hnd as [Hk Hnd].
    rewrite setitem_notin by (apply Hfresh; left).
    rewrite IH; [by rewrite <-app_assoc|done|].
    intros k' Hk'. unfold Dict.keys. rewrite fmap_app. simpl.
    rewrite elem_of_app, list_elem_of_singleton.
    intros [Hin| ->]; [|done].
    by apply (Hfresh k'); [right|].
Qed.

Lemma get_tabulate (f : page → V) (ks : list page) k :
  Dict.get ((λ k, (k, f k)) <$> ks) k
  = if decide (k ∈ ks) then Some (f k) else None.
Proof.
  induction ks as [|k' ks IH]; [done|].
  rewrite fmap_cons, get_cons.
  destruct (decide (k' = k)) as [->|Hne].
  - rewrite decide_True; [done|left].
  - rewrite IH. destruct (decide (k ∈ ks)) as [Hin|Hnin].
    + rewrite decide_True; [done|by right].
    + rewrite decide_False; [done|].
      intros [?|?]%elem_of_cons; congruence.
Qed.

Lemma keys_tabulate (f : page → V) (ks : list page) :
  Dict.keys ((λ k, (k, f k)) <$> ks) = ks.
Proof.
  unfold Dict.keys. rewrite <-list_fmap_compose. apply list_fmap_id.
Qed.

Lemma values_tabulate (f : page → V) (ks : list page) :
  Dict.values ((λ k, (k, f k)) <$> ks) = f <$> ks.
Proof. unfold Dict.values. by rewrite <-list_fmap_compose. Qed.

End dict_facts.

(** ** Arithmetic on exact rationals *)

(** Closed equations between rationals, settled by evaluation. *)
Ltac Qc_compute := apply Qc_is_canon; vm_compute; reflexivity.

Section numbers.
Local Open Scope Qc_scope.

Lemma Qc_of_nat_0 : Qc_of_nat 0 = 0.
Proof. by apply Qc_is_canon. Qed.

Lemma Qc_of_nat_S n : Qc_of_nat (S n) = Qc_of_nat n + 1.
Proof.
  unfold Qc_of_nat. rewrite Nat2Z.inj_succ, <-Z.add_1_r, Z2Qc_inj_add.
  by rewrite Z2Qc_inj_1.
Qed.

Lemma Qc_of_nat_pos n : (0 < n)%nat → 0 < Qc_of_nat n.
Proof.
  intros Hn. unfold Qc_of_nat. rewrite <-Z2Qc_inj_0, <-Z2Qc_inj_lt. lia.
Qed.

Lemma Qc_of_nat_ne_0 n : n ≠ 0%nat → Qc_of_nat n ≠ 0.
Proof.
  intros Hn Heq. unfold Qc_of_nat in Heq. rewrite <-Z2Qc_inj_0 in Heq.
  apply Z2Qc_inj in Heq. lia.
Qed.

Lemma truediv_Ok x y : y ≠ 0 → truediv x y = Ok (x / y).
Proof. intros Hy. unfold truediv. by rewrite decide_False. Qed.

Lemma truediv_0 x : truediv x 0 = Raise ZeroDivisionError.
Proof. unfold truediv. by rewrite decide_True. Qed.

Lemma Qcdiv_pos x y : 0 < x → 0 < y → 0 < x / y.
Proof. intros. apply Qcmult_pos_pos; [done|by apply Qcinv_pos]. Qed.

Lemma Qcdiv_nonneg x y : 0 ≤ x → 0 < y → 0 ≤ x / y.
Proof.
  intros. apply Qcmult_nonneg_nonneg; [done|].
  by apply Qclt_le_weak, Qcinv_pos.
Qed.

Lemma Qcle_plus_nonneg_l x y : 0 ≤ y → x ≤ y + x.
Proof.
  intros Hy. rewrite <-(Qcplus_0_l x) at 1. by apply Qcplus_le_mono_r.
Qed.

Lemma Qcle_plus_nonneg_r x y : 0 ≤ y → x ≤ x + y.
Proof. rewrite (Qcplus_comm x). apply Qcle_plus_nonneg_l. Qed.

Lemma Qcle_sub_nonneg x y : y ≤ x → 0 ≤ x - y.
Proof.
  intros H. apply (Qcplus_le_mono_r _ _ y).
  replace (x - y + y) with x by ring. by rewrite Qcplus_0_l.
Qed.

Lemma Qcle_sub_le x y : 0 ≤ y → x - y ≤ x.
Proof.
  intros H. apply (Qcplus_le_mono_r _ _ y).
  replace (x - y + y) with (x + 0) by ring. by apply Qcplus_le_mono_l.
Qed.

Lemma Qc_sum_cons x xs : Qc_sum (x :: xs) = x + Qc_sum xs.
Proof. done. Qed.

Lemma Qc_sum_nonneg xs : Forall (λ x, 0 ≤ x) xs → 0 ≤ Qc_sum xs.
Proof.
  induction 1 as [|x xs Hx _ IH]; simpl; [done|].
  by apply Qcplus_nonneg_nonneg.
Qed.

End numbers.

(** ** The example graphs are dictionaries *)

Lemma single_node_wf : Dict.wf single_node.
Proof. unfold Dict.wf. simpl. repeat constructor; set_solver. Qed.

Lemma two_cycle_wf : Dict.wf two_cycle.
Proof. unfold Dict.wf. simpl. repeat constructor; set_solver. Qed.

Lemma chain_wf : Dict.wf chain.
Proof. unfold Dict.wf. simpl. repeat constructor; set_solver. Qed.

(** ** The transition model *)

Section transition_model.
Local Open Scope Qc_scope.

Lemma corpus_len_pos {V} (corpus : Dict.t V) p :
  p ∈ Dict.keys corpus → (0 < Dict.len corpus)%nat.
Proof.
  unfold Dict.keys, Dict.len. destruct corpus; simpl; [|lia].
  by intros ?%elem_of_nil.
Qed.

Lemma foldl_ext_all {A B} (f g : A → B → A) (xs : list B) a :
  (∀ a x, f a x = g a x) → foldl f a xs = foldl g a xs.
Proof.
  intros Hfg. revert a. induction xs as [|x xs IH]; intros a; simpl; [done|].
  by rewrite Hfg, IH.
Qed.

(** The distribution lists the pages in corpus order, each with the
    probability of the specification. *)
Lemma transition_model_tabulate (corpus : corpus_t) p d links :
  Dict.wf corpus → Dict.get corpus p = Some links →
  transition_model corpus p d
  = Ok ((λ q, (q, model_prob corpus d links q)) <$> Dict.keys corpus).
Proof.
  intros Hwf Hget. unfold transition_model, Dict.getitem. rewrite Hget. simpl.
  assert (Hlen : length (Dict.keys corpus) = Dict.len corpus)
    by apply length_fmap.
  assert (Hpos : (0 < Dict.len corpus)%nat).
  { apply (corpus_len_pos _ p), get_is_Some. by rewrite Hget. }
  rewrite Hlen, !truediv_Ok by (apply Qc_of_nat_ne_0; lia). simpl.
  unfold model_prob. destruct (decide (links ≠ ∅)) as [Hne|He].
  - rewrite truediv_Ok.
    2:{ apply Qc_of_nat_ne_0. rewrite size_non_empty_iff.
        by intros ?%leibniz_equiv. }
    simpl. f_equal.
    rewrite <-(app_nil_l (_ <$> _)), <-fill_distinct_keys;
      [|done|intros ? _; apply not_elem_of_nil].
    apply foldl_ext_all. intros a x. by destruct (decide (x ∉ links)).
  - f_equal.
    rewrite <-(app_nil_l (_ <$> _)), <-fill_distinct_keys;
      [done|done|intros ? _; apply not_elem_of_nil].
Qed.

Lemma model_prob_lower_bound (corpus : corpus_t) d links q :
  (0 < Dict.len corpus)%nat → 0 < d → d < 1 →
  0 < (1 - d) / Qc_of_nat (Dict.len corpus)
  ∧ (1 - d) / Qc_of_nat (Dict.len corpus) ≤ model_prob corpus d links q.
Proof.
  intros Hlen Hd0 Hd1.
  assert (HN : 0 < Qc_of_nat (Dict.len corpus)) by by apply Qc_of_nat_pos.
  assert (H1d : 0 < 1 - d).
  { apply (Qcplus_lt_mono_r _ _ d).
    replace (1 - d + d) with 1 by ring. by rewrite Qcplus_0_l. }
  split; [by apply Qcdiv_pos|].
  unfold model_prob. destruct (decide (links ≠ ∅)) as [Hne|He].
  - destruct (decide (q ∉ links)); [done|].
    apply Qcle_plus_nonneg_l, Qcdiv_nonneg; [by apply Qclt_le_weak|].
    apply Qc_of_nat_pos.
    assert (size links ≠ 0%nat); [|lia].
    rewrite size_non_empty_iff. by intros ?%leibniz_equiv.
  - unfold Qcdiv. apply Qcmult_le_mono_nonneg_r.
    + by apply Qclt_le_weak, Qcinv_pos.
    + apply (Qcplus_le_mono_r _ _ d). ring_simplify.
      apply Qcle_plus_nonneg_l. by apply Qclt_le_weak.
Qed.

End transition_model.

(** C1. For a member page [p] of a graph with [N] pages: when [p]'s out-set
    is non-empty of size [L], the transition model gives [d/L + (1-d)/N] to
    every page of the out-set and [(1-d)/N] to every other page; when the
    out-set is empty it gives [1/N] to every page.  The distribution has
    exactly the pages of the graph as keys. *)
Theorem transition_model_probabilities (corpus : corpus_t) (p : page)
    (d : Qc) (links : gset page) :
  Dict.wf corpus → Dict.get corpus p = Some links →
  ∃ dist,
    transition_model corpus p d = Ok dist
    ∧ Dict.keys dist = Dict.keys corpus
    ∧ (links ≠ ∅ → ∀ q, q ∈ Dict.keys corpus →
         (q ∈ links →
            Dict.get dist q
            = Some (d / Qc_of_nat (size links)
                    + (1 - d) / Qc_of_nat (Dict.len corpus))%Qc)
         ∧ (q ∉ links →
            Dict.get dist q
            = Some ((1 - d) / Qc_of_nat (Dict.len corpus))%Qc))
    ∧ (links = ∅ → ∀ q, q ∈ Dict.keys corpus →
         Dict.get dist q = Some (1 / Qc_of_nat (Dict.len corpus))%Qc).
Proof.
  intros Hwf Hget. eexists. split; [by apply transition_model_tabulate|].
  split; [apply keys_tabulate|]. split.
  - intros Hne q Hq. rewrite get_tabulate, decide_True by done.
    unfold model_prob. rewrite (decide_True _ _ Hne).
    split; intros Hin.
    + rewrite decide_False; [done|]. by intros Hn.
    + by rewrite decide_True.
  - intros He q Hq. rewrite get_tabulate, decide_True by done.
    unfold model_prob. rewrite decide_False; [done|]. by intros Hn.
Qed.

Lemma transition_model_probabilities_witness :
  ∃ dist,
    transition_model chain "A" (Q2Qc (85 # 100)) = Ok dist
    ∧ Dict.get dist "A" = Some (Q2Qc (3 # 40))
    ∧ Dict.get dist "B" = Some (Q2Qc (37 # 40)).
Proof.
  destruct (transition_model_probabilities chain "A" (Q2Qc (85 # 100))
              {["B"%string]}) as (dist & Hrun & _ & Hlinked & _).
  - exact chain_wf.
  - reflexivity.
  - exists dist. split; [exact Hrun|].
    assert (Hne : ({["B"%string]} : gset page) ≠ ∅) by set_solver.
    split.
    + destruct (Hlinked Hne "A"%string) as [_ H]; [set_solver|].
      rewrite H by set_solver. apply (f_equal Some). Qc_compute.
    + destruct (Hlinked Hne "B"%string) as [H _]; [set_solver|].
      rewrite H by set_solver. apply (f_equal Some). Qc_compute.
Defined.

(** C9. For a member page of a graph with [N ≥ 1] pages and a damping
    factor in (0,1), every page of the graph receives a probability, and
    every probability is at least [(1-d)/N], which is positive: any page
    can follow any page. *)
Theorem transition_model_positive (corpus : corpus_t) (p : page) (d : Qc) :
  Dict.wf corpus → p ∈ Dict.keys corpus → (0 < d)%Qc → (d < 1)%Qc →
  ∃ dist,
    transition_model corpus p d = Ok dist
    ∧ (∀ q, q ∈ Dict.keys corpus → is_Some (Dict.get dist q))
    ∧ (∀ q v, Dict.get dist q = Some v →
         (0 < (1 - d) / Qc_of_nat (Dict.len corpus))%Qc
         ∧ ((1 - d) / Qc_of_nat (Dict.len corpus) ≤ v)%Qc
         ∧ (0 < v)%Qc).
Proof.
  intros Hwf Hp Hd0 Hd1.
  destruct (proj2 (get_is_Some corpus p) Hp) as [links Hget].
  eexists. split; [by apply transition_model_tabulate|]. split.
  - intros q Hq. rewrite get_tabulate, decide_True by done. eauto.
  - intros q v. rewrite get_tabulate.
    destruct (decide (q ∈ Dict.keys corpus)); [|done]. intros [= <-].
    destruct (model_prob_lower_bound corpus d links q) as [H0 Hle];
      [by eapply corpus_len_pos|done|done|].
    split; [done|]. split; [done|]. by eapply Qclt_le_trans.
Qed.

Lemma transition_model_positive_witness :
  ∃ dist,
    transition_model chain "B" (Q2Qc (85 # 100)) = Ok dist
    ∧ (∀ q v, Dict.get dist q = Some v → (0 < v)%Qc).
Proof.
  destruct (transition_model_positive chain "B" (Q2Qc (85 # 100)))
    as (dist & Hrun & _ & Hpos).
  - exact chain_wf.
  - simpl. set_solver.
  - reflexivity.
  - reflexivity.
  - exists dist. split; [exact Hrun|]. intros q v Hq.
    by destruct (Hpos q v Hq) as (_ & _ & ?).
Defined.

(** ** The iterative solver *)

Section solver.
Local Open Scope Qc_scope.
Implicit Types (corpus : corpus_t) (pd : Dict.t Qc) (p q : page) (d : Qc).

Lemma size_pos_of_elem (X : gset page) x : x ∈ X → (0 < size X)%nat.
Proof.
  intros Hx. assert (size X ≠ 0%nat); [|lia].
  apply size_non_empty_iff. set_solver.
Qed.

Lemma rank_of_setitem pd p q v :
  rank_of (Dict.setitem pd p v) q = if decide (p = q) then v else rank_of pd q.
Proof. unfold rank_of. rewrite get_setitem. by destruct (decide (p = q)). Qed.

Lemma get_rank_of pd q : q ∈ Dict.keys pd → Dict.get pd q = Some (rank_of pd q).
Proof.
  intros [v Hv]%get_is_Some. unfold rank_of. by rewrite Hv.
Qed.

Lemma keys_relax corpus d pd p :
  p ∈ Dict.keys pd → Dict.keys (relax corpus d pd p) = Dict.keys pd.
Proof. apply keys_setitem_in. Qed.

Lemma keys_foldl_relax corpus d pd ks :
  ks ⊆ Dict.keys pd →
  Dict.keys (foldl (relax corpus d) pd ks) = Dict.keys pd.
Proof.
  revert pd. induction ks as [|k ks IH]; intros pd Hks; simpl; [done|].
  rewrite IH; [apply keys_relax|rewrite keys_relax]; set_solver.
Qed.

(** A page outside the pages swept keeps its rank. *)
Lemma rank_of_foldl_relax_notin corpus d pd ks q :
  q ∉ ks → rank_of (foldl (relax corpus d) pd ks) q = rank_of pd q.
Proof.
  revert pd. induction ks as [|k ks IH]; intros pd Hq; simpl; [done|].
  apply not_elem_of_cons in Hq as [Hne Hq].
  rewrite IH by done. unfold relax. rewrite rank_of_setitem.
  by rewrite decide_False.
Qed.

(** The inner loop adds up the shares of the linking pages. *)
Lemma rank_sum_items corpus pd p (items : list (page * gset page)) acc :
  Dict.wf corpus → items ⊆ corpus → Dict.keys corpus ⊆ Dict.keys pd →
  for_each (λ (sum : Qc) link,
              let* out := Dict.getitem corpus link in
              if decide (p ∈ out) then
                let num_links := size out in
                let* rank := Dict.getitem pd link in
                let* share := truediv rank (Qc_of_nat num_links) in
                Ok (sum + share)
              else Ok sum)
           items.*1 acc
  = Ok (acc + Qc_sum ((λ qo, rank_of pd qo.1 / Qc_of_nat (size qo.2))
                        <$> filter (λ qo, p ∈ qo.2) items)).
Proof.
  intros Hwf Hsub Hkeys. revert acc.
  induction items as [|[q out] items IH]; intros acc.
  - simpl. by rewrite Qcplus_0_r.
  - rewrite fmap_cons. cbn [for_each fst].
    assert (Hq : (q, out) ∈ corpus) by (apply Hsub; left).
    unfold Dict.getitem at 1. rewrite (elem_of_get _ _ _ Hwf Hq).
    cbn [result_bind]. rewrite filter_cons. cbn [snd].
    destruct (decide (p ∈ out)) as [Hin|Hnin].
    + unfold Dict.getitem. rewrite get_rank_of.
      2:{ apply Hkeys, list_elem_of_fmap. by exists (q, out). }
      cbn [result_bind]. rewrite truediv_Ok.
      2:{ apply Qc_of_nat_ne_0. pose proof (size_pos_of_elem _ _ Hin). lia. }
      cbn [result_bind]. rewrite IH by set_solver.
      rewrite fmap_cons, Qc_sum_cons. cbn [fst snd]. f_equal. ring.
    + apply IH. set_solver.
Qed.

Lemma rank_sum_eq corpus pd p :
  Dict.wf corpus → Dict.keys corpus ⊆ Dict.keys pd →
  rank_sum corpus pd p
  = Ok (Qc_sum ((λ qo, rank_of pd qo.1 / Qc_of_nat (size qo.2))
                  <$> linking_pages corpus p)).
Proof.
  intros Hwf Hkeys. unfold rank_sum, Dict.keys at 1.
  rewrite rank_sum_items by done. by rewrite Qcplus_0_l.
Qed.

(** The body of the sweep rewrites one rank by the recurrence and counts
    the page when the rewrite moved it by less than the threshold. *)
Lemma update_page_eq corpus d pd count p :
  Dict.wf corpus → corpus ≠ [] → Dict.keys corpus ⊆ Dict.keys pd →
  p ∈ Dict.keys pd →
  update_page corpus d (Dict.len corpus) (pd, count) p
  = Ok (relax corpus d pd p,
        if decide (within_tolerance pd (relax corpus d pd p) p)
        then S count else count).
Proof.
  intros Hwf Hne Hkeys Hp. unfold update_page.
  rewrite truediv_Ok.
  2:{ apply Qc_of_nat_ne_0. unfold Dict.len. by destruct corpus. }
  cbn [result_bind]. rewrite rank_sum_eq by done. cbn [result_bind].
  unfold Dict.getitem. rewrite (get_rank_of pd p Hp). cbn [result_bind].
  set (new_rank := (_ / _ + _ * d)%Qc).
  assert (Hnew : new_rank = recurrence corpus d pd p).
  { unfold new_rank, recurrence. ring. }
  clearbody new_rank. subst new_rank. unfold relax. do 2 f_equal.
  apply decide_ext. unfold within_tolerance.
  by rewrite rank_of_setitem, decide_True.
Qed.

Lemma filter_ext_elem_of {A} (P Q : A → Prop) `{!∀ x, Decision (P x)}
    `{!∀ x, Decision (Q x)} (xs : list A) :
  (∀ x, x ∈ xs → P x ↔ Q x) → filter P xs = filter Q xs.
Proof.
  induction xs as [|x xs IH]; intros Hext; [done|].
  rewrite !filter_cons, IH by (intros; apply Hext; by right).
  apply decide_ext, Hext. left.
Qed.

(** The number of pages a sweep counts as converged. *)
Lemma sweep_from corpus d pd ks count :
  Dict.wf corpus → corpus ≠ [] → Dict.keys corpus ⊆ Dict.keys pd →
  NoDup ks → ks ⊆ Dict.keys pd →
  for_each (update_page corpus d (Dict.len corpus)) ks (pd, count)
  = Ok (foldl (relax corpus d) pd ks,
        (count + length (filter (within_tolerance pd
                                   (foldl (relax corpus d) pd ks)) ks))%nat).
Proof.
  intros Hwf Hne. revert pd count.
  induction ks as [|k ks IH]; intros pd count Hkeys Hnd Hks.
  - simpl. do 2 f_equal. lia.
  - apply NoDup_cons in Hnd as [Hk Hnd].
    cbn [for_each foldl]. rewrite update_page_eq by set_solver.
    cbn [result_bind].
    assert (Hkr : Dict.keys (relax corpus d pd k) = Dict.keys pd)
      by (apply keys_relax; set_solver).
    rewrite IH by (rewrite ?Hkr; set_solver).
    do 2 f_equal. rewrite filter_cons.
    set (pd1 := relax corpus d pd k).
    set (pd' := foldl (relax corpus d) pd1 ks).
    assert (Hhere : within_tolerance pd pd' k ↔ within_tolerance pd pd1 k).
    { unfold within_tolerance, pd'.
      by rewrite rank_of_foldl_relax_notin. }
    assert (Hrest : filter (within_tolerance pd1 pd') ks
                    = filter (within_tolerance pd pd') ks).
    { apply filter_ext_elem_of. intros q Hq.
      unfold within_tolerance, pd1, relax.
      rewrite rank_of_setitem, decide_False; [done|]. intros ->. done. }
    rewrite Hrest.
    destruct (decide (within_tolerance pd pd1 k)) as [H1|H1];
      destruct (decide (within_tolerance pd pd' k)) as [H2|H2];
      simpl; try lia; tauto.
Qed.

Lemma sweep_eq corpus d pd :
  Dict.wf corpus → corpus ≠ [] → Dict.keys corpus ⊆ Dict.keys pd →
  sweep corpus d (Dict.len corpus) pd
  = Ok (inplace_sweep corpus d pd,
        length (filter (within_tolerance pd (inplace_sweep corpus d pd))
                       (Dict.keys corpus))).
Proof.
  intros Hwf Hne Hkeys. unfold sweep. by rewrite sweep_from.
Qed.

(** A sweep that counts every page left every page within tolerance. *)
Lemma filter_all_length {A} (P : A → Prop) `{!∀ x, Decision (P x)}
    (xs : list A) :
  length (filter P xs) = length xs → Forall P xs.
Proof.
  induction xs as [|x xs IH]; [constructor|].
  rewrite filter_cons. destruct (decide (P x)) as [HP|HP]; simpl.
  - intros [= Hlen]. constructor; auto.
  - intros Hlen. pose proof (length_filter P xs). lia.
Qed.

Lemma initial_ranks_eq corpus :
  Dict.wf corpus → corpus ≠ [] →
  initial_ranks corpus (Dict.len corpus)
  = Ok ((λ k, (k, 1 / Qc_of_nat (Dict.len corpus))) <$> Dict.keys corpus).
Proof.
  intros Hwf Hne. unfold initial_ranks.
  rewrite (for_each_pure _
    (λ pd k, Dict.setitem pd k (1 / Qc_of_nat (Dict.len corpus)))).
  - by rewrite (fill_distinct_keys (λ _, 1 / Qc_of_nat (Dict.len corpus)))
      by (done || intros ? _; apply not_elem_of_nil).
  - intros pd k. rewrite truediv_Ok; [done|].
    apply Qc_of_nat_ne_0. unfold Dict.len. by destruct corpus.
Qed.

(** The loop stops on the first sweep that counts every page, and what it
    returns is the outcome of that sweep; an invariant of the sweeps holds
    of the ranks that sweep started from. *)
Lemma iterate_loop_last corpus d (I : Dict.t Qc → Prop) fuel pd r :
  Dict.wf corpus → corpus ≠ [] →
  (∀ pd, I pd → Dict.keys pd = Dict.keys corpus) →
  (∀ pd, I pd → I (inplace_sweep corpus d pd)) →
  I pd →
  iterate_loop fuel corpus d (Dict.len corpus) pd = Some (Ok r) →
  ∃ prev, I prev
    ∧ sweep corpus d (Dict.len corpus) prev = Ok (r, Dict.len corpus)
    ∧ r = inplace_sweep corpus d prev
    ∧ Forall (within_tolerance prev r) (Dict.keys corpus).
Proof.
  intros Hwf Hne Hkeys Hstep. revert pd.
  induction fuel as [|fuel IH]; intros pd HI; simpl; [done|].
  rewrite sweep_eq by (done || by rewrite (Hkeys pd HI)).
  destruct (decide (_ = Dict.len corpus)) as [Hall|Hnot].
  - intros [= <-]. exists pd. split; [done|].
    rewrite sweep_eq by (done || by rewrite (Hkeys pd HI)).
    split; [by rewrite Hall|]. split; [done|].
    apply (filter_all_length (within_tolerance pd _)). rewrite Hall.
    unfold Dict.len, Dict.keys. by rewrite length_fmap.
  - apply IH. by apply Hstep.
Qed.

Lemma keys_inplace_sweep corpus d pd :
  Dict.keys pd = Dict.keys corpus →
  Dict.keys (inplace_sweep corpus d pd) = Dict.keys corpus.
Proof.
  intros Hk. unfold inplace_sweep.
  rewrite keys_foldl_relax; [done|by rewrite Hk].
Qed.

(** *** Bounds on the recurrence *)

Lemma linking_pages_elem_of corpus p q out :
  (q, out) ∈ linking_pages corpus p ↔ (q, out) ∈ corpus ∧ p ∈ out.
Proof. unfold linking_pages. rewrite list_elem_of_filter. simpl. tauto. Qed.

Lemma shares_nonneg corpus pd p :
  nonneg_ranks pd →
  0 ≤ Qc_sum ((λ qo, rank_of pd qo.1 / Qc_of_nat (size qo.2))
                <$> linking_pages corpus p).
Proof.
  intros Hpd. apply Qc_sum_nonneg, Forall_fmap, Forall_forall.
  intros [q out] [_ Hin]%linking_pages_elem_of. simpl.
  apply Qcdiv_nonneg; [apply Hpd|].
  by eapply Qc_of_nat_pos, size_pos_of_elem.
Qed.

Lemma recurrence_lower_bound corpus d pd p :
  nonneg_ranks pd → 0 ≤ d →
  (1 - d) / Qc_of_nat (Dict.len corpus) ≤ recurrence corpus d pd p.
Proof.
  intros Hpd Hd. unfold recurrence. apply Qcle_plus_nonneg_r.
  apply Qcmult_nonneg_nonneg; [done|by apply shares_nonneg].
Qed.

Lemma floor_nonneg corpus d :
  corpus ≠ [] → d ≤ 1 → 0 ≤ (1 - d) / Qc_of_nat (Dict.len corpus).
Proof.
  intros Hne Hd. apply Qcdiv_nonneg.
  - apply (Qcplus_le_mono_r _ _ d). by ring_simplify.
  - apply Qc_of_nat_pos. unfold Dict.len. destruct corpus; simpl; [done|lia].
Qed.

Lemma nonneg_relax corpus d pd p :
  corpus ≠ [] → 0 ≤ d → d ≤ 1 →
  nonneg_ranks pd → nonneg_ranks (relax corpus d pd p).
Proof.
  intros Hne Hd0 Hd1 Hpd q. unfold relax. rewrite rank_of_setitem.
  destruct (decide (p = q)); [|apply Hpd].
  etrans; [by apply floor_nonneg|by apply recurrence_lower_bound].
Qed.

(** After the pages [ks] were rewritten in turn, each of them sits at or
    above [(1-d)/N], and no rank is negative. *)
Lemma foldl_relax_lower_bound corpus d pd ks :
  corpus ≠ [] → 0 ≤ d → d ≤ 1 → nonneg_ranks pd →
  nonneg_ranks (foldl (relax corpus d) pd ks)
  ∧ ∀ k, k ∈ ks →
      (1 - d) / Qc_of_nat (Dict.len corpus)
      ≤ rank_of (foldl (relax corpus d) pd ks) k.
Proof.
  intros Hne Hd0 Hd1 Hpd.
  induction ks as [|k ks [IHnn IHlb]] using rev_ind.
  - split; [done|]. by intros k ?%elem_of_nil.
  - rewrite foldl_snoc. split; [by apply nonneg_relax|].
    intros k' Hk'. unfold relax. rewrite rank_of_setitem.
    destruct (decide (k = k')) as [->|Hne'].
    + by apply recurrence_lower_bound.
    + apply IHlb. set_solver.
Qed.

Lemma nonneg_initial corpus :
  corpus ≠ [] →
  nonneg_ranks
    ((λ k, (k, 1 / Qc_of_nat (Dict.len corpus))) <$> Dict.keys corpus).
Proof.
  intros Hne q. unfold rank_of. rewrite get_tabulate.
  destruct (decide (q ∈ Dict.keys corpus)); simpl; [|done].
  apply Qcdiv_nonneg; [done|].
  apply Qc_of_nat_pos. unfold Dict.len. destruct corpus; simpl; [done|lia].
Qed.

Lemma NoDup_app_cons_inv {A} (xs ys : list A) x :
  NoDup (xs ++ x :: ys) → NoDup xs ∧ x ∉ xs ∧ x ∉ ys.
Proof.
  rewrite NoDup_app, NoDup_cons. intros (Hxs & Hdis & Hx & _).
  split; [done|]. split; [|done]. intros Hin. apply (Hdis x Hin). left.
Qed.

End solver.

(** C2. Every per-node update of the iterative solver rewrites the rank of
    the node [p] to [(1-d)/N + d * Σ_{q : p ∈ out(q)} rank(q)/|out(q)|]:
    the sum ranges over the pages whose out-set contains [p], so no page of
    the sum is a dead end, and the rank a dead end holds has no effect on
    the update of any page. *)
Theorem update_page_recurrence (corpus : corpus_t) (d : Qc)
    (ranks : Dict.t Qc) (count : nat) (p : page) :
  Dict.wf corpus → Dict.keys ranks = Dict.keys corpus →
  p ∈ Dict.keys corpus →
  (∃ count',
     update_page corpus d (Dict.len corpus) (ranks, count) p
     = Ok (Dict.setitem ranks p (recurrence corpus d ranks p), count'))
  ∧ Forall (λ qo, qo.2 ≠ ∅) (linking_pages corpus p)
  ∧ (∀ q v, Dict.get corpus q = Some ∅ →
       recurrence corpus d (Dict.setitem ranks q v) p
       = recurrence corpus d ranks p).
Proof.
  intros Hwf Hkeys Hp.
  assert (Hne : corpus ≠ []) by (intros ->; by apply elem_of_nil in Hp).
  split; [|split].
  - eexists. rewrite update_page_eq; [done|done|done|by rewrite Hkeys..].
  - apply Forall_forall. intros [q out] [_ Hin]%linking_pages_elem_of.
    simpl. set_solver.
  - intros q v Hq. unfold recurrence. do 3 f_equal.
    apply Forall_fmap_ext_1, Forall_forall.
    intros [q' out] [Hin Hp']%linking_pages_elem_of.
    simpl. f_equal. rewrite rank_of_setitem.
    destruct (decide (q = q')) as [<-|]; [|done].
    rewrite (elem_of_get _ _ _ Hwf Hin) in Hq. injection Hq as ->. set_solver.
Qed.

Lemma update_page_recurrence_witness :
  Dict.wf chain
  ∧ "B"%string ∈ Dict.keys chain
  ∧ ∃ count',
      update_page chain (Q2Qc (1 # 2)) 2
        ([("A"%string, Q2Qc (1 # 2)); ("B"%string, Q2Qc (1 # 2))], 0%nat) "B"
      = Ok ([("A"%string, Q2Qc (1 # 2)); ("B"%string, Q2Qc (1 # 2))],
            count').
Proof.
  pose proof chain_wf as Hwf.
  assert (HB : "B"%string ∈ Dict.keys chain) by (simpl; set_solver).
  split; [exact Hwf|]. split; [exact HB|].
  destruct (update_page_recurrence chain (Q2Qc (1 # 2))
              [("A"%string, Q2Qc (1 # 2)); ("B"%string, Q2Qc (1 # 2))]
              0%nat "B" Hwf eq_refl HB) as [[count' Hrun] _].
  exists count'. etrans; [exact Hrun|]. do 2 f_equal.
  simpl. do 3 f_equal. Qc_compute.
Defined.

(** C3, as the code has it: within a sweep the ranks are rewritten in place,
    in corpus order.  The update of a page reads the mapping as the sweep
    has left it so far: the ranks already rewritten in this sweep for the
    pages before it, and the ranks of the previous sweep for itself and the
    pages after it.  One sweep of the code is one sweep of the in-place
    (Gauss-Seidel) recurrence. *)
Theorem sweep_in_place (corpus : corpus_t) (d : Qc) (prev : Dict.t Qc) :
  Dict.wf corpus → corpus ≠ [] → Dict.keys prev = Dict.keys corpus →
  ∃ new count,
    sweep corpus d (Dict.len corpus) prev = Ok (new, count)
    ∧ new = inplace_sweep corpus d prev
    ∧ ∀ before p after, Dict.keys corpus = before ++ p :: after →
        ∃ seen c,
          for_each (update_page corpus d (Dict.len corpus)) before
                   (prev, 0%nat) = Ok (seen, c)
          ∧ rank_of new p = recurrence corpus d seen p
          ∧ (∀ q, q ∈ before → rank_of seen q = rank_of new q)
          ∧ (∀ q, q ∉ before → rank_of seen q = rank_of prev q).
Proof.
  intros Hwf Hne Hkeys. eexists _, _.
  split; [apply sweep_eq; [done|done|by rewrite Hkeys]|]. split; [done|].
  intros before p after Hsplit.
  assert (Hnd : NoDup (before ++ p :: after)) by by rewrite <-Hsplit.
  destruct (NoDup_app_cons_inv _ _ _ Hnd) as (Hb & Hpb & Hpa).
  apply NoDup_app in Hnd as (_ & Hdis & [_ Ha]%NoDup_cons).
  eexists _, _. split.
  { apply sweep_from; [done|done|by rewrite Hkeys|done|].
    rewrite Hkeys, Hsplit. set_solver. }
  unfold inplace_sweep. rewrite Hsplit, foldl_app. cbn [foldl].
  set (seen := foldl (relax corpus d) prev before).
  split; [|split].
  - rewrite rank_of_foldl_relax_notin by done.
    unfold relax. rewrite rank_of_setitem. by rewrite decide_True.
  - intros q Hq. rewrite rank_of_foldl_relax_notin.
    + unfold relax. rewrite rank_of_setitem, decide_False; [done|].
      intros <-. done.
    + intros Hqa. apply (Hdis q Hq). by right.
  - intros q Hq. by apply rank_of_foldl_relax_notin.
Qed.

Lemma sweep_in_place_witness :
  Dict.wf chain
  ∧ ∃ new count,
      sweep chain (Q2Qc (1 # 2)) 2
        [("A"%string, Q2Qc (1 # 2)); ("B"%string, Q2Qc (1 # 2))]
      = Ok (new, count)
      ∧ rank_of new "B" = Q2Qc (3 # 8).
Proof.
  pose proof chain_wf as Hwf.
  split; [exact Hwf|].
  destruct (sweep_in_place chain (Q2Qc (1 # 2))
              [("A"%string, Q2Qc (1 # 2)); ("B"%string, Q2Qc (1 # 2))]
              Hwf ltac:(done) eq_refl) as (new & count & Hrun & -> & _).
  eexists _, count. split; [exact Hrun|]. Qc_compute.
Defined.

(** C3, as stated, fails: on the chain A → B with ranks 1/2 and 1/2 and
    damping 1/2, the sweep of the code rewrites A to 1/4 and then computes
    B from that rewritten value, giving 3/8, while the synchronous
    recurrence computes B from the previous 1/2 and gives 1/2. *)
Lemma sweep_not_synchronous :
  ∃ new count,
    sweep chain (Q2Qc (1 # 2)) 2
      [("A"%string, Q2Qc (1 # 2)); ("B"%string, Q2Qc (1 # 2))]
    = Ok (new, count)
    ∧ rank_of new "A" = Q2Qc (1 # 4)
    ∧ rank_of new "B" = Q2Qc (3 # 8)
    ∧ rank_of (jacobi_sweep chain (Q2Qc (1 # 2))
                 [("A"%string, Q2Qc (1 # 2)); ("B"%string, Q2Qc (1 # 2))])
              "B" = Q2Qc (1 # 2)
    ∧ new ≠ jacobi_sweep chain (Q2Qc (1 # 2))
              [("A"%string, Q2Qc (1 # 2)); ("B"%string, Q2Qc (1 # 2))].
Proof.
  eexists _, _. split; [apply sweep_eq; [apply chain_wf|done|done]|].
  assert (HB : rank_of (inplace_sweep chain (Q2Qc (1 # 2))
              [("A"%string, Q2Qc (1 # 2)); ("B"%string, Q2Qc (1 # 2))]) "B"
               = Q2Qc (3 # 8)) by Qc_compute.
  assert (HJ : rank_of (jacobi_sweep chain (Q2Qc (1 # 2))
              [("A"%string, Q2Qc (1 # 2)); ("B"%string, Q2Qc (1 # 2))]) "B"
               = Q2Qc (1 # 2)) by Qc_compute.
  split; [Qc_compute|]. split; [exact HB|]. split; [exact HJ|].
  intros Heq. rewrite Heq, HJ in HB. discriminate HB.
Qed.

(** C7. When the iterative solver returns, the ranks it returns are those
    a last sweep left, that sweep counted every page as converged, and for
    every page the rank the sweep wrote differs by less than 0.001 from the
    rank the page held when its update ran. *)
Theorem solver_stops_within_tolerance (fuel : nat) (corpus : corpus_t)
    (d : Qc) (ranks : Dict.t Qc) :
  Dict.wf corpus →
  iterate_pagerank fuel corpus d = Some (Ok ranks) →
  ∃ prev,
    sweep corpus d (Dict.len corpus) prev = Ok (ranks, Dict.len corpus)
    ∧ ∀ before p after, Dict.keys corpus = before ++ p :: after →
        ∃ seen c old new,
          for_each (update_page corpus d (Dict.len corpus)) before
                   (prev, 0%nat) = Ok (seen, c)
          ∧ Dict.get seen p = Some old
          ∧ Dict.get ranks p = Some new
          ∧ (Qcabs (new - old) < Q2Qc (1 # 1000))%Qc.
Proof.
  intros Hwf. destruct (decide (corpus = [])) as [->|Hne].
  { destruct fuel; [done|]. intros [= <-]. exists []. split; [done|].
    intros before p after Hsplit. by destruct before. }
  unfold iterate_pagerank. rewrite initial_ranks_eq by done.
  intros Hrun.
  apply (iterate_loop_last corpus d
           (λ pd, Dict.keys pd = Dict.keys corpus)) in Hrun
    as (prev & Hkeys & Hsweep & -> & Hall); [|done|done|done| |].
  2:{ intros pd. apply keys_inplace_sweep. }
  2:{ apply keys_tabulate. }
  exists prev. split; [done|]. intros before p after Hsplit.
  assert (Hnd : NoDup (before ++ p :: after)) by by rewrite <-Hsplit.
  destruct (NoDup_app_cons_inv _ _ _ Hnd) as (Hb & Hpb & Hpa).
  assert (Hp : p ∈ Dict.keys corpus) by (rewrite Hsplit; set_solver).
  eexists _, _, (rank_of prev p), (rank_of (inplace_sweep corpus d prev) p).
  split; [|split; [|split]].
  - apply sweep_from; [done|done|by rewrite Hkeys|done|].
    rewrite Hkeys, Hsplit. set_solver.
  - rewrite get_rank_of.
    + by rewrite rank_of_foldl_relax_notin.
    + rewrite keys_foldl_relax; rewrite Hkeys; [done|]. rewrite Hsplit.
      set_solver.
  - apply get_rank_of. by rewrite keys_inplace_sweep.
  - rewrite Forall_forall in Hall. apply (Hall p Hp).
Qed.

Lemma solver_stops_within_tolerance_witness :
  Dict.wf chain
  ∧ ∃ ranks prev,
      iterate_pagerank 2 chain (Q2Qc (85 # 100)) = Some (Ok ranks)
      ∧ sweep chain (Q2Qc (85 # 100)) 2 prev = Ok (ranks, 2%nat).
Proof.
  pose proof chain_wf as Hwf.
  split; [exact Hwf|].
  assert (Hrun : ∃ ranks,
             iterate_pagerank 2 chain (Q2Qc (85 # 100)) = Some (Ok ranks)).
  { vm_compute. eexists. reflexivity. }
  destruct Hrun as [ranks Hrun].
  destruct (solver_stops_within_tolerance 2 chain (Q2Qc (85 # 100)) ranks
              Hwf Hrun) as (prev & Hsweep & _).
  exists ranks, prev. split; [exact Hrun|exact Hsweep].
Defined.

(** C10. On a non-empty graph with [N] pages and a damping factor in (0,1),
    what the iterative solver returns is the outcome of a full sweep, it
    ranks exactly the pages of the graph, and every rank in it is at least
    [(1-d)/N]. *)
Theorem solver_rank_lower_bound (fuel : nat) (corpus : corpus_t) (d : Qc)
    (ranks : Dict.t Qc) :
  Dict.wf corpus → corpus ≠ [] → (0 < d)%Qc → (d < 1)%Qc →
  iterate_pagerank fuel corpus d = Some (Ok ranks) →
  (∃ prev,
     sweep corpus d (Dict.len corpus) prev = Ok (ranks, Dict.len corpus))
  ∧ Dict.keys ranks = Dict.keys corpus
  ∧ ∀ p v, Dict.get ranks p = Some v →
      ((1 - d) / Qc_of_nat (Dict.len corpus) ≤ v)%Qc.
Proof.
  intros Hwf Hne Hd0 Hd1. unfold iterate_pagerank.
  rewrite initial_ranks_eq by done. intros Hrun.
  apply (iterate_loop_last corpus d
           (λ pd, Dict.keys pd = Dict.keys corpus ∧ nonneg_ranks pd)) in Hrun
    as (prev & [Hkeys Hnn] & Hsweep & -> & _); [|done|done|by intros ? []| |].
  2:{ intros pd [Hk Hn]. split; [by apply keys_inplace_sweep|].
      apply foldl_relax_lower_bound; auto using Qclt_le_weak. }
  2:{ split; [apply keys_tabulate|by apply nonneg_initial]. }
  split; [by exists prev|]. split; [by apply keys_inplace_sweep|].
  intros p v Hget.
  assert (Hp : p ∈ Dict.keys corpus).
  { rewrite <-(keys_inplace_sweep corpus d prev Hkeys).
    apply get_is_Some. by rewrite Hget. }
  assert (Hv : v = rank_of (inplace_sweep corpus d prev) p).
  { unfold rank_of. by rewrite Hget. }
  rewrite Hv.
  by apply foldl_relax_lower_bound; auto using Qclt_le_weak.
Qed.

Lemma solver_rank_lower_bound_witness :
  Dict.wf chain
  ∧ ∃ ranks,
      iterate_pagerank 2 chain (Q2Qc (85 # 100)) = Some (Ok ranks)
      ∧ ∀ p v, Dict.get ranks p = Some v → (Q2Qc (3 # 40) ≤ v)%Qc.
Proof.
  pose proof chain_wf as Hwf.
  split; [exact Hwf|].
  assert (Hrun : ∃ ranks,
             iterate_pagerank 2 chain (Q2Qc (85 # 100)) = Some (Ok ranks)).
  { vm_compute. eexists. reflexivity. }
  destruct Hrun as [ranks Hrun]. exists ranks. split; [exact Hrun|].
  destruct (solver_rank_lower_bound 2 chain (Q2Qc (85 # 100)) ranks
              Hwf ltac:(done) eq_refl eq_refl Hrun) as (_ & _ & Hlb).
  intros p v Hget. specialize (Hlb p v Hget).
  replace (Q2Qc (3 # 40)) with
    ((1 - Q2Qc (85 # 100)) / Qc_of_nat (Dict.len chain))%Qc; [done|].
  Qc_compute.
Defined.

(** ** The random source *)

Section random.
Local Open Scope Qc_scope.

Lemma choice_elem_of {A} (seq : list A) g :
  seq ≠ [] → ∃ x g', Random.choice seq g = Ok (x, g') ∧ x ∈ seq.
Proof.
  intros Hne. unfold Random.choice.
  assert (Hlen : length seq ≠ 0%nat) by by destruct seq.
  rewrite decide_False by done.
  destruct (Random.randbelow (length seq) g) as [i g'] eqn:Hi.
  assert (Hlt : (i < length seq)%nat).
  { unfold Random.randbelow in Hi. simpl in Hi. injection Hi as <- _.
    apply Nat.mod_upper_bound. done. }
  destruct (lookup_lt_is_Some_2 _ _ Hlt) as [x Hx]. rewrite Hx.
  exists x, g'. split; [done|]. by eapply list_elem_of_lookup_2.
Qed.

Lemma length_accumulate_from total ws :
  length (Random.accumulate_from total ws) = length ws.
Proof.
  revert total. induction ws as [|w ws IH]; intros total; simpl; [done|].
  by rewrite IH.
Qed.

Lemma last_accumulate_from total w ws :
  last (Random.accumulate_from total (w :: ws))
  = Some (total + Qc_sum (w :: ws)).
Proof.
  revert total w. induction ws as [|w' ws IH]; intros total w.
  - simpl. by rewrite Qcplus_0_r.
  - change (Random.accumulate_from total (w :: w' :: ws))
      with ((total + w) :: Random.accumulate_from (total + w) (w' :: ws)).
    rewrite last_cons, IH. simpl. f_equal. ring.
Qed.

Lemma length_accumulate ws : length (Random.accumulate ws) = length ws.
Proof. destruct ws; simpl; [done|]. by rewrite length_accumulate_from. Qed.

Lemma last_accumulate w ws :
  last (Random.accumulate (w :: ws)) = Some (Qc_sum (w :: ws)).
Proof.
  destruct ws as [|w' ws].
  - simpl. by rewrite Qcplus_0_r.
  - change (Random.accumulate (w :: w' :: ws))
      with (w :: Random.accumulate_from w (w' :: ws)).
    change (Random.accumulate_from w (w' :: ws))
      with ((w + w') :: Random.accumulate_from (w + w') ws).
    rewrite last_cons_cons.
    change ((w + w') :: Random.accumulate_from (w + w') ws)
      with (Random.accumulate_from w (w' :: ws)).
    by rewrite last_accumulate_from.
Qed.

(** The binary search ends on an index between its bounds. *)
Lemma bisect_loop_range fuel a x lo hi :
  (lo ≤ hi)%nat → (hi ≤ length a)%nat →
  ∃ i, Random.bisect_loop fuel a x lo hi = Ok i ∧ (lo ≤ i ≤ hi)%nat.
Proof.
  revert lo hi. induction fuel as [|fuel IH]; intros lo hi Hle Hhi;
    cbn [Random.bisect_loop].
  - exists lo. split; [done|lia].
  - destruct (decide (lo < hi)%nat) as [Hlt|Hge]; [|exists lo; split; [done|lia]].
    assert (Hmid : (lo ≤ (lo + hi) `div` 2 < hi)%nat).
    { split; [apply Nat.div_le_lower_bound|apply Nat.Div0.div_lt_upper_bound];
        lia. }
    destruct (lookup_lt_is_Some_2 a ((lo + hi) `div` 2)) as [a_mid Hmid'];
      [lia|].
    rewrite Hmid'. destruct (decide (x < a_mid)).
    + destruct (IH lo ((lo + hi) `div` 2)) as (i & Hi & ?); [lia..|].
      exists i. split; [done|lia].
    + destruct (IH ((lo + hi) `div` 2 + 1)%nat hi) as (i & Hi & ?); [lia..|].
      exists i. split; [done|lia].
Qed.

(** The rounds [bisect] grants the loop are enough: the loop leaves by its
    own test, and more rounds change nothing. *)
Lemma bisect_loop_fuel fuel fuel' a x lo hi :
  (hi - lo ≤ fuel)%nat → (hi - lo ≤ fuel')%nat →
  Random.bisect_loop fuel a x lo hi = Random.bisect_loop fuel' a x lo hi.
Proof.
  revert fuel' lo hi.
  induction fuel as [|fuel IH]; intros [|fuel'] lo hi H1 H2;
    cbn [Random.bisect_loop]; try done.
  - by rewrite decide_False by lia.
  - by rewrite decide_False by lia.
  - destruct (decide (lo < hi)%nat) as [Hlt|]; [|done].
    assert (Hmid : (lo ≤ (lo + hi) `div` 2 < hi)%nat).
    { split; [apply Nat.div_le_lower_bound|apply Nat.Div0.div_lt_upper_bound];
        lia. }
    destruct (a !! _) as [a_mid|]; [|done].
    destruct (decide (x < a_mid)); apply IH; lia.
Qed.

(** A weighted draw over as many weights as candidates, of positive total,
    returns one of the candidates. *)
Lemma choices_elem_of {A} (population : list A) (weights : list Qc) g :
  length weights = length population → population ≠ [] →
  0 < Qc_sum weights →
  ∃ x g', Random.choices population weights g = Ok (x, g')
          ∧ x ∈ population.
Proof.
  intros Hlen Hne Hpos. unfold Random.choices.
  rewrite length_accumulate, decide_False by (intros ?; congruence).
  destruct weights as [|w ws]; [by destruct population|].
  rewrite last_accumulate.
  rewrite decide_False by by apply Qclt_not_le.
  cbn [Random.random]. unfold Random.bisect.
  destruct (bisect_loop_range (length population - 1 - 0)
              (Random.accumulate (w :: ws))
              (g 0%nat * Qc_sum (w :: ws)) 0 (length population - 1))
    as (i & Hi & Hrange); [lia|rewrite length_accumulate; lia|].
  rewrite Hi. cbn [result_bind].
  destruct (lookup_lt_is_Some_2 population i) as [x Hx].
  { destruct population; [done|]. simpl in *. lia. }
  rewrite Hx. exists x, (λ i, g (S i)). split; [done|].
  by eapply list_elem_of_lookup_2.
Qed.

End random.

(** ** The weights of a step *)

Section weights.
Local Open Scope Qc_scope.

Lemma Qc_sum_const (c : Qc) {A} (xs : list A) :
  Qc_sum ((λ _, c) <$> xs) = Qc_of_nat (length xs) * c.
Proof.
  induction xs as [|x xs IH].
  - simpl. rewrite Qc_of_nat_0. ring.
  - rewrite fmap_cons, Qc_sum_cons, IH. cbn [length].
    rewrite Qc_of_nat_S. ring.
Qed.

Lemma Qc_sum_pos xs : xs ≠ [] → Forall (λ x, 0 < x) xs → 0 < Qc_sum xs.
Proof.
  intros Hne Hall. destruct Hall as [|x xs Hx Hxs]; [done|].
  rewrite Qc_sum_cons. apply Qcplus_pos_nonneg; [done|].
  apply Qc_sum_nonneg. eapply Forall_impl; [done|].
  intros ??. by apply Qclt_le_weak.
Qed.

(** Splitting a sum over the pages by membership in the out-set. *)
Lemma Qc_sum_by_membership (links : gset page) (a b : Qc) (ks : list page) :
  Qc_sum ((λ k, if decide (k ∉ links) then a else b + a) <$> ks)
  = Qc_of_nat (length ks) * a
    + Qc_of_nat (length (filter (λ k, k ∈ links) ks)) * b.
Proof.
  induction ks as [|k ks IH].
  - simpl. rewrite Qc_of_nat_0. ring.
  - rewrite fmap_cons, Qc_sum_cons, IH, filter_cons. cbn [length].
    rewrite Qc_of_nat_S.
    destruct (decide (k ∉ links)) as [Hn|Hy].
    + rewrite decide_False by done. ring.
    + rewrite decide_True by (by apply dec_stable). cbn [length].
      rewrite Qc_of_nat_S. ring.
Qed.

(** In a closed graph the pages of an out-set are counted once each. *)
Lemma count_links (links : gset page) (ks : list page) :
  NoDup ks → (∀ q, q ∈ links → q ∈ ks) →
  length (filter (λ k, k ∈ links) ks) = size links.
Proof.
  intros Hnd Hsub.
  rewrite <-(size_list_to_set (C:=gset page)) by by apply NoDup_filter.
  f_equal. apply set_eq. intros q.
  rewrite elem_of_list_to_set, list_elem_of_filter. naive_solver.
Qed.

Lemma step_weights_closed corpus d p links :
  Dict.wf corpus → links_closed corpus → Dict.get corpus p = Some links →
  Qc_sum (step_weights corpus d links) = 1.
Proof.
  intros Hwf Hclosed Hget. unfold step_weights, model_prob.
  assert (HN : Qc_of_nat (Dict.len corpus) ≠ 0).
  { apply Qc_of_nat_ne_0.
    assert (0 < Dict.len corpus)%nat; [|lia].
    apply (corpus_len_pos _ p), get_is_Some. by rewrite Hget. }
  assert (Hlen : length (Dict.keys corpus) = Dict.len corpus)
    by apply length_fmap.
  destruct (decide (links ≠ ∅)) as [Hne|He].
  - rewrite Qc_sum_by_membership, count_links, Hlen; [|done|].
    + assert (HL : Qc_of_nat (size links) ≠ 0).
      { apply Qc_of_nat_ne_0, size_non_empty_iff.
        by intros ?%leibniz_equiv. }
      by field.
    + intros q Hq. eapply Hclosed; [|done]. by apply get_elem_of.
  - rewrite Qc_sum_const, Hlen. by field.
Qed.

Lemma step_weights_damped corpus d links :
  corpus ≠ [] → 0 < d → d < 1 →
  0 < Qc_sum (step_weights corpus d links).
Proof.
  intros Hne Hd0 Hd1. unfold step_weights. apply Qc_sum_pos.
  - unfold Dict.keys. by destruct corpus.
  - apply Forall_fmap, Forall_forall. intros q _. simpl.
    destruct (model_prob_lower_bound corpus d links q) as [H0 Hle];
      [unfold Dict.len; destruct corpus; simpl; [done|lia]|done|done|].
    by eapply Qclt_le_trans.
Qed.

(** Either way of making the totals positive lets every draw succeed. *)
Lemma next_sample_elem_of corpus d sample g :
  Dict.wf corpus → links_closed corpus ∨ (0 < d ∧ d < 1) →
  sample ∈ Dict.keys corpus →
  ∃ sample' g', next_sample corpus d sample g = Ok (sample', g')
                ∧ sample' ∈ Dict.keys corpus.
Proof.
  intros Hwf Hpos Hin.
  destruct (proj2 (get_is_Some corpus sample) Hin) as [links Hget].
  unfold next_sample. rewrite (transition_model_tabulate _ _ _ links) by done.
  cbn [result_bind]. rewrite keys_tabulate, values_tabulate.
  apply choices_elem_of.
  - by rewrite length_fmap.
  - intros Hnil. rewrite Hnil in Hin. by apply elem_of_nil in Hin.
  - destruct Hpos as [Hclosed|[Hd0 Hd1]].
    + fold (step_weights corpus d links).
      by rewrite (step_weights_closed _ _ sample).
    + apply step_weights_damped; [|done|done].
      intros ->. by apply elem_of_nil in Hin.
Qed.

End weights.

(** ** The sampling estimator *)

Section sampler.
Implicit Types (corpus : corpus_t) (counts : Dict.t Z) (p q : page) (d : Qc).

Lemma tally_setitem counts p q v :
  tally (Dict.setitem counts p v) q
  = if decide (p = q) then v else tally counts q.
Proof. unfold tally. rewrite get_setitem. by destruct (decide (p = q)). Qed.

Lemma get_tally counts q :
  q ∈ Dict.keys counts → Dict.get counts q = Some (tally counts q).
Proof. intros [v Hv]%get_is_Some. unfold tally. by rewrite Hv. Qed.

Lemma visits_cons p x path :
  visits p (x :: path)
  = ((if decide (x = p) then 1 else 0) + visits p path)%nat.
Proof.
  unfold visits. rewrite filter_cons. by destruct (decide (x = p)).
Qed.

Lemma setitem_app_notin {V} (d1 d2 : Dict.t V) k (v : V) :
  k ∉ Dict.keys d1 → Dict.setitem (d1 ++ d2) k v = d1 ++ Dict.setitem d2 k v.
Proof.
  unfold Dict.keys. induction d1 as [|[k' v'] d1 IH]; simpl; [done|].
  intros [Hne Hin]%not_elem_of_cons.
  rewrite decide_False by congruence. f_equal. by apply IH.
Qed.

(** A dictionary is the table of its own lookups. *)
Lemma counts_tabulate counts :
  Dict.wf counts → counts = (λ k, (k, tally counts k)) <$> Dict.keys counts.
Proof.
  unfold Dict.wf, Dict.keys. induction counts as [|[k v] counts IH]; [done|].
  rewrite !fmap_cons. cbn [fst]. intros [Hk Hnd]%NoDup_cons. f_equal.
  - unfold tally. simpl. by rewrite decide_True.
  - rewrite IH at 1 by done. apply Forall_fmap_ext_1, Forall_forall.
    intros k' Hk'. f_equal. unfold tally. simpl.
    rewrite decide_False; [done|]. by intros ->.
Qed.

(** *** The walk and the tallies

    Along [rounds] rounds of the loop the sampler records the page it
    stands on and then draws the next page; the pages recorded are all
    but the last of the pages visited. *)
Lemma sample_loop_spec corpus d (rounds : list Z) counts sample g :
  Dict.wf corpus → links_closed corpus ∨ (0 < d ∧ d < 1)%Qc →
  sample ∈ Dict.keys corpus → Dict.keys counts = Dict.keys corpus →
  ∃ path counts' sample' g',
    walk_from (length rounds) corpus d sample g = Ok path
    ∧ length path = length rounds
    ∧ Forall (λ x, x ∈ Dict.keys corpus) path
    ∧ for_each (sample_step corpus d) rounds (counts, sample, g)
      = Ok (counts', sample', g')
    ∧ Dict.keys counts' = Dict.keys corpus
    ∧ ∀ p, tally counts' p
           = (tally counts p
              + Z.of_nat (visits p (take (length rounds)
                                         (sample :: path))))%Z.
Proof.
  intros Hwf Hpos. revert counts sample g.
  induction rounds as [|i rounds IH]; intros counts sample g Hin Hkeys.
  - exists [], counts, sample, g. repeat split; try done.
    intros p. simpl. unfold visits. simpl. lia.
  - destruct (next_sample_elem_of corpus d sample g Hwf Hpos Hin)
      as (s1 & g1 & Hnext & Hs1).
    destruct (IH (Dict.setitem counts sample (tally counts sample + 1)%Z)
                s1 g1 Hs1) as (path & counts' & s' & g' & Hw & Hlen & Hall
                                 & Hloop & Hk' & Htally).
    { rewrite keys_setitem_in; [done|by rewrite Hkeys]. }
    exists (s1 :: path), counts', s', g'.
    split; [|split; [|split; [|split; [|split]]]].
    + cbn [length walk_from]. rewrite Hnext. cbn [result_bind].
      by rewrite Hw.
    + simpl. by rewrite Hlen.
    + by constructor.
    + cbn [for_each]. unfold sample_step at 1.
      unfold Dict.getitem. rewrite get_tally by by rewrite Hkeys.
      cbn [result_bind]. rewrite Hnext. cbn [result_bind]. exact Hloop.
    + done.
    + intros p. rewrite Htally, tally_setitem. cbn [length].
      rewrite firstn_cons, visits_cons.
      destruct (decide (sample = p)) as [->|Hne]; lia.
Qed.

(** *** Turning counts into shares *)

Lemma normalise_eq (n : Z) (items : Dict.t Z) (shares : Dict.t Qc) :
  n ≠ 0%Z → NoDup (Dict.keys items) →
  (∀ k, k ∈ Dict.keys items → k ∉ Dict.keys shares) →
  for_each (λ (pd : Dict.t Qc) '(p, count),
              let* share := truediv (Qc_of_Z count) (Qc_of_Z n) in
              Ok (Dict.setitem pd p share))
           items (shares ++ (prod_map id Qc_of_Z <$> items))
  = Ok (shares
        ++ ((λ pc, (pc.1, (Qc_of_Z pc.2 / Qc_of_Z n)%Qc)) <$> items)).
Proof.
  intros Hn. revert shares.
  induction items as [|[k c] items IH]; intros shares Hnd Hfresh; [done|].
  unfold Dict.keys in Hnd. rewrite fmap_cons in Hnd.
  apply NoDup_cons in Hnd as [Hk Hnd].
  rewrite !fmap_cons. cbn [for_each]. rewrite truediv_Ok.
  2:{ rewrite <-Z2Qc_inj_0. by intros ?%Z2Qc_inj. }
  cbn [result_bind]. rewrite setitem_app_notin by (apply Hfresh; left).
  cbn [prod_map fst snd id Dict.setitem]. rewrite decide_True by done.
  rewrite (cons_middle _ shares), app_assoc, IH; [|done|].
  - by rewrite <-app_assoc.
  - intros k' Hk'. unfold Dict.keys. rewrite fmap_app. cbn.
    rewrite elem_of_app, list_elem_of_singleton.
    intros [Hin| ->]; [|done].
    apply (Hfresh k'); [by right|done].
Qed.

Lemma normalise_zero (items : Dict.t Z) k c (shares : Dict.t Qc) :
  for_each (λ (pd : Dict.t Qc) '(p, count),
              let* share := truediv (Qc_of_Z count) (Qc_of_Z 0) in
              Ok (Dict.setitem pd p share))
           ((k, c) :: items) shares
  = Raise ZeroDivisionError.
Proof. cbn [for_each]. by rewrite Z2Qc_inj_0, truediv_0. Qed.

(** *** Counting the visits of a path *)

Lemma sum_list_cons (x : nat) (xs : list nat) :
  sum_list (x :: xs) = (x + sum_list xs)%nat.
Proof. done. Qed.

Lemma sum_indicator_notin (ks : list page) x :
  x ∉ ks →
  sum_list ((λ k, if decide (x = k) then 1 else 0)%nat <$> ks) = 0%nat.
Proof.
  induction ks as [|k ks IH]; [done|].
  intros [Hne Hx]%not_elem_of_cons. rewrite fmap_cons, sum_list_cons.
  rewrite decide_False by done. by apply IH.
Qed.

Lemma sum_indicator (ks : list page) x :
  NoDup ks → x ∈ ks →
  sum_list ((λ k, if decide (x = k) then 1 else 0)%nat <$> ks) = 1%nat.
Proof.
  induction ks as [|k ks IH]; [by intros _ ?%elem_of_nil|].
  intros [Hk Hnd]%NoDup_cons Hx. rewrite fmap_cons, sum_list_cons.
  destruct (decide (x = k)) as [->|Hne].
  - f_equal. by apply sum_indicator_notin.
  - apply elem_of_cons in Hx as [?|Hx]; [done|]. by rewrite IH.
Qed.

Lemma sum_visits (ks path : list page) :
  NoDup ks → Forall (λ x, x ∈ ks) path →
  sum_list ((λ k, visits k path) <$> ks) = length path.
Proof.
  intros Hnd. induction 1 as [|x path Hx _ IH]; simpl.
  - induction ks as [|k ks IHk]; [done|].
    apply NoDup_cons in Hnd as [_ Hnd]. rewrite fmap_cons, sum_list_cons.
    by rewrite IHk.
  - assert (Hsplit :
      sum_list ((λ k, visits k (x :: path)) <$> ks)
      = (sum_list ((λ k, if decide (x = k) then 1 else 0)%nat <$> ks)
         + sum_list ((λ k, visits k path) <$> ks))%nat).
    { clear. induction ks as [|k ks IHk]; [done|].
      rewrite !fmap_cons, !sum_list_cons, visits_cons. lia. }
    rewrite Hsplit, IH, sum_indicator by done. done.
Qed.

Lemma Qc_of_nat_add a b :
  Qc_of_nat (a + b) = (Qc_of_nat a + Qc_of_nat b)%Qc.
Proof. unfold Qc_of_nat. by rewrite Nat2Z.inj_add, Z2Qc_inj_add. Qed.

Lemma Qc_sum_shares (f : page → nat) (c : Qc) (ks : list page) :
  Qc_sum ((λ k, Qc_of_nat (f k) / c)%Qc <$> ks)
  = (Qc_of_nat (sum_list (f <$> ks)) / c)%Qc.
Proof.
  induction ks as [|k ks IH].
  - simpl. rewrite Qc_of_nat_0. unfold Qcdiv. by rewrite Qcmult_0_l.
  - rewrite !fmap_cons, Qc_sum_cons, IH, sum_list_cons, Qc_of_nat_add.
    unfold Qcdiv. ring.
Qed.

Lemma py_range_length lo hi : length (py_range lo hi) = Z.to_nat (hi - lo).
Proof. unfold py_range. by rewrite length_fmap, length_seq. Qed.

Lemma initial_counts corpus :
  Dict.wf corpus →
  foldl (λ pd p, Dict.setitem pd p 0%Z) [] (Dict.keys corpus)
  = (λ k, (k, 0%Z)) <$> Dict.keys corpus.
Proof.
  intros Hwf.
  by rewrite (fill_distinct_keys (λ _, 0%Z))
    by (done || intros ? _; apply not_elem_of_nil).
Qed.

(** The whole run, for any sample count but zero: the sampler draws
    [1 + max (n-1) 0] positions and returns, for each page, the number of
    times it occurs among the first [max (n-1) 0] of them, over [n]. *)
Lemma sample_pagerank_run corpus d n g :
  Dict.wf corpus → corpus ≠ [] →
  links_closed corpus ∨ (0 < d ∧ d < 1)%Qc → n ≠ 0%Z →
  ∃ path,
    walk (S (Z.to_nat (n - 1))) corpus d g = Ok path
    ∧ length path = S (Z.to_nat (n - 1))
    ∧ Forall (λ x, x ∈ Dict.keys corpus) path
    ∧ sample_pagerank corpus d n g
      = Ok ((λ k, (k, (Qc_of_nat (visits k (take (Z.to_nat (n - 1)) path))
                       / Qc_of_Z n)%Qc)) <$> Dict.keys corpus).
Proof.
  intros Hwf Hne Hpos Hn.
  destruct (choice_elem_of (Dict.keys corpus) g) as (s0 & g0 & Hc & Hs0).
  { unfold Dict.keys. by destruct corpus. }
  destruct (sample_loop_spec corpus d (py_range 1 n)
              ((λ k, (k, 0%Z)) <$> Dict.keys corpus) s0 g0 Hwf Hpos Hs0)
    as (path & counts' & s' & g' & Hw & Hlen & Hall & Hloop & Hk & Htally).
  { apply keys_tabulate. }
  rewrite py_range_length in Hw, Hlen, Htally.
  exists (s0 :: path). split; [|split; [|split]].
  - cbn [walk]. rewrite Hc. cbn [result_bind]. by rewrite Hw.
  - simpl. by rewrite Hlen.
  - by constructor.
  - unfold sample_pagerank. rewrite initial_counts, Hc by done.
    cbn [result_bind]. rewrite Hloop. cbn [result_bind].
    assert (Hwf' : Dict.wf counts') by (unfold Dict.wf; by rewrite Hk).
    pose proof (normalise_eq n counts' [] Hn Hwf') as Hnorm.
    cbn [app] in Hnorm. rewrite Hnorm by (intros ? _; apply not_elem_of_nil).
    f_equal. rewrite (counts_tabulate counts' Hwf') at 1.
    rewrite <-list_fmap_compose, Hk.
    apply Forall_fmap_ext_1, Forall_forall. intros k _. cbn.
    do 3 f_equal. rewrite Htally. unfold tally at 1.
    rewrite get_tabulate. unfold Qc_of_nat.
    destruct (decide (k ∈ Dict.keys corpus)); simpl; f_equal; lia.
Qed.

Lemma sample_pagerank_zero corpus d g :
  Dict.wf corpus → corpus ≠ [] →
  sample_pagerank corpus d 0 g = Raise ZeroDivisionError.
Proof.
  intros Hwf Hne. unfold sample_pagerank.
  destruct (choice_elem_of (Dict.keys corpus) g) as (s0 & g0 & Hc & Hs0).
  { unfold Dict.keys. by destruct corpus. }
  rewrite initial_counts, Hc by done. cbn [result_bind py_range for_each].
  destruct corpus as [|[k out] corpus]; [done|].
  unfold Dict.keys. rewrite !fmap_cons. apply normalise_zero.
Qed.

Lemma sample_pagerank_negative corpus d n g :
  Dict.wf corpus → corpus ≠ [] →
  links_closed corpus ∨ (0 < d ∧ d < 1)%Qc → (n < 0)%Z →
  sample_pagerank corpus d n g = Ok ((λ k, (k, 0%Qc)) <$> Dict.keys corpus).
Proof.
  intros Hwf Hne Hpos Hn.
  destruct (sample_pagerank_run corpus d n g Hwf Hne Hpos)
    as (path & _ & _ & _ & ->); [lia|].
  f_equal. apply Forall_fmap_ext_1, Forall_forall. intros k _. f_equal.
  replace (Z.to_nat (n - 1)) with 0%nat by lia.
  rewrite take_0. unfold visits. simpl. rewrite Qc_of_nat_0.
  unfold Qcdiv. apply Qcmult_0_l.
Qed.

End sampler.

(** C4. On a graph with at least one node, for every sample count [n ≥ 1]
    and every random source, the sampler draws a walk of [n] positions,
    counts for each page its occurrences among the first [n-1] positions
    only, divides the counts by [n], and so returns values that add up to
    [(n-1)/n].  The draws succeed when the graph is closed (whatever the
    damping factor) and also when the damping factor lies in (0,1). *)
Theorem sample_pagerank_tallies (corpus : corpus_t) (d : Qc) (n : Z)
    (g : Random.rng) :
  Dict.wf corpus → corpus ≠ [] →
  links_closed corpus ∨ (0 < d ∧ d < 1)%Qc →
  (1 ≤ n)%Z →
  ∃ path out,
    walk (Z.to_nat n) corpus d g = Ok path
    ∧ length path = Z.to_nat n
    ∧ sample_pagerank corpus d n g = Ok out
    ∧ Dict.keys out = Dict.keys corpus
    ∧ (∀ p, p ∈ Dict.keys corpus →
         Dict.get out p
         = Some (Qc_of_nat (visits p (take (Z.to_nat n - 1) path))
                 / Qc_of_Z n)%Qc)
    ∧ Qc_sum (Dict.values out) = (Qc_of_Z (n - 1) / Qc_of_Z n)%Qc.
Proof.
  intros Hwf Hne Hpos Hn.
  destruct (sample_pagerank_run corpus d n g Hwf Hne Hpos)
    as (path & Hwalk & Hlen & Hall & Hrun); [lia|].
  assert (Hnat : Z.to_nat n = S (Z.to_nat (n - 1))) by lia.
  rewrite Hnat. exists path. eexists.
  split; [done|]. split; [done|]. split; [done|].
  replace (S (Z.to_nat (n - 1)) - 1)%nat with (Z.to_nat (n - 1)) by lia.
  split; [apply keys_tabulate|]. split.
  - intros p Hp. by rewrite get_tabulate, decide_True.
  - rewrite values_tabulate.
    rewrite (Qc_sum_shares (λ k, visits k (take (Z.to_nat (n - 1)) path))).
    rewrite sum_visits; [|done|by apply Forall_take].
    rewrite length_take, Hlen. unfold Qc_of_nat. do 2 f_equal. lia.
Qed.

Lemma sample_pagerank_tallies_witness :
  Dict.wf chain
  ∧ (0 < Q2Qc (85 # 100) ∧ Q2Qc (85 # 100) < 1)%Qc
  ∧ ∃ path out,
      walk 4 chain (Q2Qc (85 # 100)) (const_rng (Q2Qc (1 # 2))) = Ok path
      ∧ sample_pagerank chain (Q2Qc (85 # 100)) 4 (const_rng (Q2Qc (1 # 2)))
        = Ok out
      ∧ Qc_sum (Dict.values out) = Q2Qc (3 # 4).
Proof.
  assert (Hd : (0 < Q2Qc (85 # 100) ∧ Q2Qc (85 # 100) < 1)%Qc)
    by (split; reflexivity).
  split; [exact chain_wf|]. split; [exact Hd|].
  destruct (sample_pagerank_tallies chain (Q2Qc (85 # 100)) 4
              (const_rng (Q2Qc (1 # 2))) chain_wf ltac:(done) (or_intror Hd)
              ltac:(lia))
    as (path & out & Hwalk & _ & Hrun & _ & _ & Hsum).
  exists path, out. split; [exact Hwalk|]. split; [exact Hrun|].
  rewrite Hsum. Qc_compute.
Defined.

(** C5, as the code has it: neither estimator checks its inputs.  On a graph
    with no node the iterative solver returns the empty mapping after one
    vacuous sweep, and the sampler fails with the [IndexError] of
    [random.choice].  On a graph with nodes the sampler fails at [n = 0]
    with [ZeroDivisionError], raised by the final division after the start
    was drawn, and at negative [n] it fails not at all: it returns rank 0
    for every page. *)
Theorem estimators_do_not_validate :
  (∀ fuel d, iterate_pagerank (S fuel) [] d = Some (Ok []))
  ∧ (∀ d n g, sample_pagerank [] d n g = Raise IndexError)
  ∧ (∀ corpus d g, Dict.wf corpus → corpus ≠ [] →
       sample_pagerank corpus d 0 g = Raise ZeroDivisionError)
  ∧ (∀ corpus d n g, Dict.wf corpus → corpus ≠ [] →
       links_closed corpus ∨ (0 < d ∧ d < 1)%Qc → (n < 0)%Z →
       sample_pagerank corpus d n g
       = Ok ((λ k, (k, 0%Qc)) <$> Dict.keys corpus)).
Proof.
  split; [done|]. split; [done|]. split; [apply sample_pagerank_zero|].
  apply sample_pagerank_negative.
Qed.

Lemma estimators_do_not_validate_witness :
  Dict.wf chain
  ∧ sample_pagerank chain (Q2Qc (85 # 100)) 0 (const_rng (Q2Qc (1 # 2)))
    = Raise ZeroDivisionError
  ∧ sample_pagerank chain (Q2Qc (85 # 100)) (-3) (const_rng (Q2Qc (1 # 2)))
    = Ok [("A"%string, 0%Qc); ("B"%string, 0%Qc)].
Proof.
  destruct estimators_do_not_validate as (_ & _ & Hzero & Hneg).
  split; [exact chain_wf|]. split.
  - apply Hzero; [exact chain_wf|done].
  - apply (Hneg chain); [exact chain_wf|done| |lia].
    right. split; reflexivity.
Defined.

(** C5, as stated, fails: handed the graph with no node, the iterative
    solver reports no error and returns the empty mapping; handed the sample
    count -3, the sampler reports no error and returns a mapping. *)
Lemma invalid_input_accepted :
  iterate_pagerank 1 [] (Q2Qc (85 # 100)) = Some (Ok [])
  ∧ ∃ out,
      sample_pagerank chain (Q2Qc (85 # 100)) (-3) (const_rng (Q2Qc (1 # 2)))
      = Ok out
      ∧ rank_of out "A" = 0%Qc ∧ rank_of out "B" = 0%Qc.
Proof.
  split; [reflexivity|]. eexists. split.
  - apply sample_pagerank_negative; [exact chain_wf|done| |lia].
    right. split; reflexivity.
  - split; reflexivity.
Qed.

(** ** The two small graphs of the specification *)

Section small_graphs.
Local Open Scope Qc_scope.

Lemma one_as_nat : Qc_of_nat 1 = 1.
Proof. Qc_compute. Qed.

Lemma two_as_nat : Qc_of_nat 2 = 2.
Proof. Qc_compute. Qed.

Lemma half_plus_half : Q2Qc (1 # 2) = 1 / 2.
Proof. Qc_compute. Qed.

(** *** One isolated node *)

Lemma single_node_recurrence d ranks :
  recurrence single_node d ranks "A" = 1 - d.
Proof.
  unfold recurrence.
  change (linking_pages single_node "A") with (@nil (page * gset page)).
  change (Dict.len single_node) with 1%nat. rewrite one_as_nat.
  cbn [fmap list_fmap Qc_sum foldr]. field. discriminate.
Qed.

Lemma single_node_sweep d x :
  inplace_sweep single_node d (("A"%string, x) :: nil)
  = ("A"%string, 1 - d) :: nil.
Proof.
  unfold inplace_sweep. cbn [Dict.keys single_node fmap list_fmap fst foldl].
  unfold relax. rewrite single_node_recurrence. done.
Qed.

Lemma single_node_solver d fuel :
  iterate_pagerank (S (S fuel)) single_node d
  = Some (Ok (("A"%string, 1 - d) :: nil)).
Proof.
  unfold iterate_pagerank.
  rewrite initial_ranks_eq by (apply single_node_wf || done).
  cbn [Dict.keys single_node fmap list_fmap fst].
  change (Dict.len single_node) with 1%nat.
  cbn [iterate_loop].
  pose proof (sweep_eq single_node d) as Hsweep.
  change (Dict.len single_node) with 1%nat in Hsweep.
  rewrite Hsweep by (apply single_node_wf || done).
  rewrite single_node_sweep.
  destruct (decide (_ = 1%nat)) as [_|_]; [done|].
  rewrite Hsweep by (apply single_node_wf || done).
  rewrite single_node_sweep.
  rewrite decide_True; [done|].
  cbn [Dict.keys single_node fmap list_fmap fst].
  rewrite filter_cons, decide_True; [done|].
  unfold within_tolerance, Qcminus. rewrite Qcplus_opp_r. reflexivity.
Qed.

Lemma single_node_closed : links_closed single_node.
Proof.
  intros p out q [[= -> ->]|[]%elem_of_nil]%elem_of_cons. set_solver.
Qed.

Lemma single_node_sampler d n g :
  (1 ≤ n)%Z →
  sample_pagerank single_node d n g
  = Ok (("A"%string, Qc_of_Z (n - 1) / Qc_of_Z n) :: nil).
Proof.
  intros Hn.
  destruct (sample_pagerank_run single_node d n g single_node_wf)
    as (path & _ & Hlen & Hall & ->); [done|by left; apply single_node_closed
                                      |lia|].
  cbn [Dict.keys single_node fmap list_fmap fst]. do 4 f_equal.
  assert (Hcount : ∀ l : list page,
            Forall (λ x, x ∈ Dict.keys single_node) l →
            visits "A" l = length l).
  { induction 1 as [|x l Hx _ IH]; [done|].
    rewrite visits_cons, IH. simpl in Hx.
    apply list_elem_of_singleton in Hx as ->. done. }
  rewrite Hcount by by apply Forall_take.
  rewrite length_take, Hlen. unfold Qc_of_nat. f_equal. lia.
Qed.

End small_graphs.

(** C6 is what the docstrings of both estimators ask for (the ranks of a
    graph add up to 1, so the one node of a one-node graph ranks 1), and the
    code misses it: on the graph of one isolated node with damping 0.85 the
    iterative solver returns 0.15, and the sampler with 10000 samples
    returns 0.9999 whatever the random source. *)
Theorem single_node_rank_is_not_one :
  iterate_pagerank 2 single_node (Q2Qc (85 # 100))
  = Some (Ok [("A"%string, Q2Qc (15 # 100))])
  ∧ ∀ g, sample_pagerank single_node (Q2Qc (85 # 100)) 10000 g
         = Ok [("A"%string, Q2Qc (9999 # 10000))].
Proof.
  split.
  - rewrite single_node_solver.
    apply (f_equal (λ x, Some (Ok [("A"%string, x)]))). Qc_compute.
  - intros g. rewrite single_node_sampler by lia.
    apply (f_equal (λ x, Ok [("A"%string, x)])). Qc_compute.
Qed.

(** ** The two-node cycle *)

Section two_cycle.
Local Open Scope Qc_scope.
Implicit Types (d : Qc) (p s : page) (f : list page → Qc).

(** *** The iterative solver *)

Lemma two_cycle_recurrence_A d ranks :
  recurrence two_cycle d ranks "A" = (1 - d) / 2 + d * rank_of ranks "B".
Proof.
  unfold recurrence.
  change (linking_pages two_cycle "A")
    with (("B"%string, ({["A"%string]} : gset page)) :: nil).
  change (Dict.len two_cycle) with 2%nat.
  cbn [fmap list_fmap Qc_sum foldr fst snd].
  change (size ({["A"%string]} : gset page)) with 1%nat.
  rewrite one_as_nat, two_as_nat. field. split; discriminate.
Qed.

Lemma two_cycle_recurrence_B d ranks :
  recurrence two_cycle d ranks "B" = (1 - d) / 2 + d * rank_of ranks "A".
Proof.
  unfold recurrence.
  change (linking_pages two_cycle "B")
    with (("A"%string, ({["B"%string]} : gset page)) :: nil).
  change (Dict.len two_cycle) with 2%nat.
  cbn [fmap list_fmap Qc_sum foldr fst snd].
  change (size ({["B"%string]} : gset page)) with 1%nat.
  rewrite one_as_nat, two_as_nat. field. split; discriminate.
Qed.

(** Equal ranks are a fixed point of the sweep, whatever the damping. *)
Lemma two_cycle_sweep d : inplace_sweep two_cycle d halves = halves.
Proof.
  unfold inplace_sweep. cbn [Dict.keys two_cycle fmap list_fmap fst foldl].
  assert (H1 : relax two_cycle d halves "A" = halves).
  { unfold relax. rewrite two_cycle_recurrence_A.
    change (rank_of halves "B") with (Q2Qc (1 # 2)).
    replace ((1 - d) / 2 + d * Q2Qc (1 # 2)) with (Q2Qc (1 # 2)); [done|].
    rewrite half_plus_half. field. discriminate. }
  rewrite H1. unfold relax. rewrite two_cycle_recurrence_B.
  change (rank_of halves "A") with (Q2Qc (1 # 2)).
  replace ((1 - d) / 2 + d * Q2Qc (1 # 2)) with (Q2Qc (1 # 2)); [done|].
  rewrite half_plus_half. field. discriminate.
Qed.

Lemma two_cycle_solver d fuel :
  iterate_pagerank (S fuel) two_cycle d = Some (Ok halves).
Proof.
  unfold iterate_pagerank.
  rewrite initial_ranks_eq by (apply two_cycle_wf || done).
  cbn [Dict.keys two_cycle fmap list_fmap fst].
  change (Dict.len two_cycle) with 2%nat.
  replace (1 / Qc_of_nat 2) with (Q2Qc (1 # 2)) by Qc_compute.
  fold halves. cbn [iterate_loop].
  pose proof (sweep_eq two_cycle d) as Hsweep.
  change (Dict.len two_cycle) with 2%nat in Hsweep.
  rewrite Hsweep by (apply two_cycle_wf || done).
  rewrite two_cycle_sweep. rewrite decide_True; [done|].
  cbn [Dict.keys two_cycle fmap list_fmap fst].
  assert (Hok : ∀ q, within_tolerance halves halves q).
  { intros q. unfold within_tolerance, Qcminus. by rewrite Qcplus_opp_r. }
  by rewrite !filter_cons, !decide_True.
Qed.

(** *** The law of the walk on the cycle *)

Lemma two_cycle_model_A d :
  transition_model two_cycle "A" d
  = Ok (("A"%string, (1 - d) / Qc_of_nat 2)
        :: ("B"%string, d / Qc_of_nat 1 + (1 - d) / Qc_of_nat 2) :: nil).
Proof.
  rewrite (transition_model_tabulate _ _ _ {["B"%string]})
    by (apply two_cycle_wf || done).
  cbn [Dict.keys two_cycle fmap list_fmap fst]. unfold model_prob.
  change (Dict.len two_cycle) with 2%nat.
  change (size ({["B"%string]} : gset page)) with 1%nat.
  rewrite (decide_True (P := ({["B"%string]} : gset page) ≠ ∅)) by set_solver.
  rewrite (decide_True (P := "A"%string ∉ ({["B"%string]} : gset page)))
    by set_solver.
  rewrite (decide_False (P := "B"%string ∉ ({["B"%string]} : gset page)))
    by set_solver.
  done.
Qed.

Lemma two_cycle_model_B d :
  transition_model two_cycle "B" d
  = Ok (("A"%string, d / Qc_of_nat 1 + (1 - d) / Qc_of_nat 2)
        :: ("B"%string, (1 - d) / Qc_of_nat 2) :: nil).
Proof.
  rewrite (transition_model_tabulate _ _ _ {["A"%string]})
    by (apply two_cycle_wf || done).
  cbn [Dict.keys two_cycle fmap list_fmap fst]. unfold model_prob.
  change (Dict.len two_cycle) with 2%nat.
  change (size ({["A"%string]} : gset page)) with 1%nat.
  rewrite (decide_True (P := ({["A"%string]} : gset page) ≠ ∅)) by set_solver.
  rewrite (decide_False (P := "A"%string ∉ ({["A"%string]} : gset page)))
    by set_solver.
  rewrite (decide_True (P := "B"%string ∉ ({["A"%string]} : gset page)))
    by set_solver.
  done.
Qed.

(** One step from A stays with probability (1-d)/2 and crosses with
    probability (1+d)/2; one step from B likewise. *)
Lemma expect_from_A k d f :
  expect_from (S k) two_cycle d "A" f
  = (1 - d) / 2 * expect_from k two_cycle d "A" (λ rest, f ("A"%string :: rest))
    + (1 + d) / 2
      * expect_from k two_cycle d "B" (λ rest, f ("B"%string :: rest)).
Proof.
  cbn [expect_from]. rewrite two_cycle_model_A.
  cbn [Dict.values fmap list_fmap Qc_sum foldr fst snd].
  rewrite one_as_nat, two_as_nat. field. split; [discriminate|].
  intros H. field_simplify in H. discriminate H.
Qed.

Lemma expect_from_B k d f :
  expect_from (S k) two_cycle d "B" f
  = (1 + d) / 2 * expect_from k two_cycle d "A" (λ rest, f ("A"%string :: rest))
    + (1 - d) / 2
      * expect_from k two_cycle d "B" (λ rest, f ("B"%string :: rest)).
Proof.
  cbn [expect_from]. rewrite two_cycle_model_B.
  cbn [Dict.values fmap list_fmap Qc_sum foldr fst snd].
  rewrite one_as_nat, two_as_nat. field. split; [discriminate|].
  intros H. field_simplify in H. discriminate H.
Qed.

(** The same probabilities read off the code: driven by a variate [u], the
    draw from A stays on A exactly when [u < (1-d)/2], and the draw from B
    crosses to A exactly when [u < (1+d)/2]. *)
Lemma two_cycle_next_A d (g : Random.rng) :
  next_sample two_cycle d "A" g
  = Ok (if decide (g 0%nat < (1 - d) / 2) then "A"%string else "B"%string,
        λ i, g (S i)).
Proof.
  unfold next_sample. rewrite two_cycle_model_A.
  cbn [result_bind Dict.keys Dict.values fmap list_fmap fst snd].
  unfold Random.choices, Random.accumulate.
  cbn [Random.accumulate_from length last Random.random Nat.sub].
  rewrite one_as_nat, two_as_nat.
  replace ((1 - d) / 2 + (d / 1 + (1 - d) / 2)) with 1
    by (field; repeat split; discriminate).
  rewrite Qcmult_1_r.
  rewrite (decide_False (P := 2%nat ≠ 2%nat)) by (intros H; by apply H).
  rewrite (decide_False (P := 1 ≤ 0)) by (apply Qclt_not_le; reflexivity).
  unfold Random.bisect. cbn [Nat.sub Random.bisect_loop].
  rewrite (decide_True (P := (0 < 1)%nat)) by lia.
  change ((0 + 1) `div` 2)%nat with 0%nat. cbn [lookup list_lookup].
  by destruct (decide (g 0%nat < (1 - d) / 2)).
Qed.

Lemma two_cycle_next_B d (g : Random.rng) :
  next_sample two_cycle d "B" g
  = Ok (if decide (g 0%nat < (1 + d) / 2) then "A"%string else "B"%string,
        λ i, g (S i)).
Proof.
  unfold next_sample. rewrite two_cycle_model_B.
  cbn [result_bind Dict.keys Dict.values fmap list_fmap fst snd].
  unfold Random.choices, Random.accumulate.
  cbn [Random.accumulate_from length last Random.random Nat.sub].
  rewrite one_as_nat, two_as_nat.
  replace (d / 1 + (1 - d) / 2 + (1 - d) / 2) with 1
    by (field; repeat split; discriminate).
  replace (d / 1 + (1 - d) / 2) with ((1 + d) / 2)
    by (field; repeat split; discriminate).
  rewrite Qcmult_1_r.
  rewrite (decide_False (P := 2%nat ≠ 2%nat)) by (intros H; by apply H).
  rewrite (decide_False (P := 1 ≤ 0)) by (apply Qclt_not_le; reflexivity).
  unfold Random.bisect. cbn [Nat.sub Random.bisect_loop].
  rewrite (decide_True (P := (0 < 1)%nat)) by lia.
  change ((0 + 1) `div` 2)%nat with 0%nat. cbn [lookup list_lookup].
  by destruct (decide (g 0%nat < (1 + d) / 2)).
Qed.

Lemma expect_from_ext k (corpus : corpus_t) d s f f' :
  (∀ rest, length rest = k → f rest = f' rest) →
  expect_from k corpus d s f = expect_from k corpus d s f'.
Proof.
  revert s f f'. induction k as [|k IH]; intros s f f' Hext; cbn [expect_from].
  - by apply Hext.
  - destruct (transition_model corpus s d) as [dist|]; [|done]. f_equal.
    apply Forall_fmap_ext_1, Forall_forall. intros [q w] _. cbn [fst snd].
    f_equal. apply IH. intros rest Hlen. apply Hext. simpl. by rewrite Hlen.
Qed.

(** The mean is affine; on the cycle the probabilities of a step add up
    to 1, so the mean of a constant is the constant. *)
Lemma expect_from_affine k d s (c y z : Qc) f f' :
  s = "A"%string ∨ s = "B"%string →
  expect_from k two_cycle d s (λ rest, c + y * f rest + z * f' rest)
  = c + y * expect_from k two_cycle d s f
    + z * expect_from k two_cycle d s f'.
Proof.
  revert s f f'. induction k as [|k IH]; intros s f f' Hs; [done|].
  destruct Hs as [-> | ->].
  - rewrite !expect_from_A, !IH by auto. field. discriminate.
  - rewrite !expect_from_B, !IH by auto. field. discriminate.
Qed.

Lemma expect_from_const k d s (c : Qc) :
  s = "A"%string ∨ s = "B"%string →
  expect_from k two_cycle d s (λ _, c) = c.
Proof.
  intros Hs.
  rewrite (expect_from_ext _ _ _ _ _ (λ rest, c + 0 * 0 + 0 * 0))
    by (intros; ring).
  rewrite (expect_from_affine k d s c 0 0 (λ _, 0) (λ _, 0)) by done. ring.
Qed.

(** *** Signed counts *)

Lemma sign_square p x : sign p x * sign p x = 1.
Proof. unfold sign. destruct (decide (x = p)); ring. Qed.

Lemma sign_A_B p :
  p = "A"%string ∨ p = "B"%string →
  (sign p "A" = 1 ∧ sign p "B" = -1) ∨ (sign p "A" = -1 ∧ sign p "B" = 1).
Proof. intros [-> | ->]; [left|right]; done. Qed.

Lemma signed_0 p path : signed p 0 path = 0.
Proof. done. Qed.

Lemma signed_S p j x path :
  signed p (S j) (x :: path) = sign p x + signed p j path.
Proof. done. Qed.

(** A step of the chain reverses the mean sign and shrinks it by [d]. *)
Lemma step_sign d p s (ea eb : Qc) :
  p = "A"%string ∨ p = "B"%string → s = "A"%string ∨ s = "B"%string →
  (s = "A"%string →
     (1 - d) / 2 * (sign p "A" * ea) + (1 + d) / 2 * (sign p "B" * ea)
     = - sign p s * (d * ea))
  ∧ (s = "B"%string →
     (1 + d) / 2 * (sign p "A" * ea) + (1 - d) / 2 * (sign p "B" * ea)
     = - sign p s * (d * ea)).
Proof.
  intros Hp Hs.
  destruct (sign_A_B p Hp) as [[HA HB]|[HA HB]]; rewrite ?HA, ?HB;
    split; intros ->; rewrite ?HA, ?HB; field; discriminate.
Qed.

Lemma signed_mean d p j r s :
  p = "A"%string ∨ p = "B"%string → s = "A"%string ∨ s = "B"%string →
  expect_from (j + r) two_cycle d s (signed p j) = - sign p s * drift d j.
Proof.
  intros Hp. revert s. induction j as [|j IH]; intros s Hs.
  - rewrite (expect_from_ext _ _ _ _ _ (λ _, 0)) by done.
    rewrite expect_from_const by done. simpl. ring.
  - cbn [Nat.add drift].
    assert (Hstep : ∀ q, q = "A"%string ∨ q = "B"%string →
              expect_from (j + r) two_cycle d q
                (λ rest, signed p (S j) (q :: rest))
              = sign p q * (1 - drift d j)).
    { intros q Hq.
      rewrite (expect_from_ext _ _ _ _ _
                 (λ rest, sign p q + 1 * signed p j rest + 0 * 0))
        by (intros; rewrite signed_S; ring).
      rewrite expect_from_affine, IH by done. ring. }
    destruct (step_sign d p s (1 - drift d j) 0 Hp Hs) as [HA HB].
    destruct Hs as [-> | ->].
    + rewrite expect_from_A, !Hstep by auto. by apply HA.
    + rewrite expect_from_B, !Hstep by auto. by apply HB.
Qed.

Lemma signed_mean_square d p j r s :
  p = "A"%string ∨ p = "B"%string → s = "A"%string ∨ s = "B"%string →
  expect_from (j + r) two_cycle d s (λ rest, signed p j rest * signed p j rest)
  = spread d j.
Proof.
  intros Hp. revert s. induction j as [|j IH]; intros s Hs.
  - rewrite (expect_from_ext _ _ _ _ _ (λ _, 0))
      by (intros; rewrite signed_0; ring).
    by rewrite expect_from_const.
  - cbn [Nat.add spread].
    assert (Hstep : ∀ q, q = "A"%string ∨ q = "B"%string →
              expect_from (j + r) two_cycle d q
                (λ rest, signed p (S j) (q :: rest)
                         * signed p (S j) (q :: rest))
              = 1 - (1 + 1) * drift d j + spread d j).
    { intros q Hq.
      rewrite (expect_from_ext _ _ _ _ _
                 (λ rest, 1 + ((1 + 1) * sign p q) * signed p j rest
                          + 1 * (signed p j rest * signed p j rest))).
      2:{ intros rest _. rewrite signed_S.
          replace ((sign p q + signed p j rest) * (sign p q + signed p j rest))
            with (sign p q * sign p q
                  + (1 + 1) * sign p q * signed p j rest
                  + signed p j rest * signed p j rest) by ring.
          rewrite sign_square. ring. }
      rewrite expect_from_affine, IH, signed_mean by done.
      pose proof (sign_square p q) as Hsq.
      replace ((1 + 1) * sign p q * (- sign p q * drift d j))
        with (- ((1 + 1) * (sign p q * sign p q) * drift d j)) by ring.
      rewrite Hsq. ring. }
    destruct Hs as [-> | ->].
    + rewrite expect_from_A, !Hstep by auto. field. discriminate.
    + rewrite expect_from_B, !Hstep by auto. field. discriminate.
Qed.

Lemma signed_mean_S d p j s :
  p = "A"%string ∨ p = "B"%string → s = "A"%string ∨ s = "B"%string →
  expect_from (S j) two_cycle d s (signed p j) = - sign p s * drift d j.
Proof. rewrite <-(Nat.add_1_r j). apply signed_mean. Qed.

Lemma signed_mean_square_S d p j s :
  p = "A"%string ∨ p = "B"%string → s = "A"%string ∨ s = "B"%string →
  expect_from (S j) two_cycle d s (λ rest, signed p j rest * signed p j rest)
  = spread d j.
Proof. rewrite <-(Nat.add_1_r j). apply signed_mean_square. Qed.

Lemma drift_bounds d j : 0 ≤ d → d ≤ 1 → 0 ≤ drift d j ∧ drift d j ≤ 1.
Proof.
  intros Hd0 Hd1. induction j as [|j [IH0 IH1]]; [done|]. cbn [drift].
  assert (H0 : 0 ≤ 1 - drift d j) by by apply Qcle_sub_nonneg.
  assert (H1 : 1 - drift d j ≤ 1) by by apply Qcle_sub_le.
  split; [by apply Qcmult_nonneg_nonneg|].
  trans (1 * (1 - drift d j)); [by apply Qcmult_le_mono_nonneg_r|].
  by rewrite Qcmult_1_l.
Qed.

Lemma spread_bound d j : 0 ≤ d → d ≤ 1 → spread d j ≤ Qc_of_nat j.
Proof.
  intros Hd0 Hd1. induction j as [|j IH]; [by rewrite Qc_of_nat_0|].
  cbn [spread]. rewrite Qc_of_nat_S.
  destruct (drift_bounds d j Hd0 Hd1) as [Ht _].
  replace (1 - (1 + 1) * drift d j + spread d j)
    with (spread d j + (1 - (1 + 1) * drift d j)) by ring.
  apply Qcplus_le_compat; [done|].
  apply Qcle_sub_le, Qcmult_nonneg_nonneg; [done|exact Ht].
Qed.

(** The visits of [p] from the signed count. *)
Lemma visits_signed p (path : list page) :
  Qc_of_nat (visits p path)
  = (Qc_of_nat (length path) + Qc_sum (sign p <$> path)) / 2.
Proof.
  induction path as [|x path IH].
  - change (visits p []) with 0%nat.
    cbn [length fmap list_fmap Qc_sum foldr]. rewrite Qc_of_nat_0.
    field. discriminate.
  - rewrite visits_cons, Qc_of_nat_add, IH, fmap_cons, Qc_sum_cons.
    cbn [length]. rewrite Qc_of_nat_S. unfold sign.
    destruct (decide (x = p)).
    + rewrite one_as_nat. field. discriminate.
    + rewrite Qc_of_nat_0. field. discriminate.
Qed.

Lemma expect_two_cycle m d f :
  expect (S m) two_cycle d f
  = 1 / 2 * expect_from m two_cycle d "A" (λ rest, f ("A"%string :: rest))
    + 1 / 2 * expect_from m two_cycle d "B" (λ rest, f ("B"%string :: rest)).
Proof.
  cbn [expect Dict.keys two_cycle fmap list_fmap fst length Qc_sum foldr].
  rewrite two_as_nat. ring.
Qed.

(** What the sampler returns after the start [q] and [S j] draws. *)
Lemma estimate_cons p q j (rest : list page) :
  length rest = S j →
  estimate (Z.of_nat (S (S j))) p (q :: rest)
  = (Qc_of_nat (S j) + sign p q) / (2 * Qc_of_nat (S (S j)))
    + 1 / (2 * Qc_of_nat (S (S j))) * signed p j rest.
Proof.
  intros Hlen. unfold estimate.
  replace (Z.to_nat (Z.of_nat (S (S j))) - 1)%nat with (S j) by lia.
  rewrite firstn_cons, visits_signed. cbn [length].
  rewrite length_take, Hlen, Nat.min_l by lia.
  rewrite fmap_cons, Qc_sum_cons. fold (signed p j rest).
  fold (Qc_of_nat (S (S j))). field.
  split; [apply Qc_of_nat_ne_0; lia|discriminate].
Qed.

Lemma estimate_one p (path : list page) : estimate 1 p path = 0.
Proof.
  unfold estimate. change (Z.to_nat 1 - 1)%nat with 0%nat.
  rewrite take_0. change (visits p []) with 0%nat.
  rewrite Qc_of_nat_0. unfold Qcdiv. apply Qcmult_0_l.
Qed.

Lemma estimate_mean d p m :
  p = "A"%string ∨ p = "B"%string →
  expect (S m) two_cycle d (estimate (Z.of_nat (S m)) p)
  = Qc_of_nat m / (2 * Qc_of_nat (S m)).
Proof.
  intros Hp. rewrite expect_two_cycle. destruct m as [|j].
  - cbn [expect_from]. change (Z.of_nat 1) with 1%Z.
    rewrite !estimate_one, Qc_of_nat_0, one_as_nat. field. discriminate.
  - assert (HN : Qc_of_nat (S (S j)) ≠ 0) by (apply Qc_of_nat_ne_0; lia).
    assert (Hq : ∀ q, q = "A"%string ∨ q = "B"%string →
              expect_from (S j) two_cycle d q
                (λ rest, estimate (Z.of_nat (S (S j))) p (q :: rest))
              = (Qc_of_nat (S j) + sign p q) / (2 * Qc_of_nat (S (S j)))
                + 1 / (2 * Qc_of_nat (S (S j)))
                  * (- sign p q * drift d j)).
    { intros q Hq.
      rewrite (expect_from_ext _ _ _ _ _
        (λ rest, (Qc_of_nat (S j) + sign p q) / (2 * Qc_of_nat (S (S j)))
                 + 1 / (2 * Qc_of_nat (S (S j))) * signed p j rest
                 + 0 * 0)).
      2:{ intros rest Hlen. rewrite estimate_cons by done. ring. }
      rewrite expect_from_affine by done.
      rewrite signed_mean_S by done. ring. }
    rewrite !Hq by auto.
    destruct (sign_A_B p Hp) as [[-> ->]|[-> ->]]; field;
      repeat split; (done || discriminate).
Qed.

Lemma estimate_mean_square d p m :
  p = "A"%string ∨ p = "B"%string → 0 ≤ d → d ≤ 1 →
  expect (S m) two_cycle d
    (λ path, (estimate (Z.of_nat (S m)) p path - 1 / 2)
             * (estimate (Z.of_nat (S m)) p path - 1 / 2))
  ≤ 1 / (2 * 2 * Qc_of_nat (S m)).
Proof.
  intros Hp Hd0 Hd1. rewrite expect_two_cycle. destruct m as [|j].
  - cbn [expect_from]. change (Z.of_nat 1) with 1%Z.
    rewrite !estimate_one, one_as_nat.
    replace (1 / 2 * ((0 - 1 / 2) * (0 - 1 / 2))
             + 1 / 2 * ((0 - 1 / 2) * (0 - 1 / 2))) with (1 / (2 * 2 * 1))
      by (field; repeat split; discriminate).
    apply Qcle_refl.
  - set (N := Qc_of_nat (S (S j))).
    assert (HNpos : 0 < N) by (apply Qc_of_nat_pos; lia).
    assert (HN : N ≠ 0) by (apply Qc_of_nat_ne_0; lia).
    assert (HNS : N = Qc_of_nat j + 1 + 1)
      by (unfold N; by rewrite !Qc_of_nat_S).
    assert (Hq : ∀ q, q = "A"%string ∨ q = "B"%string →
              expect_from (S j) two_cycle d q
                (λ rest, (estimate (Z.of_nat (S (S j))) p (q :: rest) - 1 / 2)
                         * (estimate (Z.of_nat (S (S j))) p (q :: rest)
                            - 1 / 2))
              = (sign p q - 1) / (2 * N) * ((sign p q - 1) / (2 * N))
                + 2 * ((sign p q - 1) / (2 * N)) * (1 / (2 * N))
                  * (- sign p q * drift d j)
                + 1 / (2 * N) * (1 / (2 * N)) * spread d j).
    { intros q Hq.
      rewrite (expect_from_ext _ _ _ _ _
        (λ rest, (sign p q - 1) / (2 * N) * ((sign p q - 1) / (2 * N))
                 + (2 * ((sign p q - 1) / (2 * N)) * (1 / (2 * N)))
                   * signed p j rest
                 + (1 / (2 * N) * (1 / (2 * N)))
                   * (signed p j rest * signed p j rest))).
      2:{ intros rest Hlen. rewrite estimate_cons by done. fold N.
          replace (Qc_of_nat (S j)) with (N - 1)
            by (rewrite HNS, Qc_of_nat_S; ring).
          field. repeat split; (done || discriminate). }
      rewrite expect_from_affine by done.
      by rewrite signed_mean_S, signed_mean_square_S. }
    rewrite !Hq by auto. clear Hq.
    destruct (drift_bounds d j Hd0 Hd1) as [Ht _].
    pose proof (spread_bound d j Hd0 Hd1) as Hw.
    assert (Hsum :
      1 / 2 * ((sign p "A" - 1) / (2 * N) * ((sign p "A" - 1) / (2 * N))
               + 2 * ((sign p "A" - 1) / (2 * N)) * (1 / (2 * N))
                 * (- sign p "A" * drift d j)
               + 1 / (2 * N) * (1 / (2 * N)) * spread d j)
      + 1 / 2 * ((sign p "B" - 1) / (2 * N) * ((sign p "B" - 1) / (2 * N))
                 + 2 * ((sign p "B" - 1) / (2 * N)) * (1 / (2 * N))
                   * (- sign p "B" * drift d j)
                 + 1 / (2 * N) * (1 / (2 * N)) * spread d j)
      = (spread d j + (2 - 2 * drift d j)) * / (2 * 2 * N * N)).
    { destruct (sign_A_B p Hp) as [[-> ->]|[-> ->]]; field;
        repeat split; (done || discriminate). }
    rewrite Hsum.
    replace (1 / (2 * 2 * N)) with (N * / (2 * 2 * N * N))
      by (field; repeat split; (done || discriminate)).
    apply Qcmult_le_mono_nonneg_r.
    + apply Qclt_le_weak, Qcinv_pos.
      repeat apply Qcmult_pos_pos; done.
    + rewrite HNS, <-Qcplus_assoc. apply Qcplus_le_compat; [done|].
      apply Qcle_sub_le, Qcmult_nonneg_nonneg; [done|exact Ht].
Qed.

(** *** From the mean square to the probability of a miss *)

Lemma expect_from_mono k d s f f' :
  s = "A"%string ∨ s = "B"%string → 0 ≤ d → d ≤ 1 →
  (∀ rest, f rest ≤ f' rest) →
  expect_from k two_cycle d s f ≤ expect_from k two_cycle d s f'.
Proof.
  intros Hs Hd0 Hd1. revert s f f' Hs.
  assert (Ha : 0 ≤ (1 - d) / 2).
  { apply Qcdiv_nonneg; [by apply Qcle_sub_nonneg|reflexivity]. }
  assert (Hb : 0 ≤ (1 + d) / 2).
  { apply Qcdiv_nonneg; [by apply Qcplus_nonneg_nonneg|reflexivity]. }
  induction k as [|k IH]; intros s f f' Hs Hle; [apply Hle|].
  destruct Hs as [-> | ->].
  - rewrite !expect_from_A.
    apply Qcplus_le_compat; apply Qcmult_le_mono_nonneg_l; auto.
  - rewrite !expect_from_B.
    apply Qcplus_le_compat; apply Qcmult_le_mono_nonneg_l; auto.
Qed.

Lemma expect_mono m d f f' :
  0 ≤ d → d ≤ 1 → (∀ path, f path ≤ f' path) →
  expect (S m) two_cycle d f ≤ expect (S m) two_cycle d f'.
Proof.
  intros Hd0 Hd1 Hle. rewrite !expect_two_cycle.
  assert (Hh : 0 ≤ 1 / 2) by (apply Qcdiv_nonneg; reflexivity || done).
  apply Qcplus_le_compat; apply Qcmult_le_mono_nonneg_l;
    auto using expect_from_mono.
Qed.

Lemma expect_scale m d (c : Qc) f :
  expect (S m) two_cycle d (λ path, c * f path)
  = c * expect (S m) two_cycle d f.
Proof.
  rewrite !expect_two_cycle.
  rewrite (expect_from_ext _ _ _ "A" _
             (λ rest, 0 + c * f ("A"%string :: rest) + 0 * 0))
    by (intros; ring).
  rewrite (expect_from_ext _ _ _ "B" _
             (λ rest, 0 + c * f ("B"%string :: rest) + 0 * 0))
    by (intros; ring).
  rewrite !expect_from_affine by auto. ring.
Qed.

(** Chebyshev's bound, pointwise. *)
Lemma miss_le_square (ε x : Qc) :
  0 < ε →
  (if decide (ε ≤ Qcabs x) then 1 else 0) ≤ / (ε * ε) * (x * x).
Proof.
  intros Hε.
  assert (Hεε : 0 < ε * ε) by by apply Qcmult_pos_pos.
  assert (Hinv : 0 ≤ / (ε * ε)) by by apply Qclt_le_weak, Qcinv_pos.
  assert (Hsq : x * x = Qcabs x * Qcabs x).
  { rewrite <-Qcabs_Qcmult. symmetry. apply Qcabs_pos.
    destruct (Qclt_le_dec x 0) as [Hneg|Hpos].
    - replace (x * x) with ((- x) * (- x)) by ring.
      apply Qcmult_nonneg_nonneg; apply Qclt_le_weak;
        apply (Qcplus_lt_mono_r _ _ x); by ring_simplify.
    - by apply Qcmult_nonneg_nonneg. }
  destruct (decide (ε ≤ Qcabs x)) as [Hfar|_].
  - replace 1 with (/ (ε * ε) * (ε * ε))
      by (field; by apply Qclt_not_eq in Hε; apply not_eq_sym).
    apply Qcmult_le_mono_nonneg_l; [done|]. rewrite Hsq.
    trans (ε * Qcabs x).
    + apply Qcmult_le_mono_nonneg_l; [by apply Qclt_le_weak|done].
    + apply Qcmult_le_mono_nonneg_r; [apply Qcabs_nonneg|done].
  - apply Qcmult_nonneg_nonneg; [done|]. rewrite Hsq.
    apply Qcmult_nonneg_nonneg; apply Qcabs_nonneg.
Qed.

Lemma estimate_miss d p m (ε : Qc) :
  p = "A"%string ∨ p = "B"%string → 0 ≤ d → d ≤ 1 → 0 < ε →
  expect (S m) two_cycle d
    (λ path, if decide (ε ≤ Qcabs (estimate (Z.of_nat (S m)) p path - 1 / 2))
             then 1 else 0)
  ≤ 1 / (2 * 2 * Qc_of_nat (S m) * (ε * ε)).
Proof.
  intros Hp Hd0 Hd1 Hε.
  assert (Hεε : 0 < ε * ε) by by apply Qcmult_pos_pos.
  assert (HN : 0 < Qc_of_nat (S m)) by (apply Qc_of_nat_pos; lia).
  etrans.
  { apply (expect_mono m d _
             (λ path, / (ε * ε)
                      * ((estimate (Z.of_nat (S m)) p path - 1 / 2)
                         * (estimate (Z.of_nat (S m)) p path - 1 / 2))));
      [done|done|].
    intros path. by apply miss_le_square. }
  rewrite expect_scale.
  replace (1 / (2 * 2 * Qc_of_nat (S m) * (ε * ε)))
    with (/ (ε * ε) * (1 / (2 * 2 * Qc_of_nat (S m)))).
  2:{ field. repeat split; try discriminate;
        by apply not_eq_sym, Qclt_not_eq. }
  apply Qcmult_le_mono_nonneg_l; [by apply Qclt_le_weak, Qcinv_pos|].
  by apply estimate_mean_square.
Qed.

End two_cycle.

(** C8. On the two-node graph A → B, B → A, for every damping factor in
    (0,1): the iterative solver returns rank 1/2 for each node after its
    first sweep, whatever the damping factor.  The sampler returns, for each
    node, its share of the first [n-1] positions of the walk; a draw from A
    stays on A exactly when the variate is below [(1-d)/2] and a draw from B
    crosses to A exactly when it is below [(1+d)/2], so under uniform
    variates the walk has the law of [expect]; under that law the estimate
    of each node has mean [1/2 - 1/(2n)], mean square distance from 1/2 at
    most [1/(4n)], and misses 1/2 by [ε] or more with probability at most
    [1/(4nε²)]: it converges to 1/2 as the sample count grows. *)
Theorem two_cycle_ranks_half (d : Qc) (n : Z) :
  (0 < d)%Qc → (d < 1)%Qc → (1 ≤ n)%Z →
  (∀ fuel,
     iterate_pagerank (S fuel) two_cycle d
     = Some (Ok [("A"%string, Q2Qc (1 # 2)); ("B"%string, Q2Qc (1 # 2))]))
  ∧ (∀ g, ∃ path,
       walk (Z.to_nat n) two_cycle d g = Ok path
       ∧ sample_pagerank two_cycle d n g
         = Ok [("A"%string, estimate n "A" path);
               ("B"%string, estimate n "B" path)])
  ∧ (∀ g : Random.rng,
       next_sample two_cycle d "A" g
       = Ok (if decide (g 0%nat < (1 - d) / 2)%Qc
             then "A"%string else "B"%string, λ i, g (S i))
       ∧ next_sample two_cycle d "B" g
         = Ok (if decide (g 0%nat < (1 + d) / 2)%Qc
               then "A"%string else "B"%string, λ i, g (S i)))
  ∧ (∀ p, p ∈ Dict.keys two_cycle →
       expect (Z.to_nat n) two_cycle d (estimate n p)
       = (1 / 2 - 1 / (2 * Qc_of_Z n))%Qc
       ∧ (expect (Z.to_nat n) two_cycle d
            (λ path, (estimate n p path - 1 / 2)
                     * (estimate n p path - 1 / 2))
          ≤ 1 / (2 * 2 * Qc_of_Z n))%Qc
       ∧ ∀ ε : Qc, (0 < ε)%Qc →
           (expect (Z.to_nat n) two_cycle d
              (λ path, if decide (ε ≤ Qcabs (estimate n p path - 1 / 2))%Qc
                       then 1 else 0)
            ≤ 1 / (2 * 2 * Qc_of_Z n * (ε * ε)))%Qc).
Proof.
  intros Hd0 Hd1 Hn.
  assert (Hnat : Z.to_nat n = S (Z.to_nat (n - 1))) by lia.
  assert (HnZ : n = Z.of_nat (S (Z.to_nat (n - 1)))) by lia.
  split; [|split; [|split]].
  - intros fuel. apply two_cycle_solver.
  - intros g.
    destruct (sample_pagerank_run two_cycle d n g two_cycle_wf)
      as (path & Hwalk & _ & _ & Hrun); [done|by right|lia|].
    exists path. rewrite Hnat. split; [done|]. rewrite Hrun.
    unfold estimate. by replace (Z.to_nat n - 1)%nat with (Z.to_nat (n - 1))
      by lia.
  - intros g. split; [apply two_cycle_next_A|apply two_cycle_next_B].
  - intros p Hp.
    assert (Hp' : p = "A"%string ∨ p = "B"%string).
    { simpl in Hp. set_solver. }
    rewrite Hnat. clear Hnat. revert HnZ.
    generalize (Z.to_nat (n - 1)). intros m ->.
    assert (HN : Qc_of_nat (S m) ≠ 0%Qc) by (apply Qc_of_nat_ne_0; lia).
    split; [|split].
    + rewrite estimate_mean by done. fold (Qc_of_nat (S m)).
      rewrite (Qc_of_nat_S m). rewrite Qc_of_nat_S in HN.
      field. split; [done|discriminate].
    + by apply estimate_mean_square; auto using Qclt_le_weak.
    + intros ε Hε. by apply estimate_miss; auto using Qclt_le_weak.
Qed.

Lemma two_cycle_ranks_half_witness :
  (0 < Q2Qc (85 # 100) ∧ Q2Qc (85 # 100) < 1)%Qc
  ∧ iterate_pagerank 1 two_cycle (Q2Qc (85 # 100))
    = Some (Ok [("A"%string, Q2Qc (1 # 2)); ("B"%string, Q2Qc (1 # 2))])
  ∧ expect 4 two_cycle (Q2Qc (85 # 100)) (estimate 4 "A") = Q2Qc (3 # 8).
Proof.
  assert (Hd0 : (0 < Q2Qc (85 # 100))%Qc) by reflexivity.
  assert (Hd1 : (Q2Qc (85 # 100) < 1)%Qc) by reflexivity.
  destruct (two_cycle_ranks_half (Q2Qc (85 # 100)) 4 Hd0 Hd1 ltac:(lia))
    as (Hsolver & _ & _ & Hlaw).
  split; [by split|]. split; [apply Hsolver|].
  destruct (Hlaw "A"%string) as (Hmean & _ & _); [simpl; set_solver|].
  change (Z.to_nat 4) with 4%nat in Hmean. rewrite Hmean. Qc_compute.
Defined.

(** ** More on the transition model *)

Section distribution.
Local Open Scope Qc_scope.

(** The pages of an out-set that are pages of the graph, counted. *)
Lemma count_known_links (links : gset page) (ks : list page) :
  NoDup ks →
  (length (filter (λ k, k ∈ links) ks) ≤ size links)%nat
  ∧ (length (filter (λ k, k ∈ links) ks) = size links
     ↔ ∀ q, q ∈ links → q ∈ ks).
Proof.
  intros Hnd.
  assert (Hsize : length (filter (λ k, k ∈ links) ks)
                  = size (links ∩ list_to_set ks)).
  { rewrite <-(size_list_to_set (C:=gset page)) by by apply NoDup_filter.
    f_equal. apply set_eq. intros q.
    rewrite elem_of_intersection, !elem_of_list_to_set, list_elem_of_filter.
    tauto. }
  rewrite Hsize. split.
  - apply subseteq_size. set_solver.
  - split.
    + intros Heq q Hq.
      assert (Hsub : links ∩ list_to_set ks ⊆ links) by set_solver.
      destruct (decide (q ∈ ks)) as [|Hout]; [done|].
      assert (Hlt : links ∩ list_to_set ks ⊂ links).
      { split; [done|]. intros Hall. specialize (Hall q Hq). set_solver. }
      apply subset_size in Hlt. lia.
    + intros Hall. f_equal. apply set_eq. intros q.
      rewrite elem_of_intersection, elem_of_list_to_set. naive_solver.
Qed.

Lemma step_weights_sum corpus d links :
  corpus ≠ [] → links ≠ ∅ →
  Qc_sum (step_weights corpus d links)
  = 1 - d * (1 - Qc_of_nat (length (filter (λ k, k ∈ links)
                                           (Dict.keys corpus)))
                 / Qc_of_nat (size links)).
Proof.
  intros Hne Hlinks. unfold step_weights, model_prob.
  assert (HN : Qc_of_nat (Dict.len corpus) ≠ 0).
  { apply Qc_of_nat_ne_0. unfold Dict.len. by destruct corpus. }
  assert (Hlen : length (Dict.keys corpus) = Dict.len corpus)
    by apply length_fmap.
  assert (HL : Qc_of_nat (size links) ≠ 0).
  { apply Qc_of_nat_ne_0, size_non_empty_iff. by intros ?%leibniz_equiv. }
  destruct (decide (links ≠ ∅)); [|done].
  rewrite Qc_sum_by_membership, Hlen. by field.
Qed.

End distribution.

(** X1. For a page of the graph and a damping factor other than 0, the
    probabilities [transition_model] returns add up to 1 exactly when every
    link of the page leads to a page of the graph. *)
Theorem transition_model_sums_to_one (corpus : corpus_t) (p : page) (d : Qc)
    (links : gset page) :
  Dict.wf corpus → Dict.get corpus p = Some links → d ≠ 0%Qc →
  ∃ dist,
    transition_model corpus p d = Ok dist
    ∧ (Qc_sum (Dict.values dist) = 1%Qc
       ↔ ∀ q, q ∈ links → q ∈ Dict.keys corpus).
Proof.
  intros Hwf Hget Hd. eexists. split; [by apply transition_model_tabulate|].
  rewrite values_tabulate. fold (step_weights corpus d links).
  assert (Hne : corpus ≠ []) by (by intros ->).
  destruct (decide (links = ∅)) as [->|Hlinks].
  - split; [set_solver|]. intros _. unfold step_weights, model_prob.
    destruct (decide (∅ ≠ ∅)) as [?|_]; [done|].
    rewrite Qc_sum_const. unfold Dict.keys. rewrite length_fmap.
    assert (HN : Qc_of_nat (length corpus) ≠ 0%Qc).
    { apply Qc_of_nat_ne_0. by destruct corpus. }
    change (Dict.len corpus) with (length corpus). by field.
  - rewrite step_weights_sum by done.
    destruct (count_known_links links (Dict.keys corpus) Hwf) as [Hle Hiff].
    rewrite <-Hiff. clear Hiff.
    assert (HL : Qc_of_nat (size links) ≠ 0%Qc).
    { apply Qc_of_nat_ne_0, size_non_empty_iff. by intros ?%leibniz_equiv. }
    split.
    + intros Hsum.
      set (c := Qc_of_nat (length _)) in *.
      assert (Hzero : (d * (1 - c / Qc_of_nat (size links)) = 0)%Qc).
      { replace (d * (1 - c / Qc_of_nat (size links)))%Qc
          with (1 - (1 - d * (1 - c / Qc_of_nat (size links))))%Qc by ring.
        rewrite Hsum. ring. }
      apply Qcmult_integral in Hzero as [?|Hzero]; [done|].
      assert (Hc : c = Qc_of_nat (size links)).
      { transitivity (c / Qc_of_nat (size links) * Qc_of_nat (size links))%Qc;
          [by field|].
        replace (c / Qc_of_nat (size links))%Qc
          with (1 - (1 - c / Qc_of_nat (size links)))%Qc by ring.
        rewrite Hzero. ring. }
      unfold c, Qc_of_nat in Hc. apply Z2Qc_inj in Hc. lia.
    + intros ->. by field.
Qed.

Lemma transition_model_sums_to_one_witness :
  ∃ dist,
    transition_model chain "A" (Q2Qc (85 # 100)) = Ok dist
    ∧ Qc_sum (Dict.values dist) = 1%Qc.
Proof.
  destruct (transition_model_sums_to_one chain "A" (Q2Qc (85 # 100))
              {["B"%string]} chain_wf eq_refl ltac:(done))
    as (dist & Hrun & Hsum).
  exists dist. split; [exact Hrun|].
  apply Hsum. intros q Hq. simpl. set_solver.
Defined.

(** X2. [transition_model] fails on a page that is no key of the graph,
    with the [KeyError] of [corpus[page]], and on no other input: neither
    division can meet a zero, since the graph holds the page and the
    out-set is tested before its size divides. *)
Theorem transition_model_fails_on_unknown_page (corpus : corpus_t) (p : page)
    (d : Qc) :
  (transition_model corpus p d = Raise KeyError ↔ p ∉ Dict.keys corpus)
  ∧ (∀ e, transition_model corpus p d = Raise e → e = KeyError)
  ∧ (p ∈ Dict.keys corpus → ∃ dist, transition_model corpus p d = Ok dist).
Proof.
  assert (Hin : p ∈ Dict.keys corpus →
                ∃ dist, transition_model corpus p d = Ok dist).
  { intros Hp. destruct (proj2 (get_is_Some corpus p) Hp) as [links Hget].
    unfold transition_model, Dict.getitem. rewrite Hget. cbn [result_bind].
    assert (HN : Qc_of_nat (length (Dict.keys corpus)) ≠ 0%Qc).
    { apply Qc_of_nat_ne_0. destruct corpus; [|done].
      by apply elem_of_nil in Hp. }
    rewrite !truediv_Ok by done. cbn [result_bind].
    destruct (decide (links ≠ ∅)) as [Hne|He]; [|by eexists].
    rewrite truediv_Ok; [by eexists|].
    apply Qc_of_nat_ne_0, size_non_empty_iff. by intros ?%leibniz_equiv. }
  assert (Hout : p ∉ Dict.keys corpus →
                 transition_model corpus p d = Raise KeyError).
  { intros Hp. unfold transition_model, Dict.getitem.
    destruct (Dict.get corpus p) as [links|] eqn:Hget; [|done].
    exfalso. apply Hp, get_is_Some. by rewrite Hget. }
  destruct (decide (p ∈ Dict.keys corpus)) as [Hp|Hp].
  - destruct (Hin Hp) as [dist Hrun]. rewrite Hrun.
    split; [split; [done|by intros ?]|]. split; [done|]. by exists dist.
  - rewrite (Hout Hp). split; [done|]. split; [by intros e [= <-]|done].
Qed.

Lemma transition_model_fails_on_unknown_page_witness :
  transition_model chain "C" (Q2Qc (85 # 100)) = Raise KeyError
  ∧ ∃ dist, transition_model chain "B" (Q2Qc (85 # 100)) = Ok dist.
Proof.
  assert (HC : "C"%string ∉ Dict.keys chain) by (simpl; set_solver).
  assert (HB : "B"%string ∈ Dict.keys chain) by (simpl; set_solver).
  destruct (transition_model_fails_on_unknown_page chain "C"
              (Q2Qc (85 # 100))) as [[_ Hout] _].
  destruct (transition_model_fails_on_unknown_page chain "B"
              (Q2Qc (85 # 100))) as (_ & _ & Hin).
  split; [exact (Hout HC)|exact (Hin HB)].
Defined.

(** ** More on the two estimators *)

Section estimators.
Local Open Scope Qc_scope.
Implicit Types (corpus : corpus_t) (pd : Dict.t Qc) (p q : page) (d : Qc).

Lemma visits_le_length p path : (visits p path ≤ length path)%nat.
Proof. unfold visits. apply length_filter. Qed.

Lemma Qc_of_nat_le a b : (a ≤ b)%nat → Qc_of_nat a ≤ Qc_of_nat b.
Proof. intros Hab. unfold Qc_of_nat. rewrite <-Z2Qc_inj_le. lia. Qed.

Lemma Qcdiv_le_mono_r x y z : 0 < z → x ≤ y → x / z ≤ y / z.
Proof.
  intros Hz Hxy. unfold Qcdiv. apply Qcmult_le_mono_nonneg_r; [|done].
  by apply Qclt_le_weak, Qcinv_pos.
Qed.

Lemma corpus_not_nil {V} (corpus : Dict.t V) :
  corpus ≠ [] → (0 < Dict.len corpus)%nat ∧ Qc_of_nat (Dict.len corpus) ≠ 0.
Proof.
  intros Hne.
  assert (0 < Dict.len corpus)%nat.
  { unfold Dict.len. destruct corpus; simpl; [done|lia]. }
  split; [done|]. apply Qc_of_nat_ne_0. lia.
Qed.

(** Every sweep of the loop runs to its end. *)
Lemma iterate_loop_never_raises corpus d fuel pd :
  Dict.wf corpus → corpus ≠ [] → Dict.keys pd = Dict.keys corpus →
  match iterate_loop fuel corpus d (Dict.len corpus) pd with
  | Some (Raise _) => False
  | Some (Ok ranks) => Dict.keys ranks = Dict.keys corpus
  | None => True
  end.
Proof.
  intros Hwf Hne. revert pd. induction fuel as [|fuel IH]; intros pd Hkeys.
  - done.
  - cbn [iterate_loop]. rewrite sweep_eq by (done || by rewrite Hkeys).
    destruct (decide (_ = Dict.len corpus)).
    + by apply keys_inplace_sweep.
    + apply IH. by apply keys_inplace_sweep.
Qed.

(** Writing to a key the value it holds changes nothing. *)
Lemma setitem_same {V} (dict : Dict.t V) k v :
  Dict.get dict k = Some v → Dict.setitem dict k v = dict.
Proof.
  induction dict as [|[k' v'] dict IH]; [done|]. simpl.
  destruct (decide (k' = k)) as [->|Hne]; [by intros [= ->]|].
  intros Hget. by rewrite IH.
Qed.

Lemma recurrence_undamped corpus pd p :
  recurrence corpus 0 pd p = 1 / Qc_of_nat (Dict.len corpus).
Proof. unfold recurrence, Qcdiv. ring. Qed.

Lemma inplace_sweep_undamped corpus ks :
  ks ⊆ Dict.keys corpus →
  foldl (relax corpus 0)
        ((λ k, (k, 1 / Qc_of_nat (Dict.len corpus))) <$> Dict.keys corpus) ks
  = (λ k, (k, 1 / Qc_of_nat (Dict.len corpus))) <$> Dict.keys corpus.
Proof.
  induction ks as [|k ks IH]; intros Hks; [done|].
  cbn [foldl]. unfold relax at 2. rewrite recurrence_undamped.
  rewrite setitem_same; [apply IH; set_solver|].
  rewrite get_tabulate, decide_True; [done|set_solver].
Qed.

Lemma threshold_pos : 0 < threshold.
Proof. reflexivity. Qed.

Lemma filter_all {A} (P : A → Prop) `{!∀ x, Decision (P x)} (xs : list A) :
  Forall P xs → filter P xs = xs.
Proof.
  induction 1 as [|x xs Hx _ IH]; [done|].
  by rewrite filter_cons, decide_True, IH.
Qed.

Lemma iterate_pagerank_cases fuel corpus d :
  Dict.wf corpus →
  match iterate_pagerank fuel corpus d with
  | Some (Raise _) => False
  | Some (Ok ranks) => Dict.keys ranks = Dict.keys corpus
  | None => True
  end.
Proof.
  intros Hwf. destruct (decide (corpus = [])) as [->|Hne].
  { by destruct fuel. }
  unfold iterate_pagerank. rewrite initial_ranks_eq by done.
  apply iterate_loop_never_raises; [done|done|apply keys_tabulate].
Qed.

End estimators.

(** X3. On a graph with at least one node and for a sample count [n ≥ 1],
    every value the sampler returns lies between 0 and [(n-1)/n], so that it
    is a number of [0, 1). *)
Theorem sample_pagerank_values_bounded (corpus : corpus_t) (d : Qc) (n : Z)
    (g : Random.rng) :
  Dict.wf corpus → corpus ≠ [] →
  links_closed corpus ∨ (0 < d ∧ d < 1)%Qc →
  (1 ≤ n)%Z →
  ∃ out,
    sample_pagerank corpus d n g = Ok out
    ∧ ∀ p v, Dict.get out p = Some v →
        (0 ≤ v)%Qc ∧ (v ≤ Qc_of_Z (n - 1) / Qc_of_Z n)%Qc ∧ (v < 1)%Qc.
Proof.
  intros Hwf Hne Hpos Hn.
  destruct (sample_pagerank_run corpus d n g Hwf Hne Hpos)
    as (path & _ & Hlen & _ & Hrun); [lia|].
  eexists. split; [exact Hrun|]. intros p v. rewrite get_tabulate.
  destruct (decide (p ∈ Dict.keys corpus)); [|done]. intros [= <-].
  assert (HnQ : (0 < Qc_of_Z n)%Qc).
  { rewrite <-Z2Qc_inj_0, <-Z2Qc_inj_lt. lia. }
  set (k := visits p (take (Z.to_nat (n - 1)) path)).
  assert (Hk : (k ≤ Z.to_nat (n - 1))%nat).
  { unfold k. etrans; [apply visits_le_length|].
    rewrite length_take. lia. }
  assert (Hupper : (Qc_of_nat k / Qc_of_Z n ≤ Qc_of_Z (n - 1) / Qc_of_Z n)%Qc).
  { apply Qcdiv_le_mono_r; [done|].
    unfold Qc_of_nat. rewrite <-Z2Qc_inj_le. lia. }
  split; [|split; [done|]].
  - apply Qcdiv_nonneg; [|done].
    unfold Qc_of_nat. rewrite <-Z2Qc_inj_0, <-Z2Qc_inj_le. lia.
  - eapply Qcle_lt_trans; [exact Hupper|].
    apply (Qcmult_lt_mono_pos_r _ _ (Qc_of_Z n)); [done|].
    replace (Qc_of_Z (n - 1) / Qc_of_Z n * Qc_of_Z n)%Qc
      with (Qc_of_Z (n - 1)).
    + rewrite Qcmult_1_l, <-Z2Qc_inj_lt. lia.
    + field. intros H0. by rewrite H0 in HnQ.
Qed.

Lemma sample_pagerank_values_bounded_witness :
  ∃ out,
    sample_pagerank chain (Q2Qc (85 # 100)) 4 (const_rng (Q2Qc (1 # 2)))
    = Ok out
    ∧ ∀ p v, Dict.get out p = Some v → (0 ≤ v)%Qc ∧ (v < 1)%Qc.
Proof.
  assert (Hd : (0 < Q2Qc (85 # 100) ∧ Q2Qc (85 # 100) < 1)%Qc)
    by (split; reflexivity).
  destruct (sample_pagerank_values_bounded chain (Q2Qc (85 # 100)) 4
              (const_rng (Q2Qc (1 # 2))) chain_wf ltac:(done) (or_intror Hd)
              ltac:(lia))
    as (out & Hrun & Hbounds).
  exists out. split; [exact Hrun|]. intros p v Hget.
  destruct (Hbounds p v Hget) as (H0 & _ & H1).
  split; [exact H0|exact H1].
Defined.

(** X4. On a graph read from a dictionary the iterative solver raises no
    exception, whatever the damping factor and however long it runs: every
    lookup finds its key and no division meets a zero.  What it returns
    ranks exactly the pages of the graph, in the order of the graph. *)
Theorem iterate_pagerank_never_raises (fuel : nat) (corpus : corpus_t)
    (d : Qc) :
  Dict.wf corpus →
  (∀ e, iterate_pagerank fuel corpus d ≠ Some (Raise e))
  ∧ (∀ ranks, iterate_pagerank fuel corpus d = Some (Ok ranks) →
       Dict.keys ranks = Dict.keys corpus).
Proof.
  intros Hwf.
  pose proof (iterate_pagerank_cases fuel corpus d Hwf) as Hcases.
  destruct (iterate_pagerank fuel corpus d) as [[ranks|e]|]; [|done|done].
  split; [done|]. by intros ? [= <-].
Qed.

Lemma iterate_pagerank_never_raises_witness :
  ∃ ranks,
    iterate_pagerank 2 chain (Q2Qc (85 # 100)) = Some (Ok ranks)
    ∧ Dict.keys ranks = ["A"; "B"]%string.
Proof.
  assert (Hrun : ∃ ranks,
             iterate_pagerank 2 chain (Q2Qc (85 # 100)) = Some (Ok ranks)).
  { vm_compute. eexists. reflexivity. }
  destruct Hrun as [ranks Hrun]. exists ranks. split; [exact Hrun|].
  exact (proj2 (iterate_pagerank_never_raises 2 chain (Q2Qc (85 # 100))
                  chain_wf) ranks Hrun).
Defined.

(** X5. With damping factor 0 no link counts: the first sweep finds every
    page at [1/N], where the solver put it, and the solver returns that. *)
Theorem iterate_pagerank_undamped (fuel : nat) (corpus : corpus_t) :
  Dict.wf corpus →
  iterate_pagerank (S fuel) corpus 0
  = Some (Ok ((λ k, (k, 1 / Qc_of_nat (Dict.len corpus))%Qc)
                <$> Dict.keys corpus)).
Proof.
  intros Hwf. destruct (decide (corpus = [])) as [->|Hne]; [done|].
  unfold iterate_pagerank. rewrite initial_ranks_eq by done.
  cbn [iterate_loop].
  rewrite sweep_eq; [|done|done|by rewrite keys_tabulate].
  unfold inplace_sweep. rewrite inplace_sweep_undamped by done.
  rewrite filter_all.
  - rewrite decide_True; [done|]. apply length_fmap.
  - apply Forall_forall. intros p _. unfold within_tolerance.
    replace (_ - _)%Qc with 0%Qc by ring. apply threshold_pos.
Qed.

Lemma iterate_pagerank_undamped_witness :
  iterate_pagerank 1 chain 0
  = Some (Ok [("A"%string, Q2Qc (1 # 2)); ("B"%string, Q2Qc (1 # 2))]).
Proof.
  etrans; [exact (iterate_pagerank_undamped 0 chain chain_wf)|].
  do 2 f_equal.
Defined.

(** ** The solver stops *)

Section sums.
Local Open Scope Qc_scope.
Context {A : Type}.
Implicit Types (f g : A → Qc) (l : list A).

Lemma Qc_sum_fmap_le f g l :
  (∀ x, x ∈ l → f x ≤ g x) → Qc_sum (f <$> l) ≤ Qc_sum (g <$> l).
Proof.
  induction l as [|x l IH]; intros Hfg; [done|].
  rewrite !fmap_cons, !Qc_sum_cons. apply Qcplus_le_compat.
  - apply Hfg. left.
  - apply IH. intros ??. apply Hfg. by right.
Qed.

Lemma Qc_sum_fmap_ext f g l :
  (∀ x, x ∈ l → f x = g x) → Qc_sum (f <$> l) = Qc_sum (g <$> l).
Proof.
  intros Hfg. f_equal. by apply Forall_fmap_ext_1, Forall_forall.
Qed.

Lemma Qc_sum_fmap_plus f g l :
  Qc_sum ((λ x, f x + g x) <$> l) = Qc_sum (f <$> l) + Qc_sum (g <$> l).
Proof.
  induction l as [|x l IH]; [done|].
  rewrite !fmap_cons, !Qc_sum_cons, IH. ring.
Qed.

Lemma Qc_sum_fmap_scale c f l :
  Qc_sum ((λ x, c * f x) <$> l) = c * Qc_sum (f <$> l).
Proof.
  induction l as [|x l IH]; [simpl; ring|].
  rewrite !fmap_cons, !Qc_sum_cons, IH. ring.
Qed.

Lemma Qc_sum_fmap_nonneg f l :
  (∀ x, x ∈ l → 0 ≤ f x) → 0 ≤ Qc_sum (f <$> l).
Proof.
  intros Hf. apply Qc_sum_nonneg, Forall_fmap, Forall_forall. exact Hf.
Qed.

Lemma Qc_sum_fmap_filter (P : A → Prop) `{!∀ x, Decision (P x)} f l :
  Qc_sum (f <$> filter P l)
  = Qc_sum ((λ x, if decide (P x) then f x else 0) <$> l).
Proof.
  induction l as [|x l IH]; [done|].
  rewrite filter_cons, fmap_cons, Qc_sum_cons.
  destruct (decide (P x)).
  - by rewrite fmap_cons, Qc_sum_cons, IH.
  - rewrite IH. ring.
Qed.

Lemma Qcabs_sum f l :
  Qcabs (Qc_sum (f <$> l)) ≤ Qc_sum ((λ x, Qcabs (f x)) <$> l).
Proof.
  induction l as [|x l IH]; [done|].
  rewrite !fmap_cons, !Qc_sum_cons.
  etrans; [apply Qcabs_triangle|]. by apply Qcplus_le_compat.
Qed.

Lemma Qc_sum_fmap_elem f l x :
  (∀ y, y ∈ l → 0 ≤ f y) → x ∈ l → f x ≤ Qc_sum (f <$> l).
Proof.
  induction l as [|y l IH]; intros Hf Hx; [by apply elem_of_nil in Hx|].
  rewrite fmap_cons, Qc_sum_cons.
  apply elem_of_cons in Hx as [->|Hx].
  - apply Qcle_plus_nonneg_r, Qc_sum_fmap_nonneg.
    intros ??. apply Hf. by right.
  - etrans; [apply IH; [|done]|].
    + intros ??. apply Hf. by right.
    + apply Qcle_plus_nonneg_l, Hf. left.
Qed.

End sums.

Section contraction.
Local Open Scope Qc_scope.
Implicit Types (corpus : corpus_t) (x y pd : Dict.t Qc) (p q : page) (d : Qc)
  (qo : page * gset page) (ks : list page).

Lemma share_nonneg p qo : 0 ≤ share p qo.
Proof.
  unfold share. destruct (decide (p ∈ qo.2)) as [Hin|]; [|done].
  apply Qcdiv_nonneg; [done|]. by eapply Qc_of_nat_pos, size_pos_of_elem.
Qed.

Lemma col_cons p ks qo : col (p :: ks) qo = share p qo + col ks qo.
Proof. done. Qed.

Lemma col_nonneg ks qo : 0 ≤ col ks qo.
Proof. apply Qc_sum_fmap_nonneg. intros ??. apply share_nonneg. Qed.

Lemma col_count ks qo :
  col ks qo
  = Qc_of_nat (length (filter (λ k, k ∈ qo.2) ks)) / Qc_of_nat (size qo.2).
Proof.
  induction ks as [|k ks IH].
  - unfold col. simpl. rewrite Qc_of_nat_0. unfold Qcdiv. ring.
  - rewrite col_cons, IH, filter_cons. unfold share.
    destruct (decide (k ∈ qo.2)).
    + cbn [length]. rewrite Qc_of_nat_S. unfold Qcdiv. ring.
    + unfold Qcdiv. ring.
Qed.

(** The shares a page passes on add up to 1 at most. *)
Lemma col_le_1 ks qo : NoDup ks → col ks qo ≤ 1.
Proof.
  intros Hnd. rewrite col_count.
  destruct (count_known_links qo.2 ks Hnd) as [Hle _].
  destruct (decide (size qo.2 = 0%nat)) as [Hz|Hnz].
  - rewrite Hz in Hle. replace (length _) with 0%nat by lia.
    rewrite Qc_of_nat_0. unfold Qcdiv. by rewrite Qcmult_0_l.
  - assert (Hs : 0 < Qc_of_nat (size qo.2)) by (apply Qc_of_nat_pos; lia).
    etrans; [apply Qcdiv_le_mono_r; [done|by apply Qc_of_nat_le]|].
    unfold Qcdiv. rewrite Qcmult_inv_r; [done|].
    intros H0. by rewrite H0 in Hs.
Qed.

Lemma col_later_le ks q qo : col (later ks q) qo ≤ col ks qo.
Proof.
  induction ks as [|k ks IH]; [done|]. cbn [later]. rewrite col_cons.
  destruct (decide (k = q)).
  - apply Qcle_plus_nonneg_l, share_nonneg.
  - etrans; [exact IH|]. apply Qcle_plus_nonneg_l, share_nonneg.
Qed.

Lemma later_notin ks q : q ∉ ks → later ks q = [].
Proof.
  induction ks as [|k ks IH]; [done|].
  intros [Hne Hq]%not_elem_of_cons. cbn [later].
  rewrite decide_False by done. by apply IH.
Qed.

Lemma gap_nonneg x y q : 0 ≤ gap x y q.
Proof. apply Qcabs_nonneg. Qed.

(** The recurrence as a sum over all the pages. *)
Lemma recurrence_shares corpus d x p :
  recurrence corpus d x p
  = (1 - d) / Qc_of_nat (Dict.len corpus)
    + d * Qc_sum ((λ qo, share p qo * rank_of x qo.1) <$> corpus).
Proof.
  unfold recurrence, linking_pages. do 2 f_equal.
  rewrite (Qc_sum_fmap_filter (λ qo, p ∈ qo.2)).
  apply Qc_sum_fmap_ext. intros qo _. unfold share.
  destruct (decide (p ∈ qo.2)); unfold Qcdiv; ring.
Qed.

(** Two rank mappings that are close are rewritten to close ranks. *)
Lemma recurrence_gap corpus d x y p :
  0 ≤ d →
  Qcabs (recurrence corpus d x p - recurrence corpus d y p)
  ≤ d * Qc_sum ((λ qo, share p qo * gap x y qo.1) <$> corpus).
Proof.
  intros Hd. rewrite !recurrence_shares.
  set (sx := Qc_sum (@fmap list _ _ _ _ corpus)). set (sy := Qc_sum (@fmap list _ _ _ _ corpus)).
  assert (Hdiff : sx - sy
    = Qc_sum ((λ qo, share p qo * (rank_of x qo.1 - rank_of y qo.1))
                <$> corpus)).
  { unfold sx, sy.
    rewrite (Qc_sum_fmap_ext
      (λ qo, share p qo * (rank_of x qo.1 - rank_of y qo.1))
      (λ qo, share p qo * rank_of x qo.1
             + (-(1)) * (share p qo * rank_of y qo.1)))
      by (intros; ring).
    rewrite Qc_sum_fmap_plus, Qc_sum_fmap_scale. ring. }
  replace (_ - _) with (d * (sx - sy)) by ring.
  rewrite Qcabs_Qcmult, (Qcabs_pos d Hd), Hdiff.
  apply Qcmult_le_mono_nonneg_l; [done|].
  etrans; [apply Qcabs_sum|].
  apply Qc_sum_fmap_le. intros qo _. unfold gap.
  rewrite Qcabs_Qcmult, (Qcabs_pos _ (share_nonneg p qo)). done.
Qed.

Lemma rank_of_relax corpus d x p q :
  rank_of (relax corpus d x p) q
  = if decide (p = q) then recurrence corpus d x p else rank_of x q.
Proof. unfold relax. apply rank_of_setitem. Qed.

(** Along a sweep over the pages [ks]: the gaps of the pages rewritten are
    bounded by the damped shares they were rewritten from, which came from
    the new ranks of the pages before and the old ranks of the others. *)
Lemma sweep_gap corpus d ks x y :
  0 ≤ d → NoDup ks →
  Qc_sum (gap (foldl (relax corpus d) x ks) (foldl (relax corpus d) y ks)
            <$> ks)
  ≤ d * Qc_sum ((λ qo,
        col (later ks qo.1) qo
        * gap (foldl (relax corpus d) x ks) (foldl (relax corpus d) y ks) qo.1
        + (col ks qo - col (later ks qo.1) qo) * gap x y qo.1) <$> corpus).
Proof.
  intros Hd. revert x y. induction ks as [|k ks IH]; intros x y Hnd.
  - simpl. apply Qcmult_nonneg_nonneg; [done|].
    apply Qc_sum_fmap_nonneg. intros qo _.
    unfold col. simpl. rewrite Qcmult_0_l, Qcplus_0_l.
    replace (0 - 0) with 0 by ring. by rewrite Qcmult_0_l.
  - apply NoDup_cons in Hnd as [Hk Hnd].
    cbn [foldl]. rewrite fmap_cons, Qc_sum_cons.
    set (x1 := relax corpus d x k). set (y1 := relax corpus d y k).
    set (x' := foldl (relax corpus d) x1 ks).
    set (y' := foldl (relax corpus d) y1 ks).
    assert (Hhere : gap x' y' k = gap x1 y1 k).
    { unfold gap, x', y'. by rewrite !rank_of_foldl_relax_notin. }
    assert (Hfirst : gap x' y' k
                     ≤ d * Qc_sum ((λ qo, share k qo * gap x y qo.1)
                                     <$> corpus)).
    { rewrite Hhere. unfold gap, x1, y1.
      rewrite !rank_of_relax, !decide_True by done.
      by apply recurrence_gap. }
    specialize (IH x1 y1 Hnd). fold x' y' in IH.
    etrans; [apply Qcplus_le_compat; [exact Hfirst|exact IH]|].
    rewrite <-Qcmult_plus_distr_r, <-Qc_sum_fmap_plus.
    apply Qcmult_le_mono_nonneg_l; [done|].
    apply reflexive_eq, Qc_sum_fmap_ext. intros qo _.
    cbn [later]. rewrite col_cons.
    destruct (decide (k = qo.1)) as [Heq|Hne].
    + rewrite <-Heq, (later_notin ks k Hk), Hhere.
      change (col [] qo) with 0. ring.
    + replace (gap x1 y1 qo.1) with (gap x y qo.1); [ring|].
      unfold gap, x1, y1. by rewrite !rank_of_relax, !decide_False.
Qed.

Lemma weight_bounds corpus d qo :
  Dict.wf corpus → 0 ≤ d → d ≤ 1 →
  1 - d ≤ 1 - d * col (later (Dict.keys corpus) qo.1) qo
  ∧ 1 - col (later (Dict.keys corpus) qo.1) qo
    ≤ 1 - d * col (later (Dict.keys corpus) qo.1) qo.
Proof.
  intros Hwf Hd0 Hd1.
  set (a := col (later (Dict.keys corpus) qo.1) qo).
  assert (Ha0 : 0 ≤ a) by apply col_nonneg.
  assert (Ha1 : a ≤ 1).
  { etrans; [apply col_later_le|]. by apply col_le_1. }
  assert (Hda : d * a ≤ d).
  { rewrite <-(Qcmult_1_r d) at 2. by apply Qcmult_le_mono_nonneg_l. }
  assert (Hda' : d * a ≤ a).
  { rewrite <-(Qcmult_1_l a) at 2. by apply Qcmult_le_mono_nonneg_r. }
  split.
  - apply (Qcplus_le_mono_r _ _ (d + d * a)).
    replace (1 - d + (d + d * a)) with (1 + d * a) by ring.
    replace (1 - d * a + (d + d * a)) with (1 + d) by ring.
    by apply Qcplus_le_mono_l.
  - apply (Qcplus_le_mono_r _ _ (a + d * a)).
    replace (1 - a + (a + d * a)) with (1 + d * a) by ring.
    replace (1 - d * a + (a + d * a)) with (1 + a) by ring.
    by apply Qcplus_le_mono_l.
Qed.

(** One sweep brings two rank mappings closer by the factor [d]. *)
Lemma sweep_contracts corpus d x y :
  Dict.wf corpus → 0 ≤ d → d ≤ 1 →
  weighted_gap corpus d (inplace_sweep corpus d x) (inplace_sweep corpus d y)
  ≤ d * weighted_gap corpus d x y.
Proof.
  intros Hwf Hd0 Hd1.
  set (x' := inplace_sweep corpus d x). set (y' := inplace_sweep corpus d y).
  set (a := λ qo, col (later (Dict.keys corpus) qo.1) qo).
  set (s1 := Qc_sum ((λ qo, gap x' y' qo.1) <$> corpus)).
  set (s2 := Qc_sum ((λ qo, a qo * gap x' y' qo.1) <$> corpus)).
  set (s3 := Qc_sum ((λ qo, (col (Dict.keys corpus) qo - a qo)
                            * gap x y qo.1) <$> corpus)).
  assert (H1 : s1 ≤ d * s2 + d * s3).
  { pose proof (sweep_gap corpus d (Dict.keys corpus) x y Hd0 Hwf) as Hgap.
    change (Qc_sum (gap x' y' <$> Dict.keys corpus)
            ≤ d * Qc_sum ((λ qo, a qo * gap x' y' qo.1
                                 + (col (Dict.keys corpus) qo - a qo)
                                   * gap x y qo.1) <$> corpus)) in Hgap.
    rewrite Qc_sum_fmap_plus, Qcmult_plus_distr_r in Hgap.
    unfold s1. etrans; [|exact Hgap].
    unfold Dict.keys. by rewrite <-list_fmap_compose. }
  assert (H2 : weighted_gap corpus d x' y' = s1 - d * s2).
  { unfold weighted_gap, s1, s2.
    rewrite (Qc_sum_fmap_ext
      (λ qo, (1 - d * col (later (Dict.keys corpus) qo.1) qo)
             * gap x' y' qo.1)
      (λ qo, gap x' y' qo.1 + (- d) * (a qo * gap x' y' qo.1)))
      by (intros; unfold a; ring).
    rewrite Qc_sum_fmap_plus, Qc_sum_fmap_scale. ring. }
  assert (H3 : s3 ≤ weighted_gap corpus d x y).
  { apply Qc_sum_fmap_le. intros qo _.
    apply Qcmult_le_mono_nonneg_r; [apply gap_nonneg|].
    destruct (weight_bounds corpus d qo Hwf Hd0 Hd1) as [_ Hw].
    etrans; [|exact Hw]. unfold a.
    apply (Qcplus_le_mono_r _ _ (col (later (Dict.keys corpus) qo.1) qo)).
    replace (col (Dict.keys corpus) qo
             - col (later (Dict.keys corpus) qo.1) qo
             + col (later (Dict.keys corpus) qo.1) qo)
      with (col (Dict.keys corpus) qo) by ring.
    replace (1 - col (later (Dict.keys corpus) qo.1) qo
             + col (later (Dict.keys corpus) qo.1) qo) with 1 by ring.
    by apply col_le_1. }
  rewrite H2. apply (Qcplus_le_mono_r _ _ (d * s2)).
  replace (s1 - d * s2 + d * s2) with s1 by ring.
  etrans; [exact H1|]. rewrite (Qcplus_comm (d * s2)).
  apply Qcplus_le_mono_r. by apply Qcmult_le_mono_nonneg_l.
Qed.

Lemma weighted_gap_nonneg corpus d x y :
  Dict.wf corpus → 0 ≤ d → d ≤ 1 → 0 ≤ weighted_gap corpus d x y.
Proof.
  intros Hwf Hd0 Hd1. apply Qc_sum_fmap_nonneg. intros qo _.
  apply Qcmult_nonneg_nonneg; [|apply gap_nonneg].
  destruct (weight_bounds corpus d qo Hwf Hd0 Hd1) as [Hw _].
  etrans; [|exact Hw]. by apply Qcle_sub_nonneg.
Qed.

(** The gap at a page is bounded by the weighted distance. *)
Lemma gap_le_weighted corpus d x y q :
  Dict.wf corpus → 0 ≤ d → d ≤ 1 → q ∈ Dict.keys corpus →
  (1 - d) * gap x y q ≤ weighted_gap corpus d x y.
Proof.
  intros Hwf Hd0 Hd1 Hq.
  apply list_elem_of_fmap in Hq as (qo & -> & Hqo).
  assert (Hterm : ∀ qo',
    (1 - d) * gap x y qo'.1
    ≤ (1 - d * col (later (Dict.keys corpus) qo'.1) qo') * gap x y qo'.1).
  { intros qo'. apply Qcmult_le_mono_nonneg_r; [apply gap_nonneg|].
    apply (weight_bounds corpus d qo' Hwf Hd0 Hd1). }
  etrans; [apply Hterm|]. unfold weighted_gap.
  apply (Qc_sum_fmap_elem
           (λ qo, (1 - d * col (later (Dict.keys corpus) qo.1) qo)
                  * gap x y qo.1)); [|done].
  intros qo' _. etrans; [|apply Hterm].
  apply Qcmult_nonneg_nonneg; [by apply Qcle_sub_nonneg|apply gap_nonneg].
Qed.

(** *** The sweeps of a run *)

Lemma iter_sweep_gap corpus d x k :
  Dict.wf corpus → 0 ≤ d → d ≤ 1 →
  weighted_gap corpus d (Nat.iter (S k) (inplace_sweep corpus d) x)
                        (Nat.iter k (inplace_sweep corpus d) x)
  ≤ d ^ k * weighted_gap corpus d (inplace_sweep corpus d x) x.
Proof.
  intros Hwf Hd0 Hd1. induction k as [|k IH].
  - simpl. by rewrite Qcmult_1_l.
  - etrans; [apply (sweep_contracts corpus d); done|].
    change (d ^ S k) with (d * d ^ k). rewrite <-Qcmult_assoc.
    by apply Qcmult_le_mono_nonneg_l.
Qed.

Lemma Qcpower_bounds d k : 0 ≤ d → d ≤ 1 → 0 ≤ d ^ k ∧ d ^ k ≤ 1.
Proof.
  intros Hd0 Hd1. induction k as [|k [IH0 IH1]]; [done|].
  change (d ^ S k) with (d * d ^ k). split.
  - by apply Qcmult_nonneg_nonneg.
  - etrans; [apply Qcmult_le_mono_nonneg_l; [done|exact IH1]|].
    by rewrite Qcmult_1_r.
Qed.

(** Bernoulli's inequality, for the powers of the damping factor. *)
Lemma Qcpower_decay d k :
  0 ≤ d → d ≤ 1 → d ^ k * (1 + Qc_of_nat k * (1 - d)) ≤ 1.
Proof.
  intros Hd0 Hd1. induction k as [|k IH].
  - rewrite Qc_of_nat_0. simpl. by ring_simplify.
  - change (d ^ S k) with (d * d ^ k). rewrite Qc_of_nat_S.
    destruct (Qcpower_bounds d k Hd0 Hd1) as [Hp0 Hp1].
    assert (H1d : 0 ≤ 1 - d) by by apply Qcle_sub_nonneg.
    replace (d * d ^ k * (1 + (Qc_of_nat k + 1) * (1 - d)))
      with (d * (d ^ k * (1 + Qc_of_nat k * (1 - d)))
            + d * d ^ k * (1 - d)) by ring.
    assert (Ha : d * (d ^ k * (1 + Qc_of_nat k * (1 - d))) ≤ d * 1)
      by by apply Qcmult_le_mono_nonneg_l.
    assert (Hb : d * d ^ k * (1 - d) ≤ 1 * (1 - d)).
    { apply Qcmult_le_mono_nonneg_r; [done|].
      etrans; [apply Qcmult_le_mono_nonneg_l; [done|exact Hp1]|].
      by rewrite Qcmult_1_r. }
    etrans; [apply Qcplus_le_compat; [exact Ha|exact Hb]|].
    apply reflexive_eq. ring.
Qed.

Lemma Qcdiv_mult_cancel (a z : Qc) : z ≠ 0 → a / z * z = a.
Proof. intros Hz. by field. Qed.

Lemma Qc_archimedean (x : Qc) : ∃ k : nat, x < Qc_of_nat k.
Proof.
  exists (Z.to_nat (Qfloor x + 1)).
  assert (Hfloor : x < Qc_of_Z (Qfloor x + 1)) by exact (Qlt_floor x).
  eapply Qclt_le_trans; [exact Hfloor|].
  unfold Qc_of_nat. rewrite <-Z2Qc_inj_le. lia.
Qed.

(** The powers of a damping factor below 1 fall below every bound. *)
Lemma Qcpower_small d (e c : Qc) :
  0 ≤ d → d < 1 → 0 ≤ e → 0 < c → ∃ k, d ^ k * e < c.
Proof.
  intros Hd0 Hd1 He Hc.
  assert (H1d : 0 < 1 - d).
  { apply (Qcplus_lt_mono_r _ _ d).
    replace (1 - d + d) with 1 by ring. by rewrite Qcplus_0_l. }
  destruct (Qc_archimedean (e / (c * (1 - d)))) as [k Hk].
  exists k.
  assert (Hcd : 0 < c * (1 - d)) by by apply Qcmult_pos_pos.
  assert (He' : e < c * (1 + Qc_of_nat k * (1 - d))).
  { apply (Qcmult_lt_mono_pos_r _ _ (c * (1 - d))) in Hk; [|done].
    replace (e / (c * (1 - d)) * (c * (1 - d))) with e in Hk.
    2:{ rewrite Qcdiv_mult_cancel; [done|].
        intros H0. by rewrite H0 in Hcd. }
    eapply Qclt_le_trans; [exact Hk|].
    replace (c * (1 + Qc_of_nat k * (1 - d)))
      with (c + Qc_of_nat k * (c * (1 - d))) by ring.
    apply Qcle_plus_nonneg_l. by apply Qclt_le_weak. }
  destruct (Qcpower_bounds d k Hd0 (Qclt_le_weak _ _ Hd1)) as [Hp0 Hp1].
  set (b := 1 + Qc_of_nat k * (1 - d)) in *.
  assert (Hb : 0 < b).
  { unfold b. apply Qcplus_pos_nonneg; [done|].
    apply Qcmult_nonneg_nonneg; [|by apply Qclt_le_weak].
    unfold Qc_of_nat. rewrite <-Z2Qc_inj_0, <-Z2Qc_inj_le. lia. }
  pose proof (Qcpower_decay d k Hd0 (Qclt_le_weak _ _ Hd1)) as Hdecay.
  fold b in Hdecay.
  apply Qcle_lt_or_eq in Hp0 as [Hpos|Hzero].
  - eapply Qclt_le_trans; [apply Qcmult_lt_mono_pos_l; [done|exact He']|].
    replace (d ^ k * (c * b)) with (c * (d ^ k * b)) by ring.
    rewrite <-(Qcmult_1_r c) at 2.
    apply Qcmult_le_mono_nonneg_l; [by apply Qclt_le_weak|done].
  - rewrite <-Hzero. by rewrite Qcmult_0_l.
Qed.

End contraction.

Section termination.
Local Open Scope Qc_scope.
Implicit Types (corpus : corpus_t) (x y pd : Dict.t Qc) (p q : page) (d : Qc).

Lemma keys_iter_sweep corpus d k pd :
  Dict.keys pd = Dict.keys corpus →
  Dict.keys (Nat.iter k (inplace_sweep corpus d) pd) = Dict.keys corpus.
Proof.
  intros Hkeys. induction k as [|k IH]; [done|].
  simpl. by apply keys_inplace_sweep.
Qed.

(** The loop returns on the first sweep that moves no rank by the
    threshold or more: when the sweep after [k] others is such a sweep, the
    run takes [k + 1] sweeps at most. *)
Lemma iterate_loop_stops corpus d k pd :
  Dict.wf corpus → corpus ≠ [] → Dict.keys pd = Dict.keys corpus →
  Forall (within_tolerance (Nat.iter k (inplace_sweep corpus d) pd)
                           (Nat.iter (S k) (inplace_sweep corpus d) pd))
         (Dict.keys corpus) →
  ∃ ranks, ∀ fuel, (k < fuel)%nat →
    iterate_loop fuel corpus d (Dict.len corpus) pd = Some (Ok ranks).
Proof.
  intros Hwf Hne. revert pd. induction k as [|k IH]; intros pd Hkeys Hall.
  - exists (inplace_sweep corpus d pd). intros [|fuel] Hfuel; [lia|].
    cbn [iterate_loop]. rewrite sweep_eq by (done || by rewrite Hkeys).
    rewrite filter_all by exact Hall.
    rewrite decide_True; [done|]. apply length_fmap.
  - destruct (decide (length (filter (within_tolerance pd
                                (inplace_sweep corpus d pd))
                              (Dict.keys corpus)) = Dict.len corpus))
      as [Hstop|Hgo].
    + exists (inplace_sweep corpus d pd). intros [|fuel] Hfuel; [lia|].
      cbn [iterate_loop]. rewrite sweep_eq by (done || by rewrite Hkeys).
      by rewrite decide_True.
    + destruct (IH (inplace_sweep corpus d pd)) as [ranks Hranks].
      { by apply keys_inplace_sweep. }
      { by rewrite <-!Nat.iter_succ_r. }
      exists ranks. intros [|fuel] Hfuel; [lia|].
      cbn [iterate_loop]. rewrite sweep_eq by (done || by rewrite Hkeys).
      rewrite decide_False by done. apply Hranks. lia.
Qed.

(** After enough sweeps a sweep moves every rank by less than the
    threshold. *)
Lemma sweeps_settle corpus d pd :
  Dict.wf corpus → 0 ≤ d → d < 1 →
  ∃ k, Forall (within_tolerance (Nat.iter k (inplace_sweep corpus d) pd)
                                (Nat.iter (S k) (inplace_sweep corpus d) pd))
              (Dict.keys corpus).
Proof.
  intros Hwf Hd0 Hd1.
  assert (Hd1' : d ≤ 1) by by apply Qclt_le_weak.
  assert (H1d : 0 < 1 - d).
  { apply (Qcplus_lt_mono_r _ _ d).
    replace (1 - d + d) with 1 by ring. by rewrite Qcplus_0_l. }
  destruct (Qcpower_small d
              (weighted_gap corpus d (inplace_sweep corpus d pd) pd)
              ((1 - d) * threshold) Hd0 Hd1) as [k Hk].
  { by apply weighted_gap_nonneg. }
  { apply Qcmult_pos_pos; [done|apply threshold_pos]. }
  exists k. apply Forall_forall. intros q Hq.
  change (gap (Nat.iter (S k) (inplace_sweep corpus d) pd)
              (Nat.iter k (inplace_sweep corpus d) pd) q < threshold).
  apply (Qcmult_lt_mono_pos_l _ _ (1 - d)); [done|].
  eapply Qcle_lt_trans; [by apply (gap_le_weighted corpus d)|].
  eapply Qcle_lt_trans; [by apply iter_sweep_gap|]. exact Hk.
Qed.

Lemma iterate_pagerank_stops corpus d :
  Dict.wf corpus → (0 ≤ d)%Qc → (d < 1)%Qc →
  ∃ sweeps ranks,
    Dict.keys ranks = Dict.keys corpus
    ∧ ∀ fuel, (sweeps ≤ fuel)%nat →
        iterate_pagerank fuel corpus d = Some (Ok ranks).
Proof.
  intros Hwf Hd0 Hd1. destruct (decide (corpus = [])) as [->|Hne].
  { exists 1%nat, []. split; [done|]. intros [|fuel] Hfuel; [lia|done]. }
  destruct (sweeps_settle corpus d
              ((λ k, (k, 1 / Qc_of_nat (Dict.len corpus))%Qc)
                 <$> Dict.keys corpus) Hwf Hd0 Hd1) as [k Hk].
  destruct (iterate_loop_stops corpus d k _ Hwf Hne (keys_tabulate _ _) Hk)
    as [ranks Hranks].
  exists (S k), ranks. split.
  - pose proof (iterate_pagerank_cases (S k) corpus d Hwf) as Hcases.
    unfold iterate_pagerank in Hcases at 1.
    rewrite initial_ranks_eq, Hranks in Hcases by (done || lia). done.
  - intros fuel Hfuel. unfold iterate_pagerank.
    rewrite initial_ranks_eq by done. apply Hranks. lia.
Qed.

End termination.

(** X6. The loop of the iterative solver ends: for every graph read from
    a dictionary and every damping factor [0 ≤ d < 1] there is a number of
    sweeps after which the solver has returned its ranks, and it returns
    the same ranks however many more sweeps it is allowed. *)
Theorem iterate_pagerank_terminates (corpus : corpus_t) (d : Qc) :
  Dict.wf corpus → (0 ≤ d)%Qc → (d < 1)%Qc →
  ∃ sweeps ranks, ∀ fuel, (sweeps ≤ fuel)%nat →
    iterate_pagerank fuel corpus d = Some (Ok ranks).
Proof.
  intros Hwf Hd0 Hd1.
  destruct (iterate_pagerank_stops corpus d Hwf Hd0 Hd1)
    as (sweeps & ranks & _ & Hrun).
  by exists sweeps, ranks.
Qed.

Lemma iterate_pagerank_terminates_witness :
  ∃ sweeps ranks,
    iterate_pagerank sweeps two_cycle (Q2Qc (85 # 100)) = Some (Ok ranks).
Proof.
  destruct (iterate_pagerank_terminates two_cycle (Q2Qc (85 # 100))
              two_cycle_wf ltac:(done) eq_refl) as (sweeps & ranks & Hrun).
  exists sweeps, ranks. apply Hrun. lia.
Defined.

Section residual.
Local Open Scope Qc_scope.
Implicit Types (corpus : corpus_t) (x y pd : Dict.t Qc) (p q : page) (d : Qc).

Lemma shares_linking_pages corpus p :
  Qc_sum ((λ qo, share p qo) <$> corpus)
  = Qc_sum ((λ qo, 1 / Qc_of_nat (size qo.2)) <$> linking_pages corpus p).
Proof.
  unfold linking_pages. symmetry.
  etrans; [exact (Qc_sum_fmap_filter (λ qo : page * gset page, p ∈ qo.2)
                    (λ qo, 1 / Qc_of_nat (size qo.2)) corpus)|].
  symmetry. apply Qc_sum_fmap_ext. intros qo _. unfold share.
  by destruct (decide (p ∈ qo.2)).
Qed.

(** What a sweep leaves at a page differs from the recurrence on the
    outcome of the sweep by the moves of the pages rewritten after it. *)
Lemma sweep_residual corpus d prev p (bound : Qc) :
  Dict.wf corpus → 0 ≤ d → p ∈ Dict.keys corpus → 0 ≤ bound →
  (∀ q, q ∈ Dict.keys corpus →
        gap (inplace_sweep corpus d prev) prev q ≤ bound) →
  Qcabs (rank_of (inplace_sweep corpus d prev) p
         - recurrence corpus d (inplace_sweep corpus d prev) p)
  ≤ d * bound * Qc_sum ((λ qo, 1 / Qc_of_nat (size qo.2))
                          <$> linking_pages corpus p).
Proof.
  intros Hwf Hd Hp Hbound Hmoves.
  destruct (list_elem_of_split _ _ Hp) as (before & after & Hsplit).
  assert (Hnd : NoDup (before ++ p :: after)) by by rewrite <-Hsplit.
  destruct (NoDup_app_cons_inv _ _ _ Hnd) as (Hb & Hpb & Hpa).
  apply NoDup_app in Hnd as (_ & Hdis & _).
  set (new := inplace_sweep corpus d prev) in *.
  set (seen := foldl (relax corpus d) prev before).
  assert (Hnew : new = foldl (relax corpus d) (relax corpus d seen p) after).
  { unfold new, inplace_sweep. by rewrite Hsplit, foldl_app. }
  assert (Hhere : rank_of new p = recurrence corpus d seen p).
  { rewrite Hnew, rank_of_foldl_relax_notin by done.
    by rewrite rank_of_relax, decide_True. }
  rewrite Hhere.
  etrans; [by apply recurrence_gap|].
  rewrite <-shares_linking_pages, <-Qcmult_assoc.
  apply Qcmult_le_mono_nonneg_l; [done|].
  rewrite <-Qc_sum_fmap_scale. apply Qc_sum_fmap_le. intros [q out] Hqo.
  cbn [fst]. rewrite (Qcmult_comm bound).
  apply Qcmult_le_mono_nonneg_l; [apply share_nonneg|].
  assert (Hq : q ∈ Dict.keys corpus).
  { apply list_elem_of_fmap. by exists (q, out). }
  destruct (decide (q ∈ before)) as [Hin|Hout].
  - assert (Hsame : rank_of new q = rank_of seen q).
    { rewrite Hnew, rank_of_foldl_relax_notin.
      - rewrite rank_of_relax, decide_False; [done|]. by intros <-.
      - intros Hqa. apply (Hdis q Hin). by right. }
    unfold gap. rewrite Hsame.
    replace (rank_of seen q - rank_of seen q) with 0 by ring.
    by rewrite (Qcabs_pos 0).
  - assert (Hsame : rank_of seen q = rank_of prev q)
      by by apply rank_of_foldl_relax_notin.
    unfold gap. rewrite Hsame, Qcabs_Qcminus. by apply Hmoves.
Qed.

End residual.

(** X7. The ranks the iterative solver returns solve the recurrence up to
    the threshold: at every page [p] the returned rank differs from
    [(1-d)/N + d * Σ_{q : p ∈ out(q)} rank(q)/|out(q)|], computed from the
    returned ranks, by at most [d * 0.001 * Σ_{q : p ∈ out(q)} 1/|out(q)|]. *)
Theorem solver_residual (fuel : nat) (corpus : corpus_t) (d : Qc)
    (ranks : Dict.t Qc) (p : page) :
  Dict.wf corpus → (0 ≤ d)%Qc →
  iterate_pagerank fuel corpus d = Some (Ok ranks) →
  p ∈ Dict.keys corpus →
  (Qcabs (rank_of ranks p - recurrence corpus d ranks p)
   ≤ d * threshold * Qc_sum ((λ qo, 1 / Qc_of_nat (size qo.2))
                               <$> linking_pages corpus p))%Qc.
Proof.
  intros Hwf Hd Hrun Hp.
  assert (Hne : corpus ≠ []) by (intros ->; by apply elem_of_nil in Hp).
  unfold iterate_pagerank in Hrun. rewrite initial_ranks_eq in Hrun by done.
  apply (iterate_loop_last corpus d
           (λ pd, Dict.keys pd = Dict.keys corpus)) in Hrun
    as (prev & Hkeys & _ & -> & Hall); [|done|done|done| |].
  2:{ intros pd. apply keys_inplace_sweep. }
  2:{ apply keys_tabulate. }
  apply sweep_residual; [done|done|done|done|].
  intros q Hq. rewrite Forall_forall in Hall.
  apply Qclt_le_weak, (Hall q Hq).
Qed.

Lemma solver_residual_witness :
  ∃ ranks,
    iterate_pagerank 2 chain (Q2Qc (85 # 100)) = Some (Ok ranks)
    ∧ (Qcabs (rank_of ranks "B" - recurrence chain (Q2Qc (85 # 100)) ranks "B")
       ≤ Q2Qc (85 # 100000))%Qc.
Proof.
  assert (Hd : (0 ≤ Q2Qc (85 # 100))%Qc) by done.
  assert (HB : "B"%string ∈ Dict.keys chain) by (simpl; set_solver).
  assert (Hrun : ∃ ranks,
             iterate_pagerank 2 chain (Q2Qc (85 # 100)) = Some (Ok ranks)).
  { vm_compute. eexists. reflexivity. }
  destruct Hrun as [ranks Hrun]. exists ranks. split; [exact Hrun|].
  pose proof (solver_residual 2 chain (Q2Qc (85 # 100)) ranks "B" chain_wf
                Hd Hrun HB) as Hres.
  replace (Q2Qc (85 # 100000)) with
    (Q2Qc (85 # 100) * threshold
     * Qc_sum ((λ qo : page * gset page, 1 / Qc_of_nat (size qo.2))
                 <$> linking_pages chain "B"))%Qc; [exact Hres|].
  Qc_compute.
Defined.

(** ** Building the graph *)

Lemma string_app_nil (s : string) : ("" +:+ s)%string = s.
Proof. done. Qed.

Lemma string_app_cons a (s t : string) :
  (String a s +:+ t)%string = String a (s +:+ t)%string.
Proof. done. Qed.

Lemma endswith_spec s suffix :
  endswith s suffix = true ↔ ∃ front, s = (front +:+ suffix)%string.
Proof.
  induction s as [|a s IH]; cbn [endswith].
  - destruct (decide (EmptyString = suffix)) as [<-|Hne].
    + split; [by exists EmptyString|done].
    + split; [done|]. intros [[|b front] Heq].
      * by rewrite string_app_nil in Heq.
      * by rewrite string_app_cons in Heq.
  - destruct (decide (String a s = suffix)) as [<-|Hne].
    + split; [by exists EmptyString|done].
    + rewrite IH. split.
      * intros [front ->]. by exists (String a front).
      * intros [[|b front] Heq].
        -- by rewrite string_app_nil in Heq.
        -- rewrite string_app_cons in Heq. injection Heq as -> ->.
           by exists front.
Qed.

Lemma setitem_wf {V} (d : Dict.t V) k v :
  Dict.wf d → Dict.wf (Dict.setitem d k v).
Proof.
  unfold Dict.wf. intros Hwf. destruct (decide (k ∈ Dict.keys d)) as [Hin|Hnin].
  - by rewrite keys_setitem_in.
  - rewrite setitem_notin by done. unfold Dict.keys. rewrite fmap_app.
    apply NoDup_app. split; [done|]. split; [|apply NoDup_singleton].
    intros x Hx [->|[]%elem_of_nil]%elem_of_cons. done.
Qed.

Lemma elem_of_html_entries (dir : listing) name file :
  (name, file) ∈ html_entries dir
  ↔ (name, file) ∈ dir ∧ endswith name ".html" = true.
Proof. unfold html_entries. rewrite list_elem_of_filter. simpl. tauto. Qed.

Lemma html_names_spec (dir : listing) name :
  name ∈ (html_entries dir).*1
  ↔ name ∈ dir.*1 ∧ endswith name ".html" = true.
Proof.
  rewrite !list_elem_of_fmap. split.
  - intros ([n file] & -> & [Hd Hh]%elem_of_html_entries).
    split; [by exists (n, file)|done].
  - intros [([n file] & -> & Hd) Hh]. exists (n, file).
    split; [done|]. by apply elem_of_html_entries.
Qed.

Lemma html_names_NoDup (dir : listing) :
  NoDup dir.*1 → NoDup (html_entries dir).*1.
Proof.
  intros Hnd. unfold html_entries.
  induction dir as [|[name file] dir IH]; [constructor|].
  rewrite fmap_cons in Hnd. apply NoDup_cons in Hnd as [Hname Hnd].
  rewrite filter_cons. destruct (decide _); [|by apply IH].
  rewrite fmap_cons. apply NoDup_cons. split; [|by apply IH].
  cbn [fst] in *. intros Hin. apply Hname.
  apply list_elem_of_fmap in Hin as (entry & -> & Hentry).
  apply list_elem_of_filter in Hentry as [_ Hentry].
  apply list_elem_of_fmap. by exists entry.
Qed.

Section crawl.
Context (find_links : string → list string).
Implicit Types (dir : listing) (pages : corpus_t).

(** The first loop reads the entries named [*.html], in order, and stops
    at the first of them it cannot read. *)
Lemma read_pages_ok dir pages :
  NoDup dir.*1 → (∀ name, name ∈ dir.*1 → name ∉ Dict.keys pages) →
  Forall (λ entry, is_Some entry.2) (html_entries dir) →
  read_pages find_links dir pages
  = Returns (pages ++ ((λ entry, (entry.1, found_links find_links entry))
                         <$> html_entries dir)).
Proof.
  revert pages. induction dir as [|[name file] dir IH]; intros pages Hnd Hfresh.
  - intros _. simpl. by rewrite app_nil_r.
  - rewrite fmap_cons in Hnd. apply NoDup_cons in Hnd as [Hname Hnd].
    unfold html_entries. rewrite filter_cons. cbn [fst read_pages].
    destruct (endswith name ".html") eqn:Hhtml; cbn [negb].
    + rewrite decide_True by done. intros [Hread Hrest]%Forall_cons.
      destruct file as [contents|]; [|by destruct Hread].
      rewrite IH; [| done | | done].
      * rewrite setitem_notin by (apply Hfresh; left).
        rewrite fmap_cons, <-app_assoc. done.
      * intros name' Hin. rewrite setitem_notin by (apply Hfresh; left).
        unfold Dict.keys. rewrite fmap_app, elem_of_app.
        intros [Hk|Hk].
        -- by apply (Hfresh name'); [right|].
        -- apply list_elem_of_singleton in Hk. simpl in Hk, Hname.
           by subst name'.
    + rewrite decide_False by done. intros Hrest.
      apply IH; [done| |done]. intros name' Hin. apply Hfresh. by right.
Qed.

Lemma read_pages_unreadable dir pages :
  Exists (λ entry, entry.2 = None) (html_entries dir) →
  read_pages find_links dir pages = RaisesOSError.
Proof.
  revert pages. induction dir as [|[name file] dir IH]; intros pages.
  - by intros ?%Exists_nil.
  - unfold html_entries. rewrite filter_cons. cbn [fst read_pages].
    destruct (endswith name ".html") eqn:Hhtml; cbn [negb].
    + rewrite decide_True by done. destruct file as [contents|]; [|done].
      intros [Hhere|Hlater]%Exists_cons; [done|]. by apply IH.
    + rewrite decide_False by done. apply IH.
Qed.

(** The second loop rewrites every out-set in place and keeps the keys. *)
Lemma keep_known_links_from (known : list page) (front back : corpus_t) :
  Dict.wf (front ++ back) → Dict.keys (front ++ back) = known →
  for_each (λ (pages : corpus_t) filename,
              let* out := Dict.getitem pages filename in
              Ok (Dict.setitem pages filename
                    (filter (λ link, link ∈ Dict.keys pages) out)))
           (Dict.keys back) (front ++ back)
  = Ok (front
        ++ ((λ entry, (entry.1, filter (λ link, link ∈ known) entry.2))
              <$> back)).
Proof.
  revert front. induction back as [|[k out] back IH]; intros front Hwf Hkeys.
  - done.
  - assert (Hk : k ∉ Dict.keys front).
    { unfold Dict.wf, Dict.keys in Hwf. rewrite fmap_app in Hwf.
      apply NoDup_app in Hwf as (_ & Hdis & _). intros Hin.
      apply (Hdis k Hin). left. }
    change (Dict.keys ((k, out) :: back)) with (k :: Dict.keys back).
    cbn [for_each]. unfold Dict.getitem at 1.
    rewrite (elem_of_get (front ++ (k, out) :: back) k out)
      by (done || (apply elem_of_app; right; left)).
    cbn [result_bind]. rewrite Hkeys.
    rewrite setitem_app_notin by done. cbn [Dict.setitem].
    rewrite decide_True by done.
    rewrite (cons_middle _ front), app_assoc. rewrite IH.
    + by rewrite <-app_assoc, fmap_cons.
    + unfold Dict.wf, Dict.keys in *. rewrite <-app_assoc. simpl.
      by rewrite !fmap_app, !fmap_cons in *.
    + rewrite <-Hkeys. unfold Dict.keys. rewrite <-app_assoc.
      by rewrite !fmap_app, !fmap_cons.
Qed.

Lemma keep_known_links_eq pages :
  Dict.wf pages →
  keep_known_links pages
  = Ok ((λ entry, (entry.1, filter (λ link, link ∈ Dict.keys pages) entry.2))
          <$> pages).
Proof.
  intros Hwf. unfold keep_known_links.
  exact (keep_known_links_from (Dict.keys pages) [] pages Hwf eq_refl).
Qed.

(** The graph [crawl] returns, entry by entry. *)
Lemma crawl_eq dir :
  NoDup dir.*1 → Forall (λ entry, is_Some entry.2) (html_entries dir) →
  crawl find_links dir
  = Returns ((λ entry,
                (entry.1,
                 filter (λ link, link ∈ (html_entries dir).*1)
                        (found_links find_links entry)))
               <$> html_entries dir).
Proof.
  intros Hnd Hread. unfold crawl.
  rewrite read_pages_ok by (done || intros ? _; apply not_elem_of_nil).
  cbn [app].
  assert (Hkeys : Dict.keys ((λ entry, (entry.1, found_links find_links entry))
                               <$> html_entries dir)
                  = (html_entries dir).*1).
  { unfold Dict.keys. by rewrite <-list_fmap_compose. }
  rewrite keep_known_links_eq.
  - rewrite Hkeys, <-list_fmap_compose. done.
  - unfold Dict.wf. rewrite Hkeys. unfold html_entries.
    clear Hread Hkeys. induction dir as [|[name file] dir IH]; [constructor|].
    rewrite fmap_cons in Hnd. apply NoDup_cons in Hnd as [Hname Hnd].
    rewrite filter_cons. destruct (decide _); [|by apply IH].
    rewrite fmap_cons. apply NoDup_cons. split; [|by apply IH].
    cbn [fst] in *. intros Hin. apply Hname.
    apply list_elem_of_fmap in Hin as (entry & -> & Hentry).
    apply list_elem_of_filter in Hentry as [_ Hentry].
    apply list_elem_of_fmap. by exists entry.
Qed.


(** Whatever the directory, the first loop either fails on an unreadable
    [*.html] entry or returns a dictionary. *)
Lemma read_pages_cases dir pages :
  Dict.wf pages →
  (Exists (λ entry, entry.2 = None) (html_entries dir)
   ∧ read_pages find_links dir pages = RaisesOSError)
  ∨ (Forall (λ entry, is_Some entry.2) (html_entries dir)
     ∧ ∃ pages', read_pages find_links dir pages = Returns pages'
                 ∧ Dict.wf pages').
Proof.
  revert pages. induction dir as [|[name file] dir IH]; intros pages Hwf.
  - right. split; [constructor|]. by exists pages.
  - unfold html_entries. rewrite filter_cons. cbn [fst read_pages].
    destruct (endswith name ".html") eqn:Hhtml; cbn [negb].
    + rewrite decide_True by done. destruct file as [contents|].
      * destruct (IH (Dict.setitem pages name
                        (list_to_set (find_links contents) ∖ {[name]})))
          as [[Hex Hrun]|[Hall Hrun]]; [by apply setitem_wf| |].
        -- left. split; [by apply Exists_cons_tl|done].
        -- right. split; [|done]. constructor; [by eexists|done].
      * left. split; [by apply Exists_cons_hd|done].
    + rewrite decide_False by done. by apply IH.
Qed.





Lemma crawl_returns_inv dir corpus :
  NoDup dir.*1 → crawl find_links dir = Returns corpus →
  corpus = (λ entry,
              (entry.1,
               filter (λ link, link ∈ (html_entries dir).*1)
                      (found_links find_links entry)))
             <$> html_entries dir.
Proof.
  intros Hnd Hrun.
  destruct (read_pages_cases dir []) as [[_ Hfail]|[Hall _]];
    [by apply NoDup_nil| |].
  - unfold crawl in Hrun. by rewrite Hfail in Hrun.
  - rewrite crawl_eq in Hrun by done. by injection Hrun as <-.
Qed.

Lemma crawl_returns_keys dir corpus :
  NoDup dir.*1 → crawl find_links dir = Returns corpus →
  Dict.keys corpus = (html_entries dir).*1 ∧ Dict.wf corpus.
Proof.
  intros Hnd Hrun. rewrite (crawl_returns_inv dir corpus Hnd Hrun).
  assert (Hkeys : Dict.keys ((λ entry,
                     (entry.1,
                      filter (λ link, link ∈ (html_entries dir).*1)
                             (found_links find_links entry)))
                    <$> html_entries dir)
                  = (html_entries dir).*1).
  { unfold Dict.keys. by rewrite <-list_fmap_compose. }
  split; [done|]. unfold Dict.wf. rewrite Hkeys. by apply html_names_NoDup.
Qed.

End crawl.

(** X8. [crawl] ignores every entry whose name does not end in [.html]:
    the pages of the graph it returns are the names that do, once each and
    in the order of the listing. *)
Theorem crawl_pages (find_links : string → list string) (dir : listing)
    (corpus : corpus_t) :
  NoDup dir.*1 → crawl find_links dir = Returns corpus →
  Dict.keys corpus = (html_entries dir).*1
  ∧ Dict.wf corpus
  ∧ ∀ name, name ∈ Dict.keys corpus
            ↔ name ∈ dir.*1 ∧ ∃ front, name = (front +:+ ".html")%string.
Proof.
  intros Hnd Hrun.
  destruct (crawl_returns_keys find_links dir corpus Hnd Hrun) as [Hkeys Hwf].
  split; [done|]. split; [done|].
  intros name. by rewrite Hkeys, html_names_spec, endswith_spec.
Qed.

Lemma example_dir_names : NoDup example_dir.*1.
Proof. simpl. repeat constructor; set_solver. Qed.

Lemma example_dir_crawl :
  ∃ corpus, crawl String.words example_dir = Returns corpus.
Proof. vm_compute. eexists. reflexivity. Qed.

Lemma crawl_pages_witness :
  ∃ corpus,
    crawl String.words example_dir = Returns corpus
    ∧ Dict.keys corpus = ["1.html"; "2.html"; "3.html"]%string.
Proof.
  destruct example_dir_crawl as [corpus Hrun].
  exists corpus. split; [exact Hrun|].
  destruct (crawl_pages _ _ corpus example_dir_names Hrun) as (Hkeys & _ & _).
  exact Hkeys.
Defined.

(** X9. The links of the graph [crawl] returns: [p] links to [q] exactly
    when [p] is a page whose contents hold a link to [q], [q] is not [p]
    itself, and [q] is a page of the directory too. *)
Theorem crawl_links (find_links : string → list string) (dir : listing)
    (corpus : corpus_t) (p q : page) :
  NoDup dir.*1 → crawl find_links dir = Returns corpus →
  (∃ out, Dict.get corpus p = Some out ∧ q ∈ out)
  ↔ (∃ contents,
       (p, Some contents) ∈ dir ∧ endswith p ".html" = true
       ∧ q ∈ find_links contents ∧ q ≠ p
       ∧ q ∈ dir.*1 ∧ endswith q ".html" = true).
Proof.
  intros Hnd Hrun.
  destruct (crawl_returns_keys find_links dir corpus Hnd Hrun) as [Hkeys Hwf].
  pose proof (crawl_returns_inv find_links dir corpus Hnd Hrun) as Hcorpus.
  pose proof (html_names_spec dir) as Hnames.
  split.
  - intros (out & Hget & Hq). apply get_elem_of in Hget.
    rewrite Hcorpus in Hget.
    apply list_elem_of_fmap in Hget as ([n file] & [= -> ->] & Hentry).
    apply elem_of_html_entries in Hentry as [Hd Hh].
    apply elem_of_filter in Hq as [Hknown Hq].
    unfold found_links in Hq. cbn [fst snd] in Hq.
    destruct file as [contents|]; [|set_solver].
    exists contents. apply Hnames in Hknown. set_solver.
  - intros (contents & Hd & Hh & Hq & Hne & Hqd & Hqh).
    exists (filter (λ link, link ∈ (html_entries dir).*1)
                   (found_links find_links (p, Some contents))).
    split.
    + apply elem_of_get; [done|]. rewrite Hcorpus.
      apply list_elem_of_fmap. exists (p, Some contents).
      split; [done|]. by apply elem_of_html_entries.
    + apply elem_of_filter. split; [by apply Hnames|].
      unfold found_links. cbn [fst snd]. set_solver.
Qed.

Lemma crawl_links_witness :
  ∃ corpus out,
    crawl String.words example_dir = Returns corpus
    ∧ Dict.get corpus "1.html" = Some out
    ∧ "3.html"%string ∈ out.
Proof.
  destruct example_dir_crawl as [corpus Hrun].
  destruct (proj2 (crawl_links String.words example_dir corpus
                     "1.html" "3.html" example_dir_names Hrun))
    as (out & Hget & Hin).
  - exists "2.html 3.html 1.html far.html"%string.
    split; [set_solver|]. split; [reflexivity|].
    split; [vm_compute; set_solver|]. split; [done|].
    split; [simpl; set_solver|reflexivity].
  - by exists corpus, out.
Defined.

(** X10. The graph [crawl] returns keeps the invariants the estimators rely
    on: no link leaves the set of pages, and no page links to itself. *)
Theorem crawl_graph_invariants (find_links : string → list string)
    (dir : listing) (corpus : corpus_t) :
  NoDup dir.*1 → crawl find_links dir = Returns corpus →
  links_closed corpus ∧ ∀ p out, (p, out) ∈ corpus → p ∉ out.
Proof.
  intros Hnd Hrun.
  destruct (crawl_returns_keys find_links dir corpus Hnd Hrun) as [Hkeys Hwf].
  pose proof (crawl_returns_inv find_links dir corpus Hnd Hrun) as Hcorpus.
  split.
  - intros p out q Hp Hq. rewrite Hkeys. rewrite Hcorpus in Hp.
    apply list_elem_of_fmap in Hp as (entry & [= -> ->] & _).
    by apply elem_of_filter in Hq as [Hknown _].
  - intros p out Hp Hself. rewrite Hcorpus in Hp.
    apply list_elem_of_fmap in Hp as ([n file] & [= -> ->] & _).
    apply elem_of_filter in Hself as [_ Hself].
    unfold found_links in Hself. cbn [fst snd] in Hself.
    destruct file; set_solver.
Qed.

Lemma crawl_graph_invariants_witness :
  ∃ corpus,
    crawl String.words example_dir = Returns corpus ∧ links_closed corpus.
Proof.
  destruct example_dir_crawl as [corpus Hrun]. exists corpus.
  split; [exact Hrun|].
  exact (proj1 (crawl_graph_invariants _ _ corpus example_dir_names Hrun)).
Defined.



(** ** The program *)

Section main.
Context (find_links : string → list string) (format4 : Qc → string).
Implicit Types (dir : listing) (corpus : corpus_t) (ranks : Dict.t Qc).

Lemma elem_of_sorted p (ps : list page) : p ∈ sorted ps ↔ p ∈ ps.
Proof. unfold sorted. by rewrite merge_sort_Permutation. Qed.

Lemma rank_lines_from ranks (ps : list page) (printed : list string) :
  (∀ p, p ∈ ps → p ∈ Dict.keys ranks) →
  for_each (λ (printed : list string) p,
              let* rank := Dict.getitem ranks p in
              Ok (printed ++ [("  " +:+ p +:+ ": " +:+ format4 rank)%string]))
           ps printed
  = Ok (printed ++ (rank_line format4 ranks <$> ps)).
Proof.
  revert printed. induction ps as [|p ps IH]; intros printed Hps.
  - simpl. by rewrite app_nil_r.
  - cbn [for_each]. unfold Dict.getitem at 1.
    rewrite get_rank_of by (apply Hps; left). cbn [result_bind].
    rewrite IH by (intros ??; apply Hps; by right).
    by rewrite fmap_cons, <-app_assoc.
Qed.

(** The loop that prints the ranks finds every page it asks for. *)
Lemma rank_lines_eq ranks :
  rank_lines format4 ranks
  = Ok (rank_line format4 ranks <$> sorted (Dict.keys ranks)).
Proof.
  unfold rank_lines. rewrite rank_lines_from; [done|].
  intros p. by rewrite elem_of_sorted.
Qed.

Lemma DAMPING_bounds : (0 < DAMPING ∧ DAMPING < 1)%Qc.
Proof. split; reflexivity. Qed.

(** A run of [main] on a graph with a page, once the directory is read. *)
Lemma main_ranks (fs : string → option listing) script directory dir corpus
    sampled g fuel :
  fs directory = Some dir → crawl find_links dir = Returns corpus →
  sample_pagerank corpus DAMPING SAMPLES g = Ok sampled →
  main find_links format4 fs [script; directory] g fuel
  = match iterate_pagerank fuel corpus DAMPING with
    | None => None
    | Some (Raise e) =>
        Some ("PageRank Results from Sampling (n = 10000)"%string
                :: (rank_line format4 sampled <$> sorted (Dict.keys sampled)),
              Uncaught e)
    | Some (Ok iterated) =>
        Some ("PageRank Results from Sampling (n = 10000)"%string
                :: (rank_line format4 sampled <$> sorted (Dict.keys sampled))
                ++ "PageRank Results from Iteration"%string
                :: (rank_line format4 iterated
                      <$> sorted (Dict.keys iterated)),
              Finished)
    end.
Proof.
  intros Hfs Hcrawl Hsample. unfold main.
  rewrite decide_False by (by intros H). cbn [lookup list_lookup].
  rewrite Hfs, Hcrawl, Hsample, rank_lines_eq.
  destruct (iterate_pagerank fuel corpus DAMPING) as [[iterated|e]|]; try done.
  rewrite rank_lines_eq. by rewrite <-app_assoc.
Qed.

End main.

Section runs.
Context (find_links : string → list string) (format4 : Qc → string).
Implicit Types (dir : listing) (corpus : corpus_t) (ranks : Dict.t Qc).

(** On the graph of a directory with a page both estimators succeed. *)
Lemma crawl_then_rank dir g :
  NoDup dir.*1 → Forall (λ entry, is_Some entry.2) (html_entries dir) →
  html_entries dir ≠ [] →
  ∃ corpus sampled iterated sweeps,
    crawl find_links dir = Returns corpus
    ∧ Dict.keys corpus = (html_entries dir).*1
    ∧ sample_pagerank corpus DAMPING SAMPLES g = Ok sampled
    ∧ Dict.keys sampled = (html_entries dir).*1
    ∧ Dict.keys iterated = (html_entries dir).*1
    ∧ ∀ fuel, (sweeps ≤ fuel)%nat →
        iterate_pagerank fuel corpus DAMPING = Some (Ok iterated).
Proof.
  intros Hnd Hread Hpages.
  pose proof (crawl_eq find_links dir Hnd Hread) as Hcrawl.
  set (corpus := _ <$> html_entries dir) in Hcrawl.
  destruct (crawl_returns_keys find_links dir corpus Hnd Hcrawl)
    as [Hkeys Hwf].
  assert (Hne : corpus ≠ []).
  { unfold corpus. by destruct (html_entries dir). }
  destruct (sample_pagerank_run corpus DAMPING SAMPLES g Hwf Hne
              (or_intror DAMPING_bounds)) as (path & _ & _ & _ & Hsample);
    [done|].
  destruct DAMPING_bounds as [Hd0 Hd1].
  destruct (iterate_pagerank_stops corpus DAMPING Hwf
              (Qclt_le_weak _ _ Hd0) Hd1) as (sweeps & iterated & Hk & Hrun).
  eexists corpus, _, iterated, sweeps.
  split; [done|]. split; [done|]. split; [exact Hsample|].
  split; [by rewrite keys_tabulate|]. split; [by rewrite Hk|done].
Qed.

End runs.

(** X12. [main] leaves by [sys.exit] with the usage message exactly when
    it is not given one argument after the name of the script, and then it
    has printed nothing. *)
Theorem main_usage (find_links : string → list string) (format4 : Qc → string)
    (fs : string → option listing) (argv : list string) (g : Random.rng)
    (fuel : nat) :
  (length argv ≠ 2%nat →
   main find_links format4 fs argv g fuel
   = Some ([], SysExit "Usage: python pagerank.py corpus"))
  ∧ (∀ printed message,
       main find_links format4 fs argv g fuel
       = Some (printed, SysExit message) →
       length argv ≠ 2%nat ∧ printed = []
       ∧ message = "Usage: python pagerank.py corpus"%string).
Proof.
  unfold main. destruct (decide (length argv ≠ 2%nat)) as [Hlen|Hlen].
  - split; [done|]. by intros printed message [= <- <-].
  - split; [done|]. intros printed message Hrun. exfalso.
    repeat case_match; simplify_eq.
Qed.

Lemma main_usage_witness :
  main String.words (λ _, "0.0000"%string) (λ _, Some example_dir)
       ["pagerank.py"]%string (const_rng (Q2Qc (1 # 2))) 0
  = Some ([], SysExit "Usage: python pagerank.py corpus").
Proof.
  apply (main_usage String.words (λ _, "0.0000"%string)
           (λ _, Some example_dir) ["pagerank.py"]%string
           (const_rng (Q2Qc (1 # 2))) 0).
  simpl. lia.
Defined.





(** X15. Given a directory whose [*.html] entries can all be read, and
    which holds one at least, [main] runs to its end: it prints the header
    of the sampling estimate, one line for every page in ascending order of
    the names with the rank [sample_pagerank] returned on the graph of
    [crawl], the header of the iterative estimate, and one line for every
    page, in the same order, with the rank [iterate_pagerank] returned. *)
Theorem main_prints_ranks (find_links : string → list string)
    (format4 : Qc → string) (fs : string → option listing)
    (script directory : string) (dir : listing) (g : Random.rng) :
  fs directory = Some dir → NoDup dir.*1 →
  Forall (λ entry, is_Some entry.2) (html_entries dir) →
  html_entries dir ≠ [] →
  ∃ corpus sampled iterated sweeps,
    crawl find_links dir = Returns corpus
    ∧ sample_pagerank corpus DAMPING SAMPLES g = Ok sampled
    ∧ StronglySorted String.le (sorted (html_entries dir).*1)
    ∧ sorted (html_entries dir).*1 ≡ₚ (html_entries dir).*1
    ∧ ∀ fuel, (sweeps ≤ fuel)%nat →
        iterate_pagerank fuel corpus DAMPING = Some (Ok iterated)
        ∧ main find_links format4 fs [script; directory] g fuel
          = Some ("PageRank Results from Sampling (n = 10000)"%string
                    :: (rank_line format4 sampled
                          <$> sorted (html_entries dir).*1)
                    ++ "PageRank Results from Iteration"%string
                    :: (rank_line format4 iterated
                          <$> sorted (html_entries dir).*1),
                  Finished).
Proof.
  intros Hfs Hnd Hread Hpages.
  destruct (crawl_then_rank find_links dir g Hnd Hread Hpages)
    as (corpus & sampled & iterated & sweeps & Hcrawl & Hkeys & Hsample
        & Hks & Hki & Hrun).
  exists corpus, sampled, iterated, sweeps.
  split; [done|]. split; [done|].
  split; [apply StronglySorted_merge_sort; apply _|].
  split; [apply merge_sort_Permutation|].
  intros fuel Hfuel. split; [by apply Hrun|].
  rewrite (main_ranks find_links format4 fs script directory dir corpus
             sampled g fuel Hfs Hcrawl Hsample).
  by rewrite (Hrun fuel Hfuel), Hks, Hki.
Qed.

Lemma main_prints_ranks_witness :
  ∃ fuel printed,
    main String.words (λ _, "0.0000"%string) (λ _, Some example_dir)
         ["pagerank.py"; "corpus"]%string (const_rng (Q2Qc (1 # 2))) fuel
    = Some (printed, Finished)
    ∧ length printed = 8%nat.
Proof.
  destruct (main_prints_ranks String.words (λ _, "0.0000"%string)
              (λ _, Some example_dir) "pagerank.py" "corpus" example_dir
              (const_rng (Q2Qc (1 # 2))))
    as (corpus & sampled & iterated & sweeps & _ & _ & _ & _ & Hrun).
  - reflexivity.
  - exact example_dir_names.
  - repeat constructor; by eexists.
  - discriminate.
  - destruct (Hrun sweeps) as [_ Hmain]; [lia|].
    eexists sweeps, _. split; [exact Hmain|]. reflexivity.
Defined.
